(** * reclist: records in a simple list format

    A shallow embedding of the Go package [reclist] (record.go, scanner.go,
    writer.go) and the properties of its scanner/writer pair.

    Modelling conventions.
    - A Go [string] is the list of its runes (code points, [Z]); the text
      handled is taken to be valid UTF-8, so that reading by runes and
      reading by bytes see the same characters.  Byte lengths ([len]) are
      computed from the UTF-8 width of every rune.
    - [*Record] is [option Record_] ([None] is the nil pointer); methods that
      mutate their receiver return the new value.
    - [bufio.Reader] is the list of runes still to be read, the size of the
      last rune read (kept as the rune itself, for [UnreadRune]) and the error
      the source reports once the data is exhausted.
    - The [for] loops of the scanner run on a fuel that is computed from the
      length of the unread input; every iteration that goes round reads at
      least one rune, so the bound is never reached (the [*_unfold] lemmas).
    - [int] is [Z]: the line counter cannot wrap on any input that fits in
      memory. *)

From Stdlib Require Import ZArith String Ascii.
From stdpp Require Import gmap list sorting.
Local Open Scope Z_scope.

Abbreviation rune := Z (only parsing).

(** ** Text literals *)

Definition runes (s : string) : list rune :=
  (λ c, Z.of_N (N_of_ascii c)) <$> list_ascii_of_string s.

Abbreviation ch_TAB := 9 (only parsing).
Abbreviation ch_LF := 10 (only parsing).
Abbreviation ch_CR := 13 (only parsing).
Abbreviation ch_SP := 32 (only parsing).
Abbreviation ch_QUOTE := 34 (only parsing).
Abbreviation ch_SHARP := 35 (only parsing).
Abbreviation ch_MINUS := 45 (only parsing).
Abbreviation ch_COLON := 58 (only parsing).
Abbreviation ch_EQUAL := 61 (only parsing).
Abbreviation ch_AT := 64 (only parsing).
Abbreviation ch_BACKSLASH := 92 (only parsing).

(** A case table that leaves every rune above U+007F alone: enough to run
    the package on ASCII text. *)
Definition ascii_only_CaseRanges : rune → rune := λ r, r.

(** ** errors *)

(** [io.EOF], any other fault of the underlying stream, and the wrappers of
    github.com/pkg/errors ([Wrap], [Wrapf]) with their message and arguments. *)
Inductive error : Type :=
| io_EOF
| io_Fault (code : nat)
| errors_Wrapf (cause : error) (format : string) (args : list Z).

Fixpoint errors_Cause (e : error) : error :=
  match e with
  | errors_Wrapf c _ _ => errors_Cause c
  | _ => e
  end.

Definition is_EOF (e : error) : bool :=
  match e with io_EOF => true | _ => false end.

Definition errors_Wrap (e : error) (msg : string) : error := errors_Wrapf e msg [].

(** ** unicode, utf8 *)

(** [unicode.IsSpace]: the Latin-1 switch, then the [White_Space] table. *)
Definition unicode_IsSpace (r : rune) : bool :=
  if (0 <=? r) && (r <=? 0xFF) then
    ((ch_TAB <=? r) && (r <=? ch_CR)) || (r =? ch_SP) || (r =? 0x85) || (r =? 0xA0)
  else
    (r =? 0x1680) || ((0x2000 <=? r) && (r <=? 0x200A)) || (r =? 0x2028)
    || (r =? 0x2029) || (r =? 0x202F) || (r =? 0x205F) || (r =? 0x3000).

(** The number of bytes [utf8.EncodeRune] writes for a rune (an invalid rune
    is written as U+FFFD, three bytes). *)
Definition utf8_width (r : rune) : Z :=
  if r <? 0 then 3
  else if r <=? 0x7F then 1
  else if r <=? 0x7FF then 2
  else if r <=? 0xFFFF then 3
  else if r <=? 0x10FFFF then 4
  else 3.

(** [len(s)] of a string, in bytes. *)
Definition len (s : list rune) : Z := foldr (λ r n, utf8_width r + n) 0 s.

(** ** strings *)

(** Lexicographic order of strings ([sort.Strings] compares bytes; on valid
    UTF-8 that is the order of the code points). *)
Fixpoint string_leb (a b : list rune) : bool :=
  match a, b with
  | [], _ => true
  | _ :: _, [] => false
  | x :: a', y :: b' => (x <? y) || ((x =? y) && string_leb a' b')
  end.

Definition string_le (a b : list rune) : Prop := string_leb a b = true.

Global Instance string_le_dec : RelDecision string_le.
Proof. intros a b. unfold string_le. apply _. Defined.

Definition sort_Strings (l : list (list rune)) : list (list rune) :=
  merge_sort string_le l.

(** [strings.TrimSpace]. *)
Fixpoint trimLeft (s : list rune) : list rune :=
  match s with
  | [] => []
  | r :: t => if unicode_IsSpace r then trimLeft t else s
  end.

Definition strings_TrimSpace (s : list rune) : list rune :=
  rev (trimLeft (rev (trimLeft s))).

(** [strings.Fields]: the maximal runs of runes that are not white space.
    [cur] is the field being read, in reverse. *)
Fixpoint fields_from (cur : list rune) (s : list rune) : list (list rune) :=
  match s with
  | [] => match cur with [] => [] | _ => [rev cur] end
  | r :: t =>
      if unicode_IsSpace r then
        match cur with
        | [] => fields_from [] t
        | _ => rev cur :: fields_from [] t
        end
      else fields_from (r :: cur) t
  end.

Definition strings_Fields (s : list rune) : list (list rune) := fields_from [] s.

(** [strings.Join]. *)
Fixpoint strings_Join (elems : list (list rune)) (sep : list rune) : list rune :=
  match elems with
  | [] => []
  | [e] => e
  | e :: es => e ++ sep ++ strings_Join es sep
  end.

(** [strings.Index(s, string(c))] for a one-rune separator; -1 when absent. *)
Fixpoint strings_Index (s : list rune) (c : rune) : Z :=
  match s with
  | [] => -1
  | r :: t => if r =? c then 0 else
                let i := strings_Index t c in if i <? 0 then -1 else i + 1
  end.

(** [strings.Contains(s, string(c))]. *)
Definition strings_Contains (s : list rune) (c : rune) : bool :=
  existsb (λ r, r =? c) s.

(** Slices [s[:i]] and [s[i:]]. *)
Definition slice_to (s : list rune) (i : Z) : list rune := take (Z.to_nat i) s.
Definition slice_from (s : list rune) (i : Z) : list rune := drop (Z.to_nat i) s.

(** ** bufio.Reader *)

Record Reader := mkReader {
  rd_buf : list rune;          (* the runes not yet read *)
  rd_last : option rune;       (* the rune UnreadRune would give back *)
  rd_err : error               (* what a read past the data returns *)
}.

Definition bufio_NewReader (data : list rune) (e : error) : Reader :=
  mkReader data None e.

Definition bufio_ReadRune (rd : Reader) : rune * option error * Reader :=
  match rd_buf rd with
  | [] => (0, Some (rd_err rd), mkReader [] None (rd_err rd))
  | c :: t => (c, None, mkReader t (Some c) (rd_err rd))
  end.

(** The error of [UnreadRune] is never looked at by the scanner. *)
Definition bufio_UnreadRune (rd : Reader) : Reader :=
  match rd_last rd with
  | Some c => mkReader (c :: rd_buf rd) None (rd_err rd)
  | None => rd
  end.

(** [split_line s]: the prefix of [s] up to and including the first newline
    and what follows it, or [None] when [s] has no newline. *)
Fixpoint split_line (s : list rune) : option (list rune * list rune) :=
  match s with
  | [] => None
  | c :: t =>
      if c =? ch_LF then Some ([c], t)
      else match split_line t with
           | Some (l, rest) => Some (c :: l, rest)
           | None => None
           end
  end.

(** [ReadString('\n')]: without a delimiter the data read so far comes back
    together with the error. *)
Definition bufio_ReadString (rd : Reader) : list rune * option error * Reader :=
  match split_line (rd_buf rd) with
  | Some (l, rest) => (l, None, mkReader rest None (rd_err rd))
  | None => (rd_buf rd, Some (rd_err rd), mkReader [] None (rd_err rd))
  end.

Section Reclist.

(** [unicode.CaseRanges], as the mapping to lower case of the runes above
    U+007F.  The table belongs to the Go library. *)
Variable CaseRanges_lower : rune → rune.

(** [unicode.ToLower]: the ASCII range is handled in place, the rest goes
    through the table. *)
Definition unicode_ToLower (r : rune) : rune :=
  if r <=? 0x7F then
    if (65 <=? r) && (r <=? 90) then r + 32 else r
  else CaseRanges_lower r.

Definition strings_ToLower (s : list rune) : list rune := unicode_ToLower <$> s.

(** ** record.go *)

Record Record_ := mkRecord {
  rec_id : list rune;
  rec_typ : list rune;
  rec_data : gmap (list rune) (list rune)
}.

(** The normal form of types and keys, as [NewRecord], [Get] and [Set]
    compute it in place. *)
Definition normKey (key : list rune) : list rune :=
  strings_ToLower (strings_Join (strings_Fields key) [ch_MINUS]).

Definition NewRecord (typ ID : list rune) : option Record_ :=
  let typ := strings_ToLower (strings_Join (strings_Fields typ) [ch_MINUS]) in
  if bool_decide (typ = []) then None
  else
    let ID := strings_Join (strings_Fields ID) [ch_SP] in
    if bool_decide (ID = []) then None
    else Some (mkRecord ID typ ∅).

Definition Record_ID (r : Record_) : list rune := rec_id r.

Definition Record_Type (r : Record_) : list rune := rec_typ r.

Definition Record_Keys (r : Record_) : list (list rune) :=
  if bool_decide (size (rec_data r) = 0%nat) then []
  else sort_Strings (map_to_list (rec_data r)).*1.

Definition Record_Get (key : list rune) (r : Record_) : list rune :=
  let key := strings_ToLower (strings_Join (strings_Fields key) [ch_MINUS]) in
  default [] (rec_data r !! key).

Definition Record_Set (key value : list rune) (r : Record_) : Record_ :=
  let key := strings_ToLower (strings_Join (strings_Fields key) [ch_MINUS]) in
  if bool_decide (key = []) then r
  else
    let value := strings_TrimSpace value in
    if bool_decide (value = []) then
      mkRecord (rec_id r) (rec_typ r) (delete key (rec_data r))
    else
      mkRecord (rec_id r) (rec_typ r) (<[key := value]> (rec_data r)).

(** A sequence of [Set] calls, first call first. *)
Definition Record_Sets (ops : list (list rune * list rune)) (r : Record_) : Record_ :=
  foldl (λ r kv, Record_Set kv.1 kv.2 r) r ops.


(** ** scanner.go *)

Record Scanner := mkScanner {
  s_closed : bool;
  s_err : option error;
  s_r : Reader;
  s_line : Z;
  s_rec : option Record_;
  s_b : list rune               (* the scratch bytes.Buffer *)
}.

Definition set_closed (s : Scanner) (c : bool) : Scanner :=
  mkScanner c (s_err s) (s_r s) (s_line s) (s_rec s) (s_b s).
Definition set_err (s : Scanner) (e : option error) : Scanner :=
  mkScanner (s_closed s) e (s_r s) (s_line s) (s_rec s) (s_b s).
Definition set_r (s : Scanner) (rd : Reader) : Scanner :=
  mkScanner (s_closed s) (s_err s) rd (s_line s) (s_rec s) (s_b s).
Definition set_line (s : Scanner) (n : Z) : Scanner :=
  mkScanner (s_closed s) (s_err s) (s_r s) n (s_rec s) (s_b s).
Definition set_rec (s : Scanner) (rec : option Record_) : Scanner :=
  mkScanner (s_closed s) (s_err s) (s_r s) (s_line s) rec (s_b s).
Definition set_b (s : Scanner) (b : list rune) : Scanner :=
  mkScanner (s_closed s) (s_err s) (s_r s) (s_line s) (s_rec s) b.

(** [s.line++], [s.b.Reset()], [s.b.WriteRune(c)], [s.r.UnreadRune()]. *)
Definition incr_line (s : Scanner) : Scanner := set_line s (s_line s + 1).
Definition b_Reset (s : Scanner) : Scanner := set_b s [].
Definition b_WriteRune (c : rune) (s : Scanner) : Scanner := set_b s (s_b s ++ [c]).
Definition r_UnreadRune (s : Scanner) : Scanner := set_r s (bufio_UnreadRune (s_r s)).

(** The unread input of a scanner and the fuel its loops start with. *)
Definition pending (s : Scanner) : list rune := rd_buf (s_r s).
Definition fuel_of (s : Scanner) : nat := S (length (pending s)).

Definition NewScanner (data : list rune) (e : error) : Scanner :=
  mkScanner false None (bufio_NewReader data e) 0 None [].

(** [readRune] reads one rune from [s], folding \r\n to \n. *)
Definition readRune (s : Scanner) : rune * option error * Scanner :=
  let '(r1, err, rd1) := bufio_ReadRune (s_r s) in
  if r1 =? ch_CR then
    let '(r2, err2, rd2) := bufio_ReadRune rd1 in
    match err2 with
    | None =>
        if negb (r2 =? ch_LF) then (ch_CR, None, set_r s (bufio_UnreadRune rd2))
        else (r2, None, set_r s rd2)
    | Some e => (r2, Some e, set_r s rd2)
    end
  else (r1, err, set_r s rd1).

(** [skip] reads runes up to and including the rune [delim] or until error. *)
Fixpoint skip_loop (fuel : nat) (delim : rune) (s : Scanner) : option error * Scanner :=
  match fuel with
  | O => (Some (rd_err (s_r s)), s)
  | S fuel =>
      let '(r1, err, s) := readRune s in
      match err with
      | Some e => (Some e, s)
      | None => if r1 =? delim then (None, s) else skip_loop fuel delim s
      end
  end.

Definition skip (delim : rune) (s : Scanner) : option error * Scanner :=
  skip_loop (fuel_of s) delim s.

(** [parseKey], first loop: blanks, blank lines and comments before a key.
    [inl] is a [return], [inr] the [break]. *)
Fixpoint parseKey_seek (fuel : nat) (s : Scanner)
  : (list rune * rune * option error + unit) * Scanner :=
  match fuel with
  | O => (inl ([], 0, Some (rd_err (s_r s))), s)
  | S fuel =>
      let '(r1, err, s) := readRune s in
      match err with
      | Some e => (inl ([], 0, Some e), s)
      | None =>
          if r1 =? ch_LF then parseKey_seek fuel (incr_line s)
          else if unicode_IsSpace r1 then parseKey_seek fuel s
          else if r1 =? ch_SHARP then
            let '(_, s) := skip ch_LF s in
            parseKey_seek fuel (incr_line s)
          else
            let s := r_UnreadRune s in
            if r1 =? ch_AT then (inl ([], ch_AT, None), s)
            else (inr tt, s)
      end
  end.

(** [parseKey], second loop: the key itself, up to the colon. *)
Fixpoint parseKey_read (fuel : nat) (space : bool) (s : Scanner)
  : list rune * rune * option error * Scanner :=
  match fuel with
  | O => ([], 0, Some (rd_err (s_r s)), s)
  | S fuel =>
      let '(r1, err, s) := readRune s in
      match err with
      | Some e => ([], 0, Some e, s)
      | None =>
          if r1 =? ch_LF then ([], ch_LF, None, incr_line s)
          else if unicode_IsSpace r1 then parseKey_read fuel true s
          else if r1 =? ch_COLON then (s_b s, ch_COLON, None, s)
          else
            let s := if space then b_WriteRune ch_MINUS s else s in
            parseKey_read fuel false (b_WriteRune r1 s)
      end
  end.

(** [parseKey] parses the next key in the record. *)
Definition parseKey (s : Scanner) : list rune * rune * option error * Scanner :=
  match parseKey_seek (fuel_of s) s with
  | (inl res, s) => (res, s)
  | (inr _, s) =>
      let s := b_Reset s in
      parseKey_read (fuel_of s) false s
  end.

(** [quoteValue] parses a quoted, possibly multi-line value. *)
Fixpoint quoteValue_loop (fuel : nat) (first space line : bool) (s : Scanner)
  : list rune * option error * Scanner :=
  match fuel with
  | O => ([], Some (rd_err (s_r s)), s)
  | S fuel =>
      let '(r1, err, s) := readRune s in
      match err with
      | Some e =>
          let v := s_b s in
          if 0 <? Z.of_nat (length v) then (v, None, s) else ([], Some e, s)
      | None =>
          if r1 =? ch_LF then
            let '(space, line) := if negb first then (false, true) else (space, line) in
            quoteValue_loop fuel first space line (incr_line s)
          else if unicode_IsSpace r1 then
            let space := if negb first && negb line then true else space in
            quoteValue_loop fuel first space line s
          else if r1 =? ch_QUOTE then (s_b s, None, s)
          else
            (* [esc]: the rune is written; [None]: the escape met an error
               and the loop goes round *)
            let '(esc, s) :=
              if r1 =? ch_BACKSLASH then
                let '(r2, err2, s) := readRune s in
                match err2 with
                | Some _ => (None, s)
                | None => (Some r2, s)
                end
              else (Some r1, s) in
            match esc with
            | None => quoteValue_loop fuel first space line s
            | Some r1 =>
                let '(space, s) :=
                  if line then (false, b_WriteRune ch_LF s) else (space, s) in
                let s := if space then b_WriteRune ch_SP s else s in
                quoteValue_loop fuel false false false (b_WriteRune r1 s)
            end
      end
  end.

Definition quoteValue (s : Scanner) : list rune * option error * Scanner :=
  let s := b_Reset s in
  quoteValue_loop (fuel_of s) true false false s.

(** [parseValue] parses the next value in the record.  The loop either
    returns ([inl]) or breaks ([inr]) to the final [ReadString]. *)
Fixpoint parseValue_seek (fuel : nat) (s : Scanner)
  : (list rune * option error + unit) * Scanner :=
  match fuel with
  | O => (inl ([], Some (rd_err (s_r s))), s)
  | S fuel =>
      let '(r1, err, s) := readRune s in
      match err with
      | Some e => (inl ([], Some e), s)
      | None =>
          if r1 =? ch_LF then (inl ([], None), incr_line s)
          else if unicode_IsSpace r1 then parseValue_seek fuel s
          else if r1 =? ch_QUOTE then
            let '(v, e, s) := quoteValue s in (inl (v, e), s)
          else (inr tt, r_UnreadRune s)
      end
  end.

Definition parseValue (s : Scanner) : list rune * option error * Scanner :=
  match parseValue_seek (fuel_of s) s with
  | (inl res, s) => (res, s)
  | (inr _, s) =>
      let '(v, e, rd) := bufio_ReadString (s_r s) in
      (v, e, set_r s rd)
  end.

(** [parseRecord], first loop: read the header of the record. *)
Fixpoint parseRecord_header (fuel : nat) (s : Scanner)
  : (Record_ + error) * Scanner :=
  match fuel with
  | O => (inr (rd_err (s_r s)), s)
  | S fuel =>
      let s := incr_line s in
      let '(line, err, rd) := bufio_ReadString (s_r s) in
      let s := set_r s rd in
      match err with
      | Some e =>
          if is_EOF e then (inr e, s)
          else (inr (errors_Wrapf e "reclist: scanner: line %d" [s_line s]), s)
      | None =>
          let line := strings_TrimSpace line in
          match line with
          | [] => parseRecord_header fuel s
          | c :: line' =>
              if c =? ch_SHARP then parseRecord_header fuel s
              else if negb (c =? ch_AT) then parseRecord_header fuel s
              else
                let line := line' in
                let i := strings_Index line ch_EQUAL in
                if i <? 1 then parseRecord_header fuel s
                else
                  match NewRecord (slice_to line i) (slice_from line (i + 1)) with
                  | Some rec => (inl rec, s)
                  | None => parseRecord_header fuel s
                  end
          end
      end
  end.

(** [parseRecord], second loop: read the record data. *)
Fixpoint parseRecord_fields (fuel : nat) (rec : Record_) (s : Scanner)
  : Record_ * Scanner :=
  match fuel with
  | O => (rec, s)
  | S fuel =>
      let '(key, delim, err, s) := parseKey s in
      match err with
      | Some _ => (rec, s)
      | None =>
          if delim =? ch_AT then (rec, s)
          else if delim =? ch_LF then parseRecord_fields fuel rec s
          else
            let '(value, err, s) := parseValue s in
            match err with
            | Some _ => (rec, s)
            | None => parseRecord_fields fuel (Record_Set key value rec) s
            end
      end
  end.

(** [parseRecord] reads and parses a single reclist record from [s]. *)
Definition parseRecord (s : Scanner) : option Record_ * option error * Scanner :=
  match parseRecord_header (fuel_of s) s with
  | (inr e, s) => (None, Some e, s)
  | (inl rec, s) =>
      let '(rec, s) := parseRecord_fields (fuel_of s) rec s in
      (Some rec, None, s)
  end.

(** [Scan] prepares the next record for reading with the [Record] method. *)
Fixpoint Scan_loop (fuel : nat) (s : Scanner) : bool * Scanner :=
  match fuel with
  | O => (false, s)
  | S fuel =>
      match parseRecord s with
      | (_, Some err, s) =>
          let s := set_closed s true in
          if is_EOF (errors_Cause err) then (false, s)
          else (false, set_err s (Some err))
      | (None, None, s) => (false, s)     (* parseRecord gives a record or an error *)
      | (Some rec, None, s) =>
          if bool_decide (size (rec_data rec) = 0%nat) then Scan_loop fuel s
          else (true, set_rec s (Some rec))
      end
  end.

Definition Scanner_Scan (s : Scanner) : bool * Scanner :=
  if s_closed s then (false, s)
  else Scan_loop (fuel_of s) s.

(** [Record] returns the last read record; [None] is the panic
    "Record called without Scan". *)
Definition Scanner_Record (s : Scanner) : option (Record_ * Scanner) :=
  match s_rec s with
  | None => None
  | Some rec => Some (rec, set_rec s None)
  end.

Definition Scanner_Err (s : Scanner) : option error := s_err s.

(** ** writer.go *)

(** [bufio.Writer]: the text accepted so far, and the error of the sink once
    it has failed (no more data is accepted then, and every write returns
    the error). *)
Record Writer := mkWriter {
  w_out : list rune;
  w_err : option error
}.

Definition NewWriter : Writer := mkWriter [] None.

Definition bufio_WriteString (str : list rune) (w : Writer) : option error * Writer :=
  match w_err w with
  | Some e => (Some e, w)
  | None => (None, mkWriter (w_out w ++ str) None)
  end.

Definition bufio_WriteRune (c : rune) (w : Writer) : option error * Writer :=
  bufio_WriteString [c] w.

(** The loop of [writeQuoted] over the runes of the value. *)
Fixpoint writeQuoted_loop (value : list rune) (first space line : bool) (w : Writer)
  : option error * Writer :=
  match value with
  | [] => (None, w)
  | c :: value =>
      if c =? ch_LF then
        let '(space, line) := if negb first then (false, true) else (space, line) in
        writeQuoted_loop value first space line w
      else if unicode_IsSpace c then
        let space := if negb first && negb line then true else space in
        writeQuoted_loop value first space line w
      else
        let '(err, space, w) :=
          if line then
            let '(err, w) := bufio_WriteString [ch_LF; ch_TAB; ch_TAB] w in
            (err, false, w)
          else (None, space, w) in
        match err with
        | Some e => (Some (errors_Wrap e "reclist: writer"), w)
        | None =>
            let '(err, w) := if space then bufio_WriteRune ch_SP w else (None, w) in
            match err with
            | Some e => (Some (errors_Wrap e "reclist: writer"), w)
            | None =>
                let '(err, w) :=
                  if c =? ch_QUOTE then bufio_WriteString [ch_BACKSLASH; ch_QUOTE] w
                  else if c =? ch_BACKSLASH then
                    bufio_WriteString [ch_BACKSLASH; ch_BACKSLASH] w
                  else bufio_WriteRune c w in
                match err with
                | Some e => (Some (errors_Wrap e "reclist: writer"), w)
                | None => writeQuoted_loop value false false false w
                end
            end
        end
  end.

(** [writeQuoted] writes a key, value pair, in which value is enclosed by
    quotation marks. *)
Definition writeQuoted (key value : list rune) (w : Writer) : option error * Writer :=
  let s :=
    if len key <? 6 then [ch_TAB] ++ key ++ [ch_COLON; ch_TAB; ch_QUOTE]
    else [ch_TAB] ++ key ++ [ch_COLON; ch_SP; ch_QUOTE] in
  match bufio_WriteString s w with
  | (Some e, w) => (Some (errors_Wrap e "reclist: writer"), w)
  | (None, w) =>
      match writeQuoted_loop value true false false w with
      | (Some e, w) => (Some e, w)
      | (None, w) =>
          match bufio_WriteString [ch_QUOTE; ch_LF] w with
          | (Some e, w) => (Some (errors_Wrap e "reclist: writer"), w)
          | (None, w) => (None, w)
          end
      end
  end.

(** [writeField] writes a key, value pair. *)
Definition writeField (key value : list rune) (w : Writer) : option error * Writer :=
  if strings_Contains value ch_LF then writeQuoted key value w
  else
    let s :=
      if len key <? 6 then [ch_TAB] ++ key ++ [ch_COLON; ch_TAB] ++ value ++ [ch_LF]
      else [ch_TAB] ++ key ++ [ch_COLON; ch_SP] ++ value ++ [ch_LF] in
    match bufio_WriteString s w with
    | (Some e, w) => (Some (errors_Wrap e "reclist: writer"), w)
    | (None, w) => (None, w)
    end.

(** The loop of [Write] over the keys. *)
Fixpoint Write_fields (keys : list (list rune)) (rec : Record_) (w : Writer)
  : option error * Writer :=
  match keys with
  | [] => (None, w)
  | key :: keys =>
      let value := Record_Get key rec in
      if bool_decide (value = []) then Write_fields keys rec w
      else
        match writeField key value w with
        | (Some e, w) => (Some e, w)
        | (None, w) => Write_fields keys rec w
        end
  end.

(** [Write] writes a single record to [w]. *)
Definition Writer_Write (rec : Record_) (w : Writer) : option error * Writer :=
  let keys := Record_Keys rec in
  if bool_decide (length keys = 0%nat) then (None, w)
  else if bool_decide (Record_ID rec = []) || bool_decide (Record_Type rec = []) then (None, w)
  else
    match bufio_WriteString ([ch_AT] ++ Record_Type rec ++ [ch_EQUAL] ++ Record_ID rec ++ [ch_LF]) w with
    | (Some e, w) => (Some (errors_Wrap e "reclist: writer"), w)
    | (None, w) => Write_fields keys rec w
    end.

(** [Flush] hands the buffered text to the sink; [Err] reports the error of
    a previous write or flush. *)
Definition Writer_Flush (w : Writer) : Writer := w.

Definition Writer_Err (w : Writer) : option error :=
  match w_err w with
  | Some e => Some (errors_Wrap e "reclist: writer")
  | None => None
  end.

(** ** Vocabulary of the properties *)

(** A rune that is not white space. *)
Definition solid (c : rune) : Prop := unicode_IsSpace c = false.

(** White space inside a line, outside the line ends. *)
Definition blank (c : rune) : Prop :=
  unicode_IsSpace c = true ∧ c ≠ ch_LF ∧ c ≠ ch_CR.

(** The number of newlines of a text. *)
Definition count_LF (l : list rune) : Z :=
  Z.of_nat (length (filter (λ c, c = ch_LF) l)).

(** A string that white space neither opens nor closes (and is not empty). *)
Definition trimmed (v : list rune) : Prop :=
  (∃ c t, v = c :: t ∧ solid c) ∧ (∃ t c, v = t ++ [c] ∧ solid c).

(** The normal form of a type or of a key: lower case, no white space. *)
Definition normal_name (k : list rune) : Prop :=
  k ≠ [] ∧ Forall solid k ∧ strings_ToLower k = k.

(** The field map of a record in normal form. *)
Definition normal_fields (r : Record_) : Prop :=
  ∀ k v, rec_data r !! k = Some v →
         normal_name k ∧ v ≠ [] ∧ strings_TrimSpace v = v.

(** A key that the scanner reads back as it stands: no white space, no
    colon, and no sharp or at sign in front. *)
Definition plain_key (k : list rune) : Prop :=
  Forall (λ c, solid c ∧ c ≠ ch_COLON) k ∧
  match k with
  | [] => False
  | c :: _ => c ≠ ch_SHARP ∧ c ≠ ch_AT
  end.

(** A rune that [writeQuoted] writes as it is and [quoteValue] keeps. *)
Definition ordinary (c : rune) : Prop :=
  solid c ∧ c ≠ ch_QUOTE ∧ c ≠ ch_BACKSLASH.

(** A key and a value that the format can carry. *)
Definition scannable_key (k : list rune) : Prop :=
  normal_name k ∧ (ch_COLON ∉ k) ∧ head k ≠ Some ch_SHARP ∧ head k ≠ Some ch_AT.

Definition scannable_value (v : list rune) : Prop :=
  v ≠ [] ∧ strings_TrimSpace v = v ∧
  (strings_Contains v ch_LF = false → head v ≠ Some ch_QUOTE).

(** The invariant of the field map: no empty key, no empty value. *)
Definition fields_ok (r : Record_) : Prop :=
  ∀ k v, rec_data r !! k = Some v → k ≠ [] ∧ v ≠ [].

(** What no parsing function touches: the error of the stream, and the
    [closed], [err] and [rec] fields. *)
Definition same_frame (s s' : Scanner) : Prop :=
  rd_err (s_r s') = rd_err (s_r s) ∧ s_closed s' = s_closed s ∧
  s_err s' = s_err s ∧ s_rec s' = s_rec s.

(** [moved s s' rest dl]: from [s] the scanner got to [s'], with [rest] left
    to read and the line counter advanced by [dl]. *)
Definition moved (s s' : Scanner) (rest : list rune) (dl : Z) : Prop :=
  pending s' = rest ∧ same_frame s s' ∧ s_line s' = s_line s + dl.

(** The cases of [readRune], by the unread input. *)
Inductive readRune_case (s : Scanner) : rune → option error → Scanner → Prop :=
| rr_end : pending s = [] ∨ pending s = [ch_CR] →
    readRune_case s 0 (Some (rd_err (s_r s)))
      (set_r s (mkReader [] None (rd_err (s_r s))))
| rr_plain c t : pending s = c :: t → c ≠ ch_CR →
    readRune_case s c None (set_r s (mkReader t (Some c) (rd_err (s_r s))))
| rr_CRLF t : pending s = ch_CR :: ch_LF :: t →
    readRune_case s ch_LF None (set_r s (mkReader t (Some ch_LF) (rd_err (s_r s))))
| rr_CR c t : pending s = ch_CR :: c :: t → c ≠ ch_LF →
    readRune_case s ch_CR None (set_r s (mkReader (c :: t) None (rd_err (s_r s)))).

(** What [parseRecord] does with one header line, once trimmed: [None] when
    the line opens no record. *)
Definition header_of (line : list rune) : option Record_ :=
  match strings_TrimSpace line with
  | [] => None
  | c :: line' =>
      if c =? ch_SHARP then None
      else if negb (c =? ch_AT) then None
      else
        let i := strings_Index line' ch_EQUAL in
        if i <? 1 then None
        else NewRecord (slice_to line' i) (slice_from line' (i + 1))
  end.

(** One turn of the loop of [quoteValue]. *)
Definition quoteValue_body (first space line : bool) (s : Scanner)
    (loop : bool → bool → bool → Scanner → list rune * option error * Scanner)
  : list rune * option error * Scanner :=
  let '(r1, err, s) := readRune s in
  match err with
  | Some e =>
      let v := s_b s in
      if 0 <? Z.of_nat (length v) then (v, None, s) else ([], Some e, s)
  | None =>
      if r1 =? ch_LF then
        let '(space, line) := if negb first then (false, true) else (space, line) in
        loop first space line (incr_line s)
      else if unicode_IsSpace r1 then
        let space := if negb first && negb line then true else space in
        loop first space line s
      else if r1 =? ch_QUOTE then (s_b s, None, s)
      else
        let '(esc, s) :=
          if r1 =? ch_BACKSLASH then
            let '(r2, err2, s) := readRune s in
            match err2 with
            | Some _ => (None, s)
            | None => (Some r2, s)
            end
          else (Some r1, s) in
        match esc with
        | None => loop first space line s
        | Some r1 =>
            let '(space, s) :=
              if line then (false, b_WriteRune ch_LF s) else (space, s) in
            let s := if space then b_WriteRune ch_SP s else s in
            loop false false false (b_WriteRune r1 s)
        end
  end.

(** What [quoteValue] writes before a rune of the value: the pending
    paragraph break or the pending space. *)
Definition pending_sep (space line : bool) : list rune :=
  if line then [ch_LF] else if space then [ch_SP] else [].

(** The flags of [writeQuoted]: nothing is pending before the first rune
    is written, and a paragraph break cancels a pending space. *)
Definition flags_ok (first space line : bool) : Prop :=
  (first = true → space = false ∧ line = false) ∧ (space = true → line = false).

(** [unterminated q]: the text [q] that follows an opening quotation mark
    has no closing one (a quotation mark after a backslash does not close). *)
Fixpoint unterminated (q : list rune) : bool :=
  match q with
  | [] => true
  | c :: t =>
      if c =? ch_QUOTE then false
      else if c =? ch_BACKSLASH then
        match t with
        | [] => true
        | _ :: t' => unterminated t'
        end
      else unterminated t
  end.

(** What [writeQuoted] writes for one rune that is not white space. *)
Definition escaped (c : rune) : list rune :=
  if c =? ch_QUOTE then [ch_BACKSLASH; ch_QUOTE]
  else if c =? ch_BACKSLASH then [ch_BACKSLASH; ch_BACKSLASH]
  else [c].

(** The text [writeQuoted] puts between the quotation marks, from a given
    state of its three flags. *)
Definition quoted_text (v : list rune) (first space line : bool) : list rune :=
  w_out (writeQuoted_loop v first space line NewWriter).2.

(** What is read back from that text: the value with every run of white
    space between two words turned into one newline, when the run has a
    newline, and into one space otherwise (the flags are those of
    [writeQuoted] and [quoteValue]). *)
Fixpoint collapse_loop (v : list rune) (first space line : bool) : list rune :=
  match v with
  | [] => []
  | c :: v =>
      if c =? ch_LF then
        let '(space, line) := if negb first then (false, true) else (space, line) in
        collapse_loop v first space line
      else if unicode_IsSpace c then
        let space := if negb first && negb line then true else space in
        collapse_loop v first space line
      else
        (if line then [ch_LF] else if space then [ch_SP] else [])
          ++ c :: collapse_loop v false false false
  end.

Definition collapse (v : list rune) : list rune := collapse_loop v true false false.

(** What comes back for a value: itself when it was written on one line,
    its collapsed form when it was written between quotation marks. *)
Definition read_back (v : list rune) : list rune :=
  if strings_Contains v ch_LF then collapse v else v.

(** The text of one field and of a list of fields. *)
Definition field_text (key value : list rune) : list rune :=
  w_out (writeField key value NewWriter).2.

Definition fields_text (keys : list (list rune)) (rec : Record_) : list rune :=
  foldr (λ key text,
           (if bool_decide (Record_Get key rec = []) then []
            else field_text key (Record_Get key rec)) ++ text) [] keys.

(** What [parseKey] adds to its buffer for the rest of a key: the runes that
    are not white space, and a minus sign before a rune that white space
    precedes ([space] is the flag of the loop). *)
Fixpoint key_tail (space : bool) (k : list rune) : list rune :=
  match k with
  | [] => []
  | c :: k =>
      if unicode_IsSpace c then key_tail true k
      else (if space then [ch_MINUS] else []) ++ c :: key_tail false k
  end.

(** A rune of a line of text: neither a newline nor a carriage return. *)
Definition inline (c : rune) : Prop := c ≠ ch_LF ∧ c ≠ ch_CR.

(** A record that the text format carries as it stands: type and keys in
    normal form, the words of the ID one space apart, at least one field,
    and nothing in the type, the keys and the values that the scanner reads
    as a delimiter. *)
Definition portable (rec : Record_) : Prop :=
  normal_name (rec_typ rec) ∧ (ch_EQUAL ∉ rec_typ rec) ∧
  rec_id rec ≠ [] ∧
  strings_Join (strings_Fields (rec_id rec)) [ch_SP] = rec_id rec ∧
  rec_data rec ≠ ∅ ∧
  ∀ k v, rec_data rec !! k = Some v → scannable_key k ∧ scannable_value v.

(** The record that is read back for a record written: every value as it is
    read back. *)
Definition read_back_record (rec : Record_) : Record_ :=
  mkRecord (rec_id rec) (rec_typ rec) (read_back <$> rec_data rec).

(** The text [Write] writes for a record. *)
Definition record_text (rec : Record_) : list rune :=
  w_out (Writer_Write rec NewWriter).2.

(** [Write] called for the records of a list, one after the other. *)
Definition Write_each (recs : list Record_) (w : Writer) : Writer :=
  foldl (λ w rec, (Writer_Write rec w).2) w recs.

(** [Scan_yields s recs s']: the calls [Scan], [Record], [Scan], [Record], ...
    on [s] return true and the records of [recs], one after the other, and
    then [Scan] returns false and leaves the scanner [s']. *)
Fixpoint Scan_yields (s : Scanner) (recs : list Record_) (s' : Scanner) : Prop :=
  match recs with
  | [] => Scanner_Scan s = (false, s')
  | rec :: recs =>
      ∃ s1 s2, Scanner_Scan s = (true, s1) ∧ Scanner_Record s1 = Some (rec, s2) ∧
               Scan_yields s2 recs s'
  end.

(** A text with every newline written as a carriage return and a newline. *)
Definition crlf (l : list rune) : list rune :=
  flat_map (λ c, if c =? ch_LF then [ch_CR; ch_LF] else [c]) l.

(** [crlf_of s1 s2]: the scanner [s2] is the scanner [s1] with the line ends
    of its unread input written \r\n (the input of [s1] has no carriage
    return). *)
Definition crlf_of (s1 s2 : Scanner) : Prop :=
  s_closed s2 = s_closed s1 ∧ s_err s2 = s_err s1 ∧ s_line s2 = s_line s1 ∧
  s_rec s2 = s_rec s1 ∧ s_b s2 = s_b s1 ∧
  rd_err (s_r s2) = rd_err (s_r s1) ∧ rd_last (s_r s2) = rd_last (s_r s1) ∧
  rd_buf (s_r s2) = crlf (rd_buf (s_r s1)) ∧ (ch_CR ∉ rd_buf (s_r s1)).



(** ** Sample data *)

(** A record of the solar system list, with a one-line value and a value
    of two lines. *)
Definition sample_record : Record_ :=
  mkRecord (runes "Sun") (runes "star")
    (<[runes "descrip" := runes "hot" ++ [ch_LF] ++ runes "plasma"]>
       (<[runes "mass" := runes "333000"]> ∅)).

(** A header without fields, then a record with one field. *)
Definition sample_two_headers : list rune :=
  runes "@star=Sun" ++ [ch_LF] ++ runes "@moon=Titan" ++ [ch_LF; ch_TAB]
    ++ runes "parent: Saturn" ++ [ch_LF].

(** A key that gets a value, then an empty value. *)
Definition sample_key_twice : list rune :=
  runes "@moon=Titan" ++ [ch_LF] ++ runes "parent: Saturn" ++ [ch_LF]
    ++ runes "parent:" ++ [ch_LF] ++ runes "mass: 0.0225" ++ [ch_LF].

(** A quoted value that the end of the stream cuts. *)
Definition sample_cut_quote : list rune :=
  [ch_TAB] ++ runes "descrip: " ++ [ch_QUOTE] ++ runes "Titan is".


(** Records that [NewRecord] and [Set] build and the text format cannot
    carry: an equal sign in the type, a colon in a key, a value that begins
    with a quotation mark, a multi-line value with two spaces in a row. *)
Definition sample_odd_type : Record_ :=
  mkRecord (runes "Sun") (runes "a=b") (<[runes "mass" := runes "333000"]> ∅).

Definition sample_odd_key : Record_ :=
  mkRecord (runes "Sun") (runes "star") (<[runes "a:b" := runes "333000"]> ∅).

Definition sample_odd_value : Record_ :=
  mkRecord (runes "Sun") (runes "star")
    (<[runes "name" := [ch_QUOTE] ++ runes "Sol"]> ∅).

Definition sample_wide_value : Record_ :=
  mkRecord (runes "Sun") (runes "star")
    (<[runes "descrip" := runes "hot  plasma" ++ [ch_LF] ++ runes "sphere"]> ∅).

(** Write a record, scan the text written, and take the record prepared. *)
Definition write_then_scan (rec : Record_) : bool * option Record_ :=
  let w := (Writer_Write rec NewWriter).2 in
  let res := Scanner_Scan (NewScanner (w_out w) io_EOF) in
  (res.1, s_rec res.2).

(** Two header-like lines, one without type and one without ID. *)
Definition sample_bad_headers : list rune :=
  runes "@=onlyid" ++ [ch_LF] ++ runes "@type=" ++ [ch_LF].

(** A second record, and a file of two records. *)
Definition sample_moon : Record_ :=
  mkRecord (runes "Titan") (runes "moon") (<[runes "parent" := runes "Saturn"]> ∅).

Definition sample_file : list Record_ := [sample_record; sample_moon].

(** A comment where a field could stand, then a field. *)
Definition sample_comment : list rune := runes " parent: unknown".

Definition sample_after_comment : list rune := runes "mass: 0.0225" ++ [ch_LF].

(** A header line with blanks around the type and the ID, an equal sign in
    the ID and a carriage return before the newline. *)
Definition sample_header_type : list rune := runes " Star ".

Definition sample_header_ID : list rune := runes " The = Sun " ++ [ch_CR].
(** * Properties *)

(** ** Strings *)

Lemma trimLeft_all_space (s : list rune) :
  forallb unicode_IsSpace s = true → trimLeft s = [].
Proof.
  induction s as [|c s IH]; simpl; [done|].
  destruct (unicode_IsSpace c); simpl; [exact IH | done].
Qed.

Lemma TrimSpace_all_space (s : list rune) :
  forallb unicode_IsSpace s = true → strings_TrimSpace s = [].
Proof.
  intros H. unfold strings_TrimSpace. by rewrite (trimLeft_all_space s H).
Qed.

(** ** Record *)

Lemma NewRecord_fields_ok typ ID r : NewRecord typ ID = Some r → fields_ok r.
Proof.
  unfold NewRecord. repeat case_bool_decide; try done.
  intros [= <-] k v. simpl. by rewrite lookup_empty.
Qed.

Lemma Record_Set_fields_ok key value r :
  fields_ok r → fields_ok (Record_Set key value r).
Proof.
  intros Hr. unfold Record_Set. repeat case_bool_decide; [done| |];
    intros k v; simpl.
  - rewrite lookup_delete. case_decide; [done | apply Hr].
  - rewrite lookup_insert. case_decide; [|apply Hr].
    intros [= <-]. by subst.
Qed.

Lemma Record_Sets_fields_ok ops r : fields_ok r → fields_ok (Record_Sets ops r).
Proof.
  revert r. induction ops as [|[k v] ops IH]; intros r Hr; [done|].
  apply IH. by apply Record_Set_fields_ok.
Qed.

Lemma elem_of_Record_Keys k r :
  k ∈ Record_Keys r ↔ is_Some (rec_data r !! k).
Proof.
  unfold Record_Keys. case_bool_decide as Hsz.
  - apply map_size_empty_iff in Hsz. rewrite Hsz, lookup_empty.
    split; [by intros ?%elem_of_nil | by intros [? ?]].
  - unfold sort_Strings. rewrite merge_sort_Permutation.
    rewrite list_elem_of_fmap. split.
    + intros [[k' v] [-> Hin%elem_of_map_to_list]]. by exists v.
    + intros [v Hv]. exists (k, v). split; [done|]. by apply elem_of_map_to_list.
Qed.

Lemma Record_Get_lookup key r :
  Record_Get key r = default [] (rec_data r !! normKey key).
Proof. done. Qed.

Lemma Record_Set_blank key value r :
  fields_ok r → forallb unicode_IsSpace value = true →
  rec_data (Record_Set key value r) !! normKey key = None.
Proof.
  intros Hr Hv. unfold Record_Set. fold (normKey key).
  rewrite (TrimSpace_all_space value Hv).
  case_bool_decide as Hk; simpl.
  - rewrite Hk. destruct (rec_data r !! []) as [v|] eqn:E; [|done].
    by destruct (Hr _ _ E).
  - apply lookup_delete_eq.
Qed.

(** C8.  Whatever [Set] calls a record made by [NewRecord] receives, none of
    its fields holds an empty string; and a [Set] whose value is empty or all
    white space removes the (normalised) key: [Get] of the key then returns
    the empty string and [Keys] does not list it. *)
Theorem empty_field_invariant (typ ID : list rune) (r0 : Record_)
    (ops : list (list rune * list rune)) (key value : list rune) :
  NewRecord typ ID = Some r0 →
  forallb unicode_IsSpace value = true →
  let r := Record_Sets ops r0 in
  (∀ k v, rec_data r !! k = Some v → v ≠ []) ∧
  Record_Get key (Record_Set key value r) = [] ∧
  (normKey key ∉ Record_Keys (Record_Set key value r)) ∧
  (∀ k v, rec_data (Record_Set key value r) !! k = Some v → v ≠ []).
Proof.
  intros Hnew Hv r.
  assert (Hr : fields_ok r).
  { apply Record_Sets_fields_ok. by eapply NewRecord_fields_ok. }
  split_and!.
  - intros k v Hkv. by destruct (Hr _ _ Hkv).
  - by rewrite Record_Get_lookup, Record_Set_blank.
  - rewrite elem_of_Record_Keys, Record_Set_blank; [|done..]. by intros [? ?].
  - intros k v Hkv.
    by destruct (Record_Set_fields_ok key value r Hr _ _ Hkv).
Qed.

(** ** Scanner: frame and progress of every call *)

Lemma same_frame_refl s : same_frame s s.
Proof. by repeat split. Qed.

Lemma same_frame_trans s1 s2 s3 :
  same_frame s1 s2 → same_frame s2 s3 → same_frame s1 s3.
Proof. unfold same_frame. intros (?&?&?&?) (?&?&?&?). repeat split; congruence. Qed.

Lemma same_frame_incr_line s : same_frame s (incr_line s).
Proof. by repeat split. Qed.

Lemma same_frame_b_WriteRune c s : same_frame s (b_WriteRune c s).
Proof. by repeat split. Qed.

Lemma same_frame_b_Reset s : same_frame s (b_Reset s).
Proof. by repeat split. Qed.

Lemma same_frame_r_UnreadRune s : same_frame s (r_UnreadRune s).
Proof.
  unfold same_frame, r_UnreadRune, bufio_UnreadRune. simpl.
  by destruct (rd_last (s_r s)).
Qed.

Create HintDb frame.
#[local] Hint Resolve same_frame_refl same_frame_incr_line same_frame_b_WriteRune
  same_frame_b_Reset same_frame_r_UnreadRune : frame.

(** A step of the reader: the state after [readRune] read [n] runes. *)
Lemma readRune_nil s :
  pending s = [] →
  readRune s = (0, Some (rd_err (s_r s)), set_r s (mkReader [] None (rd_err (s_r s)))).
Proof. unfold pending, readRune, bufio_ReadRune. by intros ->. Qed.

Lemma readRune_plain s c t :
  pending s = c :: t → c ≠ ch_CR →
  readRune s = (c, None, set_r s (mkReader t (Some c) (rd_err (s_r s)))).
Proof.
  unfold pending, readRune, bufio_ReadRune. intros -> Hc.
  by destruct (Z.eqb_spec c ch_CR).
Qed.

Lemma readRune_CRLF s t :
  pending s = ch_CR :: ch_LF :: t →
  readRune s = (ch_LF, None, set_r s (mkReader t (Some ch_LF) (rd_err (s_r s)))).
Proof. unfold pending, readRune, bufio_ReadRune. by intros ->. Qed.

Lemma readRune_CR s c t :
  pending s = ch_CR :: c :: t → c ≠ ch_LF →
  readRune s = (ch_CR, None, set_r s (mkReader (c :: t) None (rd_err (s_r s)))).
Proof.
  unfold pending, readRune, bufio_ReadRune. intros -> Hc. simpl.
  by destruct (Z.eqb_spec c ch_LF).
Qed.

Lemma readRune_CR_end s :
  pending s = [ch_CR] →
  readRune s = (0, Some (rd_err (s_r s)), set_r s (mkReader [] None (rd_err (s_r s)))).
Proof. unfold pending, readRune, bufio_ReadRune. by intros ->. Qed.

Lemma readRune_cases s r1 err s' :
  readRune s = (r1, err, s') → readRune_case s r1 err s'.
Proof.
  destruct (pending s) as [|c t] eqn:E.
  { rewrite (readRune_nil s E). intros [= <- <- <-]. constructor. by left. }
  destruct (decide (c = ch_CR)) as [->|Hc].
  2:{ rewrite (readRune_plain s c t E Hc). intros [= <- <- <-].
      by econstructor 2. }
  destruct t as [|c' t].
  { rewrite (readRune_CR_end s E). intros [= <- <- <-]. constructor. by right. }
  destruct (decide (c' = ch_LF)) as [->|Hc'].
  - rewrite (readRune_CRLF s t E). intros [= <- <- <-]. by econstructor 3.
  - rewrite (readRune_CR s c' t E Hc'). intros [= <- <- <-]. by econstructor 4.
Qed.

Lemma readRune_inv s r1 err s' :
  readRune s = (r1, err, s') →
  same_frame s s' ∧ s_line s' = s_line s ∧ s_b s' = s_b s ∧
  match err with
  | None => (length (pending s') < length (pending s))%nat
  | Some e => e = rd_err (s_r s) ∧ pending s' = []
  end.
Proof.
  intros H%readRune_cases.
  destruct H as [H|c t H Hc|t H|c t H Hc]; (split; [by repeat split|]);
    (split; [done|]); (split; [done|]); try done;
    unfold pending in *; simpl; rewrite H; simpl; lia.
Qed.

Lemma readRune_lt s r1 s' :
  readRune s = (r1, None, s') → (length (pending s') < length (pending s))%nat.
Proof. intros H. by destruct (readRune_inv _ _ _ _ H) as (_&_&_&?). Qed.

Lemma readRune_frame s r1 err s' : readRune s = (r1, err, s') → same_frame s s'.
Proof. intros H. by destruct (readRune_inv _ _ _ _ H) as (?&_). Qed.

Lemma readRune_le s r1 err s' :
  readRune s = (r1, err, s') → (length (pending s') ≤ length (pending s))%nat.
Proof.
  intros H. destruct (readRune_inv _ _ _ _ H) as (_&_&_&Hl).
  destruct err as [e|]; [|lia]. destruct Hl as [_ ->]. simpl. lia.
Qed.

Lemma split_line_spec (s : list rune) :
  match split_line s with
  | Some (l, rest) => s = l ++ rest ∧ (length rest < length s)%nat
                      ∧ ∃ l', l = l' ++ [ch_LF] ∧ ch_LF ∉ l'
  | None => ch_LF ∉ s
  end.
Proof.
  induction s as [|c s IH]; simpl; [by intros ?%elem_of_nil|].
  destruct (Z.eqb_spec c ch_LF) as [->|Hc].
  - split; [done|]. split; [simpl; lia|]. exists []. split; [done|].
    by intros ?%elem_of_nil.
  - destruct (split_line s) as [[l rest]|].
    + destruct IH as (-> & Hlen & l' & -> & Hl'). split; [done|].
      split; [simpl; lia|]. exists (c :: l'). split; [done|].
      intros [?|?]%elem_of_cons; [congruence | done].
    + intros [?|?]%elem_of_cons; [congruence | done].
Qed.

Lemma split_line_app (l rest : list rune) :
  ch_LF ∉ l → split_line (l ++ ch_LF :: rest) = Some (l ++ [ch_LF], rest).
Proof.
  induction l as [|c l IH]; intros Hl; simpl; [done|].
  destruct (Z.eqb_spec c ch_LF) as [->|Hc].
  - exfalso. apply Hl. by left.
  - rewrite IH; [done|]. intros ?. apply Hl. by right.
Qed.

Lemma bufio_ReadString_inv rd l err rd' :
  bufio_ReadString rd = (l, err, rd') →
  rd_err rd' = rd_err rd ∧
  match err with
  | None => rd_buf rd = l ++ rd_buf rd' ∧ (length (rd_buf rd') < length (rd_buf rd))%nat
            ∧ ∃ l', l = l' ++ [ch_LF] ∧ ch_LF ∉ l'
  | Some e => e = rd_err rd ∧ l = rd_buf rd ∧ rd_buf rd' = [] ∧ ch_LF ∉ l
  end.
Proof.
  unfold bufio_ReadString. pose proof (split_line_spec (rd_buf rd)) as Hs.
  destruct (split_line (rd_buf rd)) as [[l0 rest]|]; intros [= <- <- <-]; simpl.
  - by split.
  - by split.
Qed.
(** ** Scanner: the loops do not depend on their fuel *)

Lemma pending_r_UnreadRune_le s :
  (length (pending (r_UnreadRune s)) ≤ S (length (pending s)))%nat.
Proof.
  unfold pending, r_UnreadRune, bufio_UnreadRune. simpl.
  destruct (rd_last (s_r s)); simpl; lia.
Qed.

Ltac read_step E :=
  match goal with
  | |- context [readRune ?s] =>
      let r1 := fresh "r1" in let err := fresh "err" in let s1 := fresh "s1" in
      destruct (readRune s) as [[r1 err] s1] eqn:E
  end.

Ltac frame_trans :=
  repeat match goal with
  | H : same_frame ?a ?b |- same_frame ?a _ =>
      apply (same_frame_trans _ _ _ H); clear H
  | |- same_frame ?a ?a => apply same_frame_refl
  | |- same_frame _ _ => by auto with frame
  end.

(** *** skip *)

Lemma skip_loop_inv n delim s err s' :
  skip_loop n delim s = (err, s') →
  same_frame s s' ∧ (length (pending s') ≤ length (pending s))%nat ∧
  s_line s' = s_line s.
Proof.
  revert s. induction n as [|n IH]; intros s; simpl.
  { intros [= <- <-]. split; [apply same_frame_refl|]. by split. }
  read_step E. destruct (readRune_inv _ _ _ _ E) as (Hf & Hl & _ & _).
  pose proof (readRune_le _ _ _ _ E) as Hle.
  destruct err0 as [e|].
  { intros [= <- <-]. by split. }
  destruct (r1 =? delim).
  { intros [= <- <-]. by split. }
  intros (Hf' & Hle' & Hl')%IH. split; [by eapply same_frame_trans|].
  split; [lia | congruence].
Qed.

Lemma skip_loop_fuel n m delim s :
  (length (pending s) < n)%nat → (length (pending s) < m)%nat →
  skip_loop n delim s = skip_loop m delim s.
Proof.
  revert m s. induction n as [|n IH]; intros [|m] s Hn Hm; try lia. simpl.
  read_step E. destruct err as [e|]; [done|].
  apply readRune_lt in E. destruct (r1 =? delim); [done|]. apply IH; lia.
Qed.

Lemma skip_unfold delim s :
  skip delim s =
  let '(r1, err, s1) := readRune s in
  match err with
  | Some e => (Some e, s1)
  | None => if r1 =? delim then (None, s1) else skip delim s1
  end.
Proof.
  unfold skip at 1, fuel_of. simpl. read_step E. destruct err as [e|]; [done|].
  apply readRune_lt in E. destruct (r1 =? delim); [done|].
  apply skip_loop_fuel; unfold fuel_of; lia.
Qed.

Lemma skip_inv delim s err s' :
  skip delim s = (err, s') →
  same_frame s s' ∧ (length (pending s') ≤ length (pending s))%nat ∧
  s_line s' = s_line s.
Proof. apply skip_loop_inv. Qed.

(** *** parseKey *)

Lemma parseKey_seek_inv n s res s' :
  parseKey_seek n s = (res, s') →
  same_frame s s' ∧ (length (pending s') ≤ length (pending s))%nat ∧
  match res with
  | inl (key, delim, None) => key = [] ∧ delim = ch_AT
  | _ => True
  end.
Proof.
  revert s. induction n as [|n IH]; intros s; simpl.
  { intros [= <- <-]. split; [apply same_frame_refl|]. by split. }
  read_step E. destruct (readRune_inv _ _ _ _ E) as (Hf & _ & _ & Hlt).
  pose proof (readRune_le _ _ _ _ E) as Hle.
  destruct err as [e|].
  { intros [= <- <-]. by split. }
  destruct (r1 =? ch_LF).
  { intros (Hf' & Hle' & Hr)%IH. split; [|split; [unfold pending in *; simpl in *; lia | done]].
    eapply same_frame_trans; [exact Hf|]. by eapply same_frame_trans. }
  destruct (unicode_IsSpace r1).
  { intros (Hf' & Hle' & Hr)%IH. split; [by eapply same_frame_trans|].
    split; [lia | done]. }
  destruct (r1 =? ch_SHARP).
  { destruct (skip ch_LF s1) as [e2 s2] eqn:E2.
    destruct (skip_inv _ _ _ _ E2) as (Hf2 & Hle2 & _).
    intros (Hf' & Hle' & Hr)%IH.
    split; [|split; [unfold pending in *; simpl in *; lia | done]].
    eapply same_frame_trans; [exact Hf|]. eapply same_frame_trans; [exact Hf2|].
    by eapply same_frame_trans. }
  pose proof (pending_r_UnreadRune_le s1) as Hu.
  assert (same_frame s (r_UnreadRune s1)) as Hfu.
  { eapply same_frame_trans; [exact Hf|]. apply same_frame_r_UnreadRune. }
  destruct (r1 =? ch_AT); intros [= <- <-]; (split; [done|]); (split; [lia|done]).
Qed.

Lemma parseKey_seek_fuel n m s :
  (length (pending s) < n)%nat → (length (pending s) < m)%nat →
  parseKey_seek n s = parseKey_seek m s.
Proof.
  revert m s. induction n as [|n IH]; intros [|m] s Hn Hm; try lia. simpl.
  read_step E. destruct err as [e|]; [done|].
  apply readRune_lt in E.
  destruct (r1 =? ch_LF); [apply IH; unfold pending in *; simpl; lia|].
  destruct (unicode_IsSpace r1); [apply IH; lia|].
  destruct (r1 =? ch_SHARP); [|done].
  destruct (skip ch_LF s1) as [e2 s2] eqn:E2.
  destruct (skip_inv _ _ _ _ E2) as (_ & Hle2 & _).
  apply IH; unfold pending in *; simpl; lia.
Qed.

Lemma parseKey_seek_unfold s :
  parseKey_seek (fuel_of s) s =
  let '(r1, err, s) := readRune s in
  match err with
  | Some e => (inl ([], 0, Some e), s)
  | None =>
      if r1 =? ch_LF then parseKey_seek (fuel_of (incr_line s)) (incr_line s)
      else if unicode_IsSpace r1 then parseKey_seek (fuel_of s) s
      else if r1 =? ch_SHARP then
        let '(_, s) := skip ch_LF s in
        parseKey_seek (fuel_of (incr_line s)) (incr_line s)
      else
        let s := r_UnreadRune s in
        if r1 =? ch_AT then (inl ([], ch_AT, None), s) else (inr tt, s)
  end.
Proof.
  unfold fuel_of at 1. cbn [parseKey_seek]. read_step E. destruct err as [e|]; [done|].
  apply readRune_lt in E.
  destruct (r1 =? ch_LF);
    [apply parseKey_seek_fuel; unfold fuel_of, pending in *; simpl; lia|].
  destruct (unicode_IsSpace r1); [apply parseKey_seek_fuel; unfold fuel_of; lia|].
  destruct (r1 =? ch_SHARP); [|done].
  destruct (skip ch_LF s1) as [e2 s2] eqn:E2.
  destruct (skip_inv _ _ _ _ E2) as (_ & Hle2 & _).
  apply parseKey_seek_fuel; unfold fuel_of, pending in *; simpl; lia.
Qed.

Lemma parseKey_read_inv n space s key delim err s' :
  parseKey_read n space s = (key, delim, err, s') →
  same_frame s s' ∧ (length (pending s') ≤ length (pending s))%nat ∧
  (err = None → (length (pending s') < length (pending s))%nat ∧
                (delim = ch_LF ∨ delim = ch_COLON)).
Proof.
  revert space s. induction n as [|n IH]; intros space s; simpl.
  { intros [= <- <- <- <-]. split; [apply same_frame_refl|]. by split. }
  read_step E. destruct (readRune_inv _ _ _ _ E) as (Hf & _ & _ & Hlt).
  pose proof (readRune_le _ _ _ _ E) as Hle.
  destruct err0 as [e|].
  { intros [= <- <- <- <-]. by split. }
  destruct (r1 =? ch_LF).
  { intros [= <- <- <- <-]. split; [by eapply same_frame_trans; eauto with frame|].
    unfold pending in *; simpl in *. split; [lia|]. intros _. split; [lia|by left]. }
  destruct (unicode_IsSpace r1).
  { intros (Hf' & Hle' & Hr)%IH. split; [by eapply same_frame_trans|].
    split; [lia|]. intros He. destruct (Hr He). split; [lia|done]. }
  destruct (r1 =? ch_COLON).
  { intros [= <- <- <- <-]. split; [done|]. split; [lia|]. intros _.
    split; [lia | by right]. }
  intros (Hf' & Hle' & Hr)%IH.
  assert (pending (b_WriteRune r1 (if space then b_WriteRune ch_MINUS s1 else s1))
          = pending s1) as Hp by by destruct space.
  rewrite Hp in Hle', Hr.
  split.
  { eapply same_frame_trans; [exact Hf|]. eapply same_frame_trans; [|exact Hf'].
    destruct space; by repeat split. }
  split; [lia|]. intros He. destruct (Hr He). split; [lia|done].
Qed.

Lemma parseKey_read_fuel n m space s :
  (length (pending s) < n)%nat → (length (pending s) < m)%nat →
  parseKey_read n space s = parseKey_read m space s.
Proof.
  revert m space s. induction n as [|n IH]; intros [|m] space s Hn Hm; try lia.
  simpl. read_step E. destruct err as [e|]; [done|].
  apply readRune_lt in E.
  destruct (r1 =? ch_LF); [done|].
  destruct (unicode_IsSpace r1); [apply IH; lia|].
  destruct (r1 =? ch_COLON); [done|].
  apply IH; destruct space; unfold pending in *; simpl; lia.
Qed.

Lemma parseKey_read_unfold space s :
  parseKey_read (fuel_of s) space s =
  let '(r1, err, s) := readRune s in
  match err with
  | Some e => ([], 0, Some e, s)
  | None =>
      if r1 =? ch_LF then ([], ch_LF, None, incr_line s)
      else if unicode_IsSpace r1 then parseKey_read (fuel_of s) true s
      else if r1 =? ch_COLON then (s_b s, ch_COLON, None, s)
      else
        let s := if space then b_WriteRune ch_MINUS s else s in
        let s := b_WriteRune r1 s in
        parseKey_read (fuel_of s) false s
  end.
Proof.
  unfold fuel_of at 1. cbn [parseKey_read]. read_step E. destruct err as [e|]; [done|].
  apply readRune_lt in E.
  destruct (r1 =? ch_LF); [done|].
  destruct (unicode_IsSpace r1); [apply parseKey_read_fuel; unfold fuel_of; lia|].
  destruct (r1 =? ch_COLON); [done|].
  apply parseKey_read_fuel; destruct space; unfold fuel_of, pending in *; simpl; lia.
Qed.

Lemma parseKey_inv s key delim err s' :
  parseKey s = (key, delim, err, s') →
  same_frame s s' ∧ (length (pending s') ≤ length (pending s))%nat ∧
  (err = None → delim ≠ ch_AT →
   (length (pending s') < length (pending s))%nat).
Proof.
  unfold parseKey.
  destruct (parseKey_seek (fuel_of s) s) as [[[[k d] e]|[]] s1] eqn:E1;
    destruct (parseKey_seek_inv _ _ _ _ E1) as (Hf & Hle & Hr).
  - intros [= <- <- <- <-]. split; [done|]. split; [done|].
    intros -> Hd. by destruct Hr.
  - intros (Hf' & Hle' & Hr')%parseKey_read_inv.
    split; [eapply same_frame_trans; [exact Hf|];
            eapply same_frame_trans; [apply same_frame_b_Reset | exact Hf']|].
    unfold pending in *; simpl in *. split; [lia|].
    intros He _. destruct (Hr' He). lia.
Qed.
(** *** quoteValue *)

Lemma quoteValue_loop_inv n first space line s v err s' :
  quoteValue_loop n first space line s = (v, err, s') →
  same_frame s s' ∧ (length (pending s') ≤ length (pending s))%nat ∧
  match err with
  | Some _ => v = []
  | None => v = s_b s'
  end.
Proof.
  revert first space line s. induction n as [|n IH]; intros first space line s; simpl.
  { intros [= <- <- <-]. split; [apply same_frame_refl|]. by split. }
  read_step E. destruct (readRune_inv _ _ _ _ E) as (Hf & _ & _ & _).
  pose proof (readRune_le _ _ _ _ E) as Hle.
  destruct err0 as [e|].
  { destruct (0 <? Z.of_nat (length (s_b s1))); intros [= <- <- <-]; by split. }
  destruct (r1 =? ch_LF).
  { destruct (negb first); intros (Hf' & Hle' & Hr)%IH;
      (split; [eapply same_frame_trans; [exact Hf|];
               by eapply same_frame_trans; [apply same_frame_incr_line|]|]);
      unfold pending in *; simpl in *; (split; [lia|done]). }
  destruct (unicode_IsSpace r1).
  { intros (Hf' & Hle' & Hr)%IH. split; [by eapply same_frame_trans|].
    split; [lia|done]. }
  destruct (r1 =? ch_QUOTE).
  { intros [= <- <- <-]. by split. }
  destruct (r1 =? ch_BACKSLASH).
  - destruct (readRune s1) as [[r2 err2] s2] eqn:E2.
    destruct (readRune_inv _ _ _ _ E2) as (Hf2 & _ & _ & _).
    pose proof (readRune_le _ _ _ _ E2) as Hle2.
    destruct err2 as [e2|].
    + intros (Hf' & Hle' & Hr)%IH.
      split; [eapply same_frame_trans; [exact Hf|]; by eapply same_frame_trans|].
      split; [lia|done].
    + destruct line, space; intros (Hf' & Hle' & Hr)%IH;
        (split; [eapply same_frame_trans; [exact Hf|];
                 eapply same_frame_trans; [exact Hf2|];
                 eapply same_frame_trans; [|exact Hf']; by repeat split|]);
        unfold pending in *; simpl in *; (split; [lia|done]).
  - destruct line, space; intros (Hf' & Hle' & Hr)%IH;
      (split; [eapply same_frame_trans; [exact Hf|];
               eapply same_frame_trans; [|exact Hf']; by repeat split|]);
      unfold pending in *; simpl in *; (split; [lia|done]).
Qed.

Lemma quoteValue_loop_fuel n m first space line s :
  (length (pending s) < n)%nat → (length (pending s) < m)%nat →
  quoteValue_loop n first space line s = quoteValue_loop m first space line s.
Proof.
  revert m first space line s.
  induction n as [|n IH]; intros [|m] first space line s Hn Hm; try lia.
  simpl. read_step E. destruct err as [e|]; [done|].
  apply readRune_lt in E.
  destruct (r1 =? ch_LF).
  { destruct (negb first); apply IH; unfold pending in *; simpl; lia. }
  destruct (unicode_IsSpace r1); [apply IH; lia|].
  destruct (r1 =? ch_QUOTE); [done|].
  destruct (r1 =? ch_BACKSLASH).
  - destruct (readRune s1) as [[r2 err2] s2] eqn:E2.
    pose proof (readRune_le _ _ _ _ E2) as Hle2.
    destruct err2 as [e2|]; [apply IH; lia|].
    destruct line, space; apply IH; unfold pending in *; simpl in *; lia.
  - destruct line, space; apply IH; unfold pending in *; simpl in *; lia.
Qed.

Lemma quoteValue_loop_unfold first space line s :
  quoteValue_loop (fuel_of s) first space line s =
  quoteValue_body first space line s
    (λ first space line s, quoteValue_loop (fuel_of s) first space line s).
Proof.
  unfold fuel_of at 1, quoteValue_body. cbn [quoteValue_loop].
  read_step E. destruct err as [e|]; [done|].
  apply readRune_lt in E.
  destruct (r1 =? ch_LF).
  { destruct (negb first); apply quoteValue_loop_fuel;
      unfold fuel_of, pending in *; simpl; lia. }
  destruct (unicode_IsSpace r1); [apply quoteValue_loop_fuel; unfold fuel_of; lia|].
  destruct (r1 =? ch_QUOTE); [done|].
  destruct (r1 =? ch_BACKSLASH).
  - destruct (readRune s1) as [[r2 err2] s2] eqn:E2.
    pose proof (readRune_le _ _ _ _ E2) as Hle2.
    destruct err2 as [e2|]; [apply quoteValue_loop_fuel; unfold fuel_of; lia|].
    destruct line, space; apply quoteValue_loop_fuel;
      unfold fuel_of, pending in *; simpl in *; lia.
  - destruct line, space; apply quoteValue_loop_fuel;
      unfold fuel_of, pending in *; simpl in *; lia.
Qed.

Lemma quoteValue_inv s v err s' :
  quoteValue s = (v, err, s') →
  same_frame s s' ∧ (length (pending s') ≤ length (pending s))%nat ∧
  match err with
  | Some _ => v = []
  | None => v = s_b s'
  end.
Proof.
  unfold quoteValue. intros (Hf & Hle & Hr)%quoteValue_loop_inv.
  split; [|by split].
  eapply same_frame_trans; [apply same_frame_b_Reset | exact Hf].
Qed.

(** *** parseValue *)

Lemma parseValue_seek_inv n s res s' :
  parseValue_seek n s = (res, s') →
  same_frame s s' ∧ (length (pending s') ≤ length (pending s))%nat.
Proof.
  revert s. induction n as [|n IH]; intros s; simpl.
  { intros [= <- <-]. split; [apply same_frame_refl|done]. }
  read_step E. destruct (readRune_inv _ _ _ _ E) as (Hf & _ & _ & Hlt).
  pose proof (readRune_le _ _ _ _ E) as Hle.
  destruct err as [e|].
  { intros [= <- <-]. by split. }
  destruct (r1 =? ch_LF).
  { intros [= <- <-]. split; [|done].
    eapply same_frame_trans; [exact Hf | apply same_frame_incr_line]. }
  destruct (unicode_IsSpace r1).
  { intros (Hf' & Hle')%IH. split; [by eapply same_frame_trans | lia]. }
  destruct (r1 =? ch_QUOTE).
  { destruct (quoteValue s1) as [[v e] s2] eqn:E2.
    destruct (quoteValue_inv _ _ _ _ E2) as (Hf2 & Hle2 & _).
    intros [= <- <-]. split; [by eapply same_frame_trans | lia]. }
  intros [= <- <-]. pose proof (pending_r_UnreadRune_le s1).
  split; [|lia].
  eapply same_frame_trans; [exact Hf | apply same_frame_r_UnreadRune].
Qed.

Lemma parseValue_seek_fuel n m s :
  (length (pending s) < n)%nat → (length (pending s) < m)%nat →
  parseValue_seek n s = parseValue_seek m s.
Proof.
  revert m s. induction n as [|n IH]; intros [|m] s Hn Hm; try lia. simpl.
  read_step E. destruct err as [e|]; [done|].
  apply readRune_lt in E.
  destruct (r1 =? ch_LF); [done|].
  destruct (unicode_IsSpace r1); [apply IH; lia | done].
Qed.

Lemma parseValue_seek_unfold s :
  parseValue_seek (fuel_of s) s =
  let '(r1, err, s) := readRune s in
  match err with
  | Some e => (inl ([], Some e), s)
  | None =>
      if r1 =? ch_LF then (inl ([], None), incr_line s)
      else if unicode_IsSpace r1 then parseValue_seek (fuel_of s) s
      else if r1 =? ch_QUOTE then
        let '(v, e, s) := quoteValue s in (inl (v, e), s)
      else (inr tt, r_UnreadRune s)
  end.
Proof.
  unfold fuel_of at 1. cbn [parseValue_seek]. read_step E.
  destruct err as [e|]; [done|]. apply readRune_lt in E.
  destruct (r1 =? ch_LF); [done|].
  destruct (unicode_IsSpace r1); [|done].
  apply parseValue_seek_fuel; unfold fuel_of; lia.
Qed.

Lemma parseValue_inv s v err s' :
  parseValue s = (v, err, s') →
  same_frame s s' ∧ (length (pending s') ≤ length (pending s))%nat.
Proof.
  unfold parseValue.
  destruct (parseValue_seek (fuel_of s) s) as [[[v0 e0]|[]] s1] eqn:E1;
    destruct (parseValue_seek_inv _ _ _ _ E1) as (Hf & Hle).
  - by intros [= <- <- <-].
  - destruct (bufio_ReadString (s_r s1)) as [[l e] rd] eqn:E2.
    destruct (bufio_ReadString_inv _ _ _ _ E2) as (He & Hr).
    intros [= <- <- <-]. split.
    + destruct Hf as (?&?&?&?). repeat split; simpl; congruence.
    + unfold pending in *. simpl.
      destruct e as [e|]; [destruct Hr as (_&_&->&_); simpl; lia|].
      destruct Hr as (_&?&_). lia.
Qed.
(** *** parseRecord *)

Lemma NewRecord_inv typ ID r :
  NewRecord typ ID = Some r →
  rec_typ r ≠ [] ∧ rec_id r ≠ [] ∧ rec_data r = ∅.
Proof.
  unfold NewRecord. repeat case_bool_decide; try done. by intros [= <-].
Qed.

Lemma header_of_inv line r :
  header_of line = Some r → rec_typ r ≠ [] ∧ rec_id r ≠ [] ∧ rec_data r = ∅.
Proof.
  unfold header_of. destruct (strings_TrimSpace line) as [|c l]; [done|].
  repeat (case_match; try done). apply NewRecord_inv.
Qed.

Lemma parseRecord_header_step n s :
  parseRecord_header (S n) s =
  let s := incr_line s in
  let '(line, err, rd) := bufio_ReadString (s_r s) in
  let s := set_r s rd in
  match err with
  | Some e =>
      if is_EOF e then (inr e, s)
      else (inr (errors_Wrapf e "reclist: scanner: line %d" [s_line s]), s)
  | None =>
      match header_of line with
      | Some rec => (inl rec, s)
      | None => parseRecord_header n s
      end
  end.
Proof.
  cbn [parseRecord_header]. unfold header_of.
  destruct (bufio_ReadString (s_r (incr_line s))) as [[line err] rd].
  destruct err as [e|]; [done|].
  destruct (strings_TrimSpace line) as [|c l]; [done|].
  destruct (c =? ch_SHARP); [done|]. destruct (negb (c =? ch_AT)); [done|].
  cbv zeta. destruct (strings_Index l ch_EQUAL <? 1); [done|].
  by destruct (NewRecord _ _).
Qed.

Lemma parseRecord_header_inv n s res s' :
  parseRecord_header n s = (res, s') →
  same_frame s s' ∧ (length (pending s') ≤ length (pending s))%nat ∧
  match res with
  | inl rec => (length (pending s') < length (pending s))%nat ∧
               rec_typ rec ≠ [] ∧ rec_id rec ≠ [] ∧ rec_data rec = ∅
  | inr e => errors_Cause e = errors_Cause (rd_err (s_r s))
  end.
Proof.
  revert s. induction n as [|n IH]; intros s.
  { intros [= <- <-]. split; [apply same_frame_refl|]. by split. }
  rewrite parseRecord_header_step. cbv zeta.
  destruct (bufio_ReadString (s_r (incr_line s))) as [[line err] rd] eqn:E.
  destruct (bufio_ReadString_inv _ _ _ _ E) as (He & Hr). simpl in He.
  assert (same_frame s (set_r (incr_line s) rd)) as Hf by by repeat split.
  destruct err as [e|].
  { destruct Hr as (-> & _ & Hb & _).
    destruct (is_EOF _); intros [= <- <-]; (split; [done|]);
      unfold pending; simpl; rewrite Hb; simpl; (split; [lia|done]). }
  destruct Hr as (_ & Hlt & _). simpl in Hlt.
  destruct (header_of line) as [rec|] eqn:Hh.
  { intros [= <- <-]. split; [done|]. unfold pending; simpl.
    split; [lia|]. split; [lia|]. by apply header_of_inv in Hh. }
  intros (Hf' & Hle' & Hres)%IH. split; [by eapply same_frame_trans|].
  unfold pending in *; simpl in *. split; [lia|].
  destruct res as [rec|e]; [|by rewrite Hres, He].
  destruct Hres as (?&?). split; [lia|done].
Qed.

Lemma parseRecord_header_fuel n m s :
  (length (pending s) < n)%nat → (length (pending s) < m)%nat →
  parseRecord_header n s = parseRecord_header m s.
Proof.
  revert m s. induction n as [|n IH]; intros [|m] s Hn Hm; try lia.
  rewrite !parseRecord_header_step. cbv zeta.
  destruct (bufio_ReadString (s_r (incr_line s))) as [[line err] rd] eqn:E.
  destruct (bufio_ReadString_inv _ _ _ _ E) as (He & Hr). simpl in He.
  destruct err as [e|]; [done|]. destruct Hr as (_ & Hlt & _). simpl in Hlt.
  destruct (header_of line); [done|].
  apply IH; unfold pending in *; simpl; lia.
Qed.

Lemma parseRecord_header_unfold s :
  parseRecord_header (fuel_of s) s =
  let s := incr_line s in
  let '(line, err, rd) := bufio_ReadString (s_r s) in
  let s := set_r s rd in
  match err with
  | Some e =>
      if is_EOF e then (inr e, s)
      else (inr (errors_Wrapf e "reclist: scanner: line %d" [s_line s]), s)
  | None =>
      match header_of line with
      | Some rec => (inl rec, s)
      | None => parseRecord_header (fuel_of s) s
      end
  end.
Proof.
  unfold fuel_of at 1. rewrite parseRecord_header_step. cbv zeta.
  destruct (bufio_ReadString (s_r (incr_line s))) as [[line err] rd] eqn:E.
  destruct (bufio_ReadString_inv _ _ _ _ E) as (He & Hr). simpl in He.
  destruct err as [e|]; [done|]. destruct Hr as (_ & Hlt & _). simpl in Hlt.
  destruct (header_of line); [done|].
  apply parseRecord_header_fuel; unfold fuel_of, pending in *; simpl; lia.
Qed.

Lemma Record_Set_typ_id key value r :
  rec_typ (Record_Set key value r) = rec_typ r ∧
  rec_id (Record_Set key value r) = rec_id r.
Proof. unfold Record_Set. by repeat case_bool_decide. Qed.

Lemma parseRecord_fields_inv n rec s rec' s' :
  parseRecord_fields n rec s = (rec', s') →
  same_frame s s' ∧ (length (pending s') ≤ length (pending s))%nat ∧
  rec_typ rec' = rec_typ rec ∧ rec_id rec' = rec_id rec.
Proof.
  revert rec s. induction n as [|n IH]; intros rec s; simpl.
  { intros [= <- <-]. split; [apply same_frame_refl|]. by split. }
  destruct (parseKey s) as [[[key delim] err] s1] eqn:E.
  destruct (parseKey_inv _ _ _ _ _ E) as (Hf & Hle & _).
  destruct err as [e|].
  { intros [= <- <-]. by split. }
  destruct (delim =? ch_AT).
  { intros [= <- <-]. by split. }
  destruct (delim =? ch_LF).
  { intros (Hf' & Hle' & Hr)%IH. split; [by eapply same_frame_trans|].
    split; [lia|done]. }
  destruct (parseValue s1) as [[value err] s2] eqn:E2.
  destruct (parseValue_inv _ _ _ _ E2) as (Hf2 & Hle2).
  destruct err as [e|].
  { intros [= <- <-]. split; [by eapply same_frame_trans|]. split; [lia|done]. }
  intros (Hf' & Hle' & Ht & Hi)%IH.
  destruct (Record_Set_typ_id key value rec) as [<- <-].
  split; [eapply same_frame_trans; [exact Hf|]; by eapply same_frame_trans|].
  split; [lia|done].
Qed.

Lemma parseRecord_fields_fuel n m rec s :
  (length (pending s) < n)%nat → (length (pending s) < m)%nat →
  parseRecord_fields n rec s = parseRecord_fields m rec s.
Proof.
  revert m rec s. induction n as [|n IH]; intros [|m] rec s Hn Hm; try lia.
  simpl. destruct (parseKey s) as [[[key delim] err] s1] eqn:E.
  destruct (parseKey_inv _ _ _ _ _ E) as (_ & Hle & Hlt).
  destruct err as [e|]; [done|].
  destruct (Z.eqb_spec delim ch_AT) as [|Hd]; [done|].
  specialize (Hlt eq_refl Hd).
  destruct (delim =? ch_LF); [apply IH; lia|].
  destruct (parseValue s1) as [[value err] s2] eqn:E2.
  destruct (parseValue_inv _ _ _ _ E2) as (_ & Hle2).
  destruct err as [e|]; [done|]. apply IH; lia.
Qed.

Lemma parseRecord_fields_unfold rec s :
  parseRecord_fields (fuel_of s) rec s =
  let '(key, delim, err, s) := parseKey s in
  match err with
  | Some _ => (rec, s)
  | None =>
      if delim =? ch_AT then (rec, s)
      else if delim =? ch_LF then parseRecord_fields (fuel_of s) rec s
      else
        let '(value, err, s) := parseValue s in
        match err with
        | Some _ => (rec, s)
        | None => parseRecord_fields (fuel_of s) (Record_Set key value rec) s
        end
  end.
Proof.
  unfold fuel_of at 1. cbn [parseRecord_fields].
  destruct (parseKey s) as [[[key delim] err] s1] eqn:E.
  destruct (parseKey_inv _ _ _ _ _ E) as (_ & Hle & Hlt).
  destruct err as [e|]; [done|].
  destruct (Z.eqb_spec delim ch_AT) as [|Hd]; [done|].
  specialize (Hlt eq_refl Hd).
  destruct (delim =? ch_LF); [apply parseRecord_fields_fuel; unfold fuel_of; lia|].
  destruct (parseValue s1) as [[value err] s2] eqn:E2.
  destruct (parseValue_inv _ _ _ _ E2) as (_ & Hle2).
  destruct err as [e|]; [done|].
  apply parseRecord_fields_fuel; unfold fuel_of; lia.
Qed.

Lemma parseRecord_inv s res err s' :
  parseRecord s = (res, err, s') →
  same_frame s s' ∧
  match res, err with
  | Some rec, None => (length (pending s') < length (pending s))%nat ∧
                      rec_typ rec ≠ [] ∧ rec_id rec ≠ []
  | None, Some e => errors_Cause e = errors_Cause (rd_err (s_r s))
  | _, _ => False
  end.
Proof.
  unfold parseRecord.
  destruct (parseRecord_header (fuel_of s) s) as [[rec|e] s1] eqn:E;
    destruct (parseRecord_header_inv _ _ _ _ E) as (Hf & Hle & Hr).
  - destruct (parseRecord_fields (fuel_of s1) rec s1) as [rec' s2] eqn:E2.
    destruct (parseRecord_fields_inv _ _ _ _ _ E2) as (Hf2 & Hle2 & Ht & Hi).
    intros [= <- <- <-]. split; [by eapply same_frame_trans|].
    destruct Hr as (?&?&?&?). split; [lia|]. by rewrite Ht, Hi.
  - by intros [= <- <- <-].
Qed.

(** *** Scan *)

Lemma Scan_loop_fuel n m s :
  (length (pending s) < n)%nat → (length (pending s) < m)%nat →
  Scan_loop n s = Scan_loop m s.
Proof.
  revert m s. induction n as [|n IH]; intros [|m] s Hn Hm; try lia. simpl.
  destruct (parseRecord s) as [[res err] s1] eqn:E.
  destruct (parseRecord_inv _ _ _ _ E) as (_ & Hr).
  destruct err as [e|]; [done|]. destruct res as [rec|]; [|done].
  destruct Hr as (Hlt & _). case_bool_decide; [|done]. apply IH; lia.
Qed.

Lemma Scan_loop_unfold s :
  Scan_loop (fuel_of s) s =
  match parseRecord s with
  | (_, Some err, s) =>
      let s := set_closed s true in
      if is_EOF (errors_Cause err) then (false, s)
      else (false, set_err s (Some err))
  | (None, None, s) => (false, s)
  | (Some rec, None, s) =>
      if bool_decide (size (rec_data rec) = 0%nat) then Scan_loop (fuel_of s) s
      else (true, set_rec s (Some rec))
  end.
Proof.
  unfold fuel_of at 1. cbn [Scan_loop].
  destruct (parseRecord s) as [[res err] s1] eqn:E.
  destruct (parseRecord_inv _ _ _ _ E) as (_ & Hr).
  destruct err as [e|]; [done|]. destruct res as [rec|]; [|done].
  destruct Hr as (Hlt & _). case_bool_decide; [|done].
  apply Scan_loop_fuel; unfold fuel_of; lia.
Qed.
(** ** Scanner: what the parsing functions read *)

Lemma moved_trans s1 s2 s3 r2 r3 d2 d3 :
  moved s1 s2 r2 d2 → moved s2 s3 r3 d3 → moved s1 s3 r3 (d2 + d3).
Proof.
  intros (? & ? & ?) (? & ? & ?). split; [done|].
  split; [by eapply same_frame_trans | lia].
Qed.

Lemma solid_neq c : solid c → c ≠ ch_LF ∧ c ≠ ch_CR ∧ c ≠ ch_TAB ∧ c ≠ ch_SP.
Proof. unfold solid. intros H. repeat split; by intros ->. Qed.

Lemma count_LF_cons c l :
  count_LF (c :: l) = (if c =? ch_LF then 1 else 0) + count_LF l.
Proof.
  unfold count_LF. rewrite filter_cons.
  destruct (Z.eqb_spec c ch_LF); case_decide; try done; simpl; lia.
Qed.

Lemma readRune_moved s c t :
  pending s = c :: t → c ≠ ch_CR →
  ∃ s', readRune s = (c, None, s') ∧ moved s s' t 0 ∧ s_b s' = s_b s
        ∧ pending (r_UnreadRune s') = c :: t.
Proof.
  intros Hp Hc. eexists. split; [by apply readRune_plain|].
  split; [|done]. split; [done|]. split; [by repeat split | simpl; lia].
Qed.

(** *** parseKey *)

(** Blanks before a key are skipped; the first rune of the key is given
    back to the reader. *)
Lemma parseKey_seek_blanks ws c t s :
  Forall (λ c, unicode_IsSpace c = true ∧ c ≠ ch_CR) ws →
  solid c → c ≠ ch_SHARP →
  pending s = ws ++ c :: t →
  ∃ s', parseKey_seek (fuel_of s) s =
          (if c =? ch_AT then inl ([], ch_AT, None) else inr tt, s') ∧
        moved s s' (c :: t) (count_LF ws).
Proof.
  intros Hws Hc Hsh. revert s. induction Hws as [|w ws [Hw Hw'] _ IH]; intros s Hp.
  - simpl in Hp. destruct (solid_neq c Hc) as (HLF & HCR & _).
    destruct (readRune_moved s c t Hp HCR) as (s1 & E & (Hp1 & Hf1 & Hl1) & _ & Hu).
    rewrite parseKey_seek_unfold, E.
    destruct (Z.eqb_spec c ch_LF); [done|]. rewrite Hc.
    destruct (Z.eqb_spec c ch_SHARP); [done|].
    exists (r_UnreadRune s1). split; [by destruct (c =? ch_AT)|]. split; [done|].
    split; [eapply same_frame_trans; [exact Hf1 | apply same_frame_r_UnreadRune]|].
    simpl. unfold count_LF. simpl. lia.
  - simpl in Hp.
    destruct (readRune_moved s w (ws ++ c :: t) Hp Hw') as (s1 & E & (Hp1 & Hf1 & Hl1) & _).
    rewrite parseKey_seek_unfold, E, count_LF_cons.
    destruct (Z.eqb_spec w ch_LF) as [->|HLF].
    + destruct (IH (incr_line s1) Hp1) as (s2 & E2 & Hp2 & Hf2 & Hl2).
      exists s2. split; [done|]. split; [done|].
      split; [eapply same_frame_trans; [exact Hf1|];
              eapply same_frame_trans; [apply same_frame_incr_line | exact Hf2]|].
      simpl in Hl2. lia.
    + rewrite Hw. destruct (IH s1 Hp1) as (s2 & E2 & Hp2 & Hf2 & Hl2).
      exists s2. split; [done|]. split; [done|].
      split; [by eapply same_frame_trans | lia].
Qed.

(** The runes of a key are gathered up to the colon. *)
Lemma parseKey_read_solid k t s :
  Forall (λ c, solid c ∧ c ≠ ch_COLON) k →
  pending s = k ++ ch_COLON :: t →
  ∃ s', parseKey_read (fuel_of s) false s = (s_b s ++ k, ch_COLON, None, s') ∧
        moved s s' t 0.
Proof.
  intros Hk. revert s. induction Hk as [|c k [Hc Hcol] _ IH]; intros s Hp.
  - simpl in Hp.
    destruct (readRune_moved s ch_COLON t Hp) as (s1 & E & Hm & Hb & _); [done|].
    rewrite parseKey_read_unfold, E. simpl. exists s1.
    by rewrite Hb, app_nil_r.
  - simpl in Hp. destruct (solid_neq c Hc) as (HLF & HCR & _).
    destruct (readRune_moved s c (k ++ ch_COLON :: t) Hp HCR)
      as (s1 & E & (Hp1 & Hf1 & Hl1) & Hb & _).
    rewrite parseKey_read_unfold, E.
    destruct (Z.eqb_spec c ch_LF); [done|]. rewrite Hc.
    destruct (Z.eqb_spec c ch_COLON); [done|]. cbv zeta.
    destruct (IH (b_WriteRune c s1) Hp1) as (s2 & E2 & Hp2 & Hf2 & Hl2).
    exists s2. rewrite E2. simpl. rewrite Hb, <- app_assoc. split; [done|].
    split; [done|]. split; [|simpl in Hl2; lia].
    eapply same_frame_trans; [exact Hf1|].
    eapply same_frame_trans; [apply (same_frame_b_WriteRune c) | exact Hf2].
Qed.

Lemma parseKey_plain ws k t s :
  Forall (λ c, unicode_IsSpace c = true ∧ c ≠ ch_CR) ws →
  plain_key k →
  pending s = ws ++ k ++ ch_COLON :: t →
  ∃ s', parseKey s = (k, ch_COLON, None, s') ∧ moved s s' t (count_LF ws).
Proof.
  intros Hws [Hk Hhd] Hp. destruct k as [|c k]; [done|]. destruct Hhd as [Hsh Hat].
  pose proof (Forall_inv Hk) as [Hc _].
  destruct (parseKey_seek_blanks ws c (k ++ ch_COLON :: t) s Hws Hc Hsh Hp)
    as (s1 & E1 & Hp1 & Hf1 & Hl1).
  unfold parseKey. rewrite E1. destruct (Z.eqb_spec c ch_AT); [done|].
  destruct (parseKey_read_solid (c :: k) t (b_Reset s1) Hk Hp1)
    as (s2 & E2 & Hp2 & Hf2 & Hl2).
  cbv zeta. rewrite E2. exists s2. split; [done|]. split; [done|].
  split; [|simpl in Hl2; lia].
  eapply same_frame_trans; [exact Hf1|].
  eapply same_frame_trans; [apply same_frame_b_Reset | exact Hf2].
Qed.

(** At the end of the data (possibly after blanks) there is no key. *)
Lemma parseKey_end ws s :
  Forall (λ c, unicode_IsSpace c = true ∧ c ≠ ch_CR) ws →
  pending s = ws →
  ∃ k d e s', parseKey s = (k, d, Some e, s').
Proof.
  intros Hws. revert s. induction Hws as [|w ws [Hw Hw'] _ IH]; intros s Hp.
  - unfold parseKey. rewrite parseKey_seek_unfold, (readRune_nil s Hp). by eauto.
  - destruct (readRune_moved s w ws Hp Hw') as (s1 & E & (Hp1 & _) & _).
    unfold parseKey. rewrite parseKey_seek_unfold, E.
    destruct (w =? ch_LF).
    + destruct (IH (incr_line s1) Hp1) as (k & d & e & s' & E').
      unfold parseKey in E'.
      destruct (parseKey_seek _ (incr_line s1)) as [[[[??]?]|[]] ?]; [by eauto|].
      by rewrite E'; eauto.
    + rewrite Hw. destruct (IH s1 Hp1) as (k & d & e & s' & E').
      unfold parseKey in E'.
      destruct (parseKey_seek _ s1) as [[[[??]?]|[]] ?]; [by eauto|].
      by rewrite E'; eauto.
Qed.
(** *** parseValue *)

Lemma parseValue_seek_blanks sp c t s :
  Forall blank sp → c ≠ ch_CR →
  pending s = sp ++ c :: t →
  ∃ s1, pending s1 = c :: t ∧ same_frame s s1 ∧
        s_line s1 = s_line s ∧
        parseValue_seek (fuel_of s) s = parseValue_seek (fuel_of s1) s1.
Proof.
  intros Hsp Hc. revert s. induction Hsp as [|w sp (Hw & HwLF & HwCR) _ IH]; intros s Hp.
  - exists s. split; [done|]. split; [apply same_frame_refl|]. by split.
  - simpl in Hp.
    destruct (readRune_moved s w (sp ++ c :: t) Hp HwCR) as (s1 & E & (Hp1 & Hf1 & Hl1) & _).
    destruct (IH s1 Hp1) as (s2 & Hp2 & Hf2 & Hl2 & E2).
    exists s2. split; [done|].
    split; [by eapply same_frame_trans|]. split; [lia|].
    rewrite parseValue_seek_unfold, E.
    destruct (Z.eqb_spec w ch_LF); [done|]. by rewrite Hw.
Qed.

(** An empty value: only blanks up to the end of the line. *)
Lemma parseValue_empty sp rest s :
  Forall blank sp →
  pending s = sp ++ ch_LF :: rest →
  ∃ s', parseValue s = ([], None, s') ∧ moved s s' rest 1.
Proof.
  intros Hsp Hp.
  destruct (parseValue_seek_blanks sp ch_LF rest s Hsp) as (s1 & Hp1 & Hf1 & Hl1 & E1);
    [done..|].
  destruct (readRune_moved s1 ch_LF rest Hp1) as (s2 & E2 & (Hp2 & Hf2 & Hl2) & _); [done|].
  unfold parseValue. rewrite E1, parseValue_seek_unfold, E2. simpl.
  eexists. split; [done|]. split; [done|].
  split; [eapply same_frame_trans; [exact Hf1|];
          eapply same_frame_trans; [exact Hf2 | apply same_frame_incr_line]|].
  simpl. lia.
Qed.

(** A value without quotation mark is the rest of the line, newline
    included; the line counter does not move. *)
Lemma parseValue_line sp c v rest s :
  Forall blank sp → solid c → c ≠ ch_QUOTE → ch_LF ∉ v →
  pending s = sp ++ (c :: v) ++ ch_LF :: rest →
  ∃ s', parseValue s = ((c :: v) ++ [ch_LF], None, s') ∧ moved s s' rest 0.
Proof.
  intros Hsp Hc Hq Hv Hp. destruct (solid_neq c Hc) as (HLF & HCR & _).
  destruct (parseValue_seek_blanks sp c (v ++ ch_LF :: rest) s Hsp HCR Hp)
    as (s1 & Hp1 & Hf1 & Hl1 & E1).
  destruct (readRune_moved s1 c _ Hp1 HCR) as (s2 & E2 & (Hp2 & Hf2 & Hl2) & _ & Hu).
  unfold parseValue. rewrite E1, parseValue_seek_unfold, E2.
  destruct (Z.eqb_spec c ch_LF); [done|]. rewrite Hc.
  destruct (Z.eqb_spec c ch_QUOTE); [done|].
  unfold bufio_ReadString. fold (pending (r_UnreadRune s2)). rewrite Hu.
  change (c :: v ++ ch_LF :: rest) with ((c :: v) ++ ch_LF :: rest).
  rewrite (split_line_app (c :: v) rest).
  2:{ intros [?|?]%elem_of_cons; [congruence | done]. }
  eexists. split; [done|]. split; [done|]. split; [|simpl; lia].
  destruct Hf1 as (?&?&?&?), Hf2 as (?&?&?&?).
  unfold r_UnreadRune, bufio_UnreadRune.
  destruct (rd_last (s_r s2)); repeat split; simpl; congruence.
Qed.

(** A value that opens with a quotation mark is read by [quoteValue]. *)
Lemma parseValue_quote sp q s :
  Forall blank sp →
  pending s = sp ++ ch_QUOTE :: q →
  ∃ s1, moved s s1 q 0 ∧ parseValue s = quoteValue s1.
Proof.
  intros Hsp Hp.
  destruct (parseValue_seek_blanks sp ch_QUOTE q s Hsp) as (s1 & Hp1 & Hf1 & Hl1 & E1);
    [done..|].
  destruct (readRune_moved s1 ch_QUOTE q Hp1) as (s2 & E2 & (Hp2 & Hf2 & Hl2) & _); [done|].
  exists s2. split.
  { split; [done|]. split; [by eapply same_frame_trans | lia]. }
  unfold parseValue. rewrite E1, parseValue_seek_unfold, E2. simpl.
  by destruct (quoteValue s2) as [[v e] s3].
Qed.

(** *** One turn of the field loop of parseRecord *)

Lemma parseRecord_fields_set rec s key s1 v s2 :
  parseKey s = (key, ch_COLON, None, s1) → parseValue s1 = (v, None, s2) →
  parseRecord_fields (fuel_of s) rec s =
  parseRecord_fields (fuel_of s2) (Record_Set key v rec) s2.
Proof. intros E1 E2. rewrite parseRecord_fields_unfold, E1. cbv beta iota. by rewrite E2. Qed.

Lemma parseRecord_fields_value_err rec s key s1 v e s2 :
  parseKey s = (key, ch_COLON, None, s1) → parseValue s1 = (v, Some e, s2) →
  parseRecord_fields (fuel_of s) rec s = (rec, s2).
Proof. intros E1 E2. rewrite parseRecord_fields_unfold, E1. cbv beta iota. by rewrite E2. Qed.

Lemma parseRecord_fields_key_err rec s key d e s1 :
  parseKey s = (key, d, Some e, s1) →
  parseRecord_fields (fuel_of s) rec s = (rec, s1).
Proof. intros E1. by rewrite parseRecord_fields_unfold, E1. Qed.

Lemma parseKey_at_end s :
  pending s = [] → ∃ s1, parseKey s = ([], 0, Some (rd_err (s_r s)), s1) ∧ pending s1 = [].
Proof.
  intros Hp. unfold parseKey. rewrite parseKey_seek_unfold, (readRune_nil s Hp).
  by eexists.
Qed.
(** ** Writer *)

Lemma bufio_WriteString_ok str w :
  w_err w = None → bufio_WriteString str w = (None, mkWriter (w_out w ++ str) None).
Proof. unfold bufio_WriteString. by intros ->. Qed.

Lemma writeQuoted_loop_solid c v first space line w :
  c ≠ ch_LF → unicode_IsSpace c = false → w_err w = None →
  writeQuoted_loop (c :: v) first space line w =
  writeQuoted_loop v false false false
    (mkWriter (w_out w ++ (if line then [ch_LF; ch_TAB; ch_TAB]
                           else if space then [ch_SP] else []) ++ escaped c) None).
Proof.
  intros HLF Hc Hw. cbn [writeQuoted_loop].
  destruct (Z.eqb_spec c ch_LF); [done|]. rewrite Hc.
  unfold escaped, bufio_WriteRune.
  destruct line, space; rewrite ?bufio_WriteString_ok by done; cbn [w_out w_err];
    destruct (c =? ch_QUOTE), (c =? ch_BACKSLASH);
    rewrite ?bufio_WriteString_ok by done; cbn [w_out w_err];
    rewrite <- ?app_assoc; try done; by rewrite app_nil_r.
Qed.

Lemma writeQuoted_loop_ok v first space line w :
  w_err w = None →
  writeQuoted_loop v first space line w =
  (None, mkWriter (w_out w ++ quoted_text v first space line) None).
Proof.
  revert first space line w.
  induction v as [|c v IH]; intros first space line w Hw.
  { unfold quoted_text. simpl. rewrite app_nil_r. by destruct w; simpl in *; subst. }
  destruct (decide (c = ch_LF)) as [->|HLF].
  { unfold quoted_text. cbn [writeQuoted_loop]. simpl (ch_LF =? ch_LF).
    cbv iota. destruct (negb first); by apply IH. }
  destruct (unicode_IsSpace c) eqn:Hc.
  { unfold quoted_text. cbn [writeQuoted_loop].
    destruct (Z.eqb_spec c ch_LF); [done|]. rewrite Hc. by apply IH. }
  unfold quoted_text.
  rewrite !writeQuoted_loop_solid by done. rewrite !IH by done.
  cbn [snd w_out NewWriter]. by rewrite app_nil_l, <- !app_assoc.
Qed.

Lemma quoted_text_nil first space line : quoted_text [] first space line = [].
Proof. done. Qed.

Lemma quoted_text_LF v first space line :
  quoted_text (ch_LF :: v) first space line =
  if first then quoted_text v first space line else quoted_text v false false true.
Proof. unfold quoted_text. cbn [writeQuoted_loop]. simpl. by destruct first. Qed.

Lemma quoted_text_space c v first space line :
  c ≠ ch_LF → unicode_IsSpace c = true →
  quoted_text (c :: v) first space line =
  quoted_text v first (if negb first && negb line then true else space) line.
Proof.
  intros HLF Hc. unfold quoted_text. cbn [writeQuoted_loop].
  destruct (Z.eqb_spec c ch_LF); [done|]. by rewrite Hc.
Qed.

Lemma quoted_text_solid c v first space line :
  c ≠ ch_LF → unicode_IsSpace c = false →
  quoted_text (c :: v) first space line =
  (if line then [ch_LF; ch_TAB; ch_TAB] else if space then [ch_SP] else [])
    ++ escaped c ++ quoted_text v false false false.
Proof.
  intros HLF Hc. unfold quoted_text at 1.
  rewrite writeQuoted_loop_solid by done. rewrite writeQuoted_loop_ok by done.
  cbn [snd w_out NewWriter]. by rewrite app_nil_l, <- app_assoc.
Qed.
(** ** quoteValue, rune by rune *)

Lemma quoteValue_loop_LF first space line t s :
  pending s = ch_LF :: t →
  ∃ s1, moved s s1 t 1 ∧ s_b s1 = s_b s ∧
        quoteValue_loop (fuel_of s) first space line s =
        quoteValue_loop (fuel_of s1) first
          (if first then space else false) (if first then line else true) s1.
Proof.
  intros Hp. destruct (readRune_moved s ch_LF t Hp) as (s1 & E & (Hp1 & Hf1 & Hl1) & Hb & _);
    [done|].
  exists (incr_line s1). split.
  { split; [done|]. split; [|simpl; lia].
    eapply same_frame_trans; [exact Hf1 | apply same_frame_incr_line]. }
  split; [done|].
  rewrite quoteValue_loop_unfold. unfold quoteValue_body. rewrite E. simpl.
  by destruct first.
Qed.

Lemma quoteValue_loop_blank first space line c t s :
  blank c → pending s = c :: t →
  ∃ s1, moved s s1 t 0 ∧ s_b s1 = s_b s ∧
        quoteValue_loop (fuel_of s) first space line s =
        quoteValue_loop (fuel_of s1) first
          (if negb first && negb line then true else space) line s1.
Proof.
  intros (Hc & HLF & HCR) Hp.
  destruct (readRune_moved s c t Hp HCR) as (s1 & E & Hm & Hb & _).
  exists s1. split; [done|]. split; [done|].
  rewrite quoteValue_loop_unfold. unfold quoteValue_body. rewrite E.
  destruct (Z.eqb_spec c ch_LF); [done|]. by rewrite Hc.
Qed.

Lemma quoteValue_loop_solid first space line c t s :
  solid c → c ≠ ch_QUOTE → c ≠ ch_BACKSLASH → pending s = c :: t →
  ∃ s1, moved s s1 t 0 ∧ s_b s1 = s_b s ++ pending_sep space line ++ [c] ∧
        quoteValue_loop (fuel_of s) first space line s =
        quoteValue_loop (fuel_of s1) false false false s1.
Proof.
  intros Hc Hq Hbs Hp. destruct (solid_neq c Hc) as (HLF & HCR & _).
  destruct (readRune_moved s c t Hp HCR) as (s1 & E & (Hp1 & Hf1 & Hl1) & Hb & _).
  exists (b_WriteRune c
            (if (if line then false else space)
             then b_WriteRune ch_SP (if line then b_WriteRune ch_LF s1 else s1)
             else (if line then b_WriteRune ch_LF s1 else s1))).
  split.
  { split; [by destruct line, space|].
    split; [|by destruct line, space]. eapply same_frame_trans; [exact Hf1|].
    by destruct line, space. }
  split.
  { unfold pending_sep. destruct line, space; simpl; rewrite Hb, <- ?app_assoc; done. }
  rewrite quoteValue_loop_unfold. unfold quoteValue_body. rewrite E.
  destruct (Z.eqb_spec c ch_LF); [done|]. rewrite Hc.
  destruct (Z.eqb_spec c ch_QUOTE); [done|].
  destruct (Z.eqb_spec c ch_BACKSLASH); [done|].
  by destruct line.
Qed.

Lemma quoteValue_loop_escape first space line c t s :
  c ≠ ch_CR → pending s = ch_BACKSLASH :: c :: t →
  ∃ s1, moved s s1 t 0 ∧ s_b s1 = s_b s ++ pending_sep space line ++ [c] ∧
        quoteValue_loop (fuel_of s) first space line s =
        quoteValue_loop (fuel_of s1) false false false s1.
Proof.
  intros HCR Hp.
  destruct (readRune_moved s ch_BACKSLASH (c :: t) Hp) as (s1 & E & (Hp1 & Hf1 & Hl1) & Hb & _);
    [done|].
  destruct (readRune_moved s1 c t Hp1 HCR) as (s2 & E2 & (Hp2 & Hf2 & Hl2) & Hb2 & _).
  exists (b_WriteRune c
            (if (if line then false else space)
             then b_WriteRune ch_SP (if line then b_WriteRune ch_LF s2 else s2)
             else (if line then b_WriteRune ch_LF s2 else s2))).
  split.
  { split; [by destruct line, space|].
    split; [|destruct line, space; simpl; lia].
    eapply same_frame_trans; [exact Hf1|]. eapply same_frame_trans; [exact Hf2|].
    by destruct line, space. }
  split.
  { unfold pending_sep. destruct line, space; simpl; rewrite Hb2, Hb, <- ?app_assoc; done. }
  rewrite quoteValue_loop_unfold. unfold quoteValue_body. rewrite E. simpl.
  rewrite E2. by destruct line.
Qed.

Lemma quoteValue_loop_quote first space line t s :
  pending s = ch_QUOTE :: t →
  ∃ s1, moved s s1 t 0 ∧
        quoteValue_loop (fuel_of s) first space line s = (s_b s, None, s1).
Proof.
  intros Hp.
  destruct (readRune_moved s ch_QUOTE t Hp) as (s1 & E & Hm & Hb & _); [done|].
  exists s1. split; [done|].
  rewrite quoteValue_loop_unfold. unfold quoteValue_body. rewrite E. simpl.
  by rewrite Hb.
Qed.

(** ** quoteValue reads back what writeQuoted wrote *)

Lemma blank_TAB : blank ch_TAB.
Proof. by repeat split. Qed.

Lemma blank_SP : blank ch_SP.
Proof. by repeat split. Qed.

Lemma quoteValue_loop_sep first space line t s :
  flags_ok first space line →
  pending s = (if line then [ch_LF; ch_TAB; ch_TAB]
               else if space then [ch_SP] else []) ++ t →
  ∃ s1, pending s1 = t ∧ same_frame s s1 ∧ s_b s1 = s_b s ∧
        quoteValue_loop (fuel_of s) first false false s =
        quoteValue_loop (fuel_of s1) first space line s1.
Proof.
  intros [Hfirst Hsl] Hp. destruct line.
  - destruct first; [by destruct (Hfirst eq_refl)|].
    destruct space; [by specialize (Hsl eq_refl)|].
    destruct (quoteValue_loop_LF false false false _ s Hp)
      as (s1 & (Hp1 & Hf1 & _) & Hb1 & E1).
    destruct (quoteValue_loop_blank false false true _ _ s1 blank_TAB Hp1)
      as (s2 & (Hp2 & Hf2 & _) & Hb2 & E2).
    destruct (quoteValue_loop_blank false false true _ _ s2 blank_TAB Hp2)
      as (s3 & (Hp3 & Hf3 & _) & Hb3 & E3).
    exists s3. split; [done|].
    split; [eapply same_frame_trans; [exact Hf1|]; by eapply same_frame_trans|].
    split; [congruence|]. cbn [negb andb] in E1, E2, E3. by rewrite E1, E2, E3.
  - destruct space.
    + destruct first; [by destruct (Hfirst eq_refl)|].
      destruct (quoteValue_loop_blank false false false _ _ s blank_SP Hp)
        as (s1 & (Hp1 & Hf1 & _) & Hb1 & E1).
      exists s1. cbn [negb andb] in E1. by rewrite E1.
    + exists s. split; [done|]. split; [apply same_frame_refl | done].
Qed.

Lemma quoteValue_loop_escaped first space line c t s :
  solid c → pending s = escaped c ++ t →
  ∃ s1, pending s1 = t ∧ same_frame s s1 ∧
        s_b s1 = s_b s ++ pending_sep space line ++ [c] ∧
        quoteValue_loop (fuel_of s) first space line s =
        quoteValue_loop (fuel_of s1) false false false s1.
Proof.
  intros Hc Hp. unfold escaped in Hp.
  destruct (Z.eqb_spec c ch_QUOTE) as [->|Hq].
  { destruct (quoteValue_loop_escape first space line ch_QUOTE t s) as (s1 & (?&?&?) & ? & ?);
      [done..|]. by exists s1. }
  destruct (Z.eqb_spec c ch_BACKSLASH) as [->|Hb].
  { destruct (quoteValue_loop_escape first space line ch_BACKSLASH t s) as (s1 & (?&?&?) & ? & ?);
      [done..|]. by exists s1. }
  destruct (quoteValue_loop_solid first space line c t s) as (s1 & (?&?&?) & ? & ?);
    [done..|]. by exists s1.
Qed.

Lemma quoteValue_loop_quoted_text v first space line rest s :
  flags_ok first space line →
  pending s = quoted_text v first space line ++ ch_QUOTE :: rest →
  ∃ s', quoteValue_loop (fuel_of s) first false false s =
          (s_b s ++ collapse_loop v first space line, None, s') ∧
        pending s' = rest ∧ same_frame s s'.
Proof.
  revert first space line s.
  induction v as [|c v IH]; intros first space line s Hfl Hp.
  { rewrite quoted_text_nil in Hp. simpl in Hp.
    destruct (quoteValue_loop_quote first false false rest s Hp) as (s1 & (?&?&?) & E).
    exists s1. rewrite E. simpl. by rewrite app_nil_r. }
  destruct (decide (c = ch_LF)) as [->|HLF].
  { rewrite quoted_text_LF in Hp. cbn [collapse_loop]. simpl (ch_LF =? ch_LF). cbv iota.
    destruct first; cbn [negb]; cbv iota beta; (apply IH; [|done]); [done|].
    split; intros [=]. }
  destruct (unicode_IsSpace c) eqn:Hc.
  { rewrite quoted_text_space in Hp by done. cbn [collapse_loop].
    destruct (Z.eqb_spec c ch_LF); [done|]. rewrite Hc.
    apply IH; [|done]. destruct Hfl as [Hfirst Hsl].
    destruct first; simpl; [done|]. destruct line; simpl; [|done].
    split; [done|]. intros ->. by specialize (Hsl eq_refl). }
  rewrite quoted_text_solid in Hp by done. rewrite <- !app_assoc in Hp.
  destruct (quoteValue_loop_sep first space line _ s Hfl Hp) as (s1 & Hp1 & Hf1 & Hb1 & E1).
  destruct (quoteValue_loop_escaped first space line c _ s1 Hc Hp1)
    as (s2 & Hp2 & Hf2 & Hb2 & E2).
  destruct (IH false false false s2) as (s3 & E3 & Hp3 & Hf3); [done..|].
  exists s3. rewrite E1, E2, E3. cbn [collapse_loop].
  destruct (Z.eqb_spec c ch_LF); [done|]. rewrite Hc.
  split; [|split; [done|]].
  - rewrite Hb2, Hb1. unfold pending_sep. by rewrite <- !app_assoc.
  - eapply same_frame_trans; [exact Hf1|]. by eapply same_frame_trans.
Qed.

(** Reading back a quoted block gives the collapsed value. *)
Lemma quoteValue_quoted_text v rest s :
  pending s = quoted_text v true false false ++ ch_QUOTE :: rest →
  ∃ s', quoteValue s = (collapse v, None, s') ∧ pending s' = rest ∧ same_frame s s'.
Proof.
  intros Hp. unfold quoteValue.
  destruct (quoteValue_loop_quoted_text v true false false rest (b_Reset s))
    as (s' & E & Hp' & Hf'); [done..|].
  exists s'. split; [by rewrite E|]. split; [done|].
  eapply same_frame_trans; [apply same_frame_b_Reset | exact Hf'].
Qed.
(** ** Scan and Record *)

Lemma Record_Keys_length r : length (Record_Keys r) = size (rec_data r).
Proof.
  unfold Record_Keys. case_bool_decide as Hsz; [by rewrite Hsz|].
  unfold sort_Strings. rewrite merge_sort_Permutation.
  by rewrite length_fmap, length_map_to_list.
Qed.

Lemma Scan_loop_inv n s ok s' :
  Scan_loop n s = (ok, s') →
  if ok then ∃ rec, s_rec s' = Some rec ∧ size (rec_data rec) ≠ 0%nat
  else s_rec s' = s_rec s.
Proof.
  revert s. induction n as [|n IH]; intros s; simpl.
  { by intros [= <- <-]. }
  destruct (parseRecord s) as [[res err] s1] eqn:E.
  destruct (parseRecord_inv _ _ _ _ E) as (Hf & _). destruct Hf as (_ & _ & _ & Hrec).
  destruct err as [e|].
  { cbv zeta. destruct res, (is_EOF _); by intros [= <- <-]. }
  destruct res as [rec|]; [|by intros [= <- <-]].
  case_bool_decide as Hsz.
  - intros H. specialize (IH _ H). destruct ok; [done | congruence].
  - intros [= <- <-]. by exists rec.
Qed.

Lemma Scanner_Scan_inv s ok s' :
  Scanner_Scan s = (ok, s') →
  if ok then ∃ rec, s_rec s' = Some rec ∧ size (rec_data rec) ≠ 0%nat
  else s_rec s' = s_rec s.
Proof.
  unfold Scanner_Scan. destruct (s_closed s); [by intros [= <- <-]|].
  apply Scan_loop_inv.
Qed.

(** C10.  [Record] panics whenever no record is pending: on a fresh
    scanner, after a [Scan] that returned false when nothing was pending
    before it, and when called a second time in a row. *)
Theorem Record_without_pending_record_panics (s : Scanner) :
  (s_rec s = None → Scanner_Record s = None) ∧
  (∀ data e, Scanner_Record (NewScanner data e) = None) ∧
  (∀ s', s_rec s = None → Scanner_Scan s = (false, s') → Scanner_Record s' = None) ∧
  (∀ rec s', Scanner_Record s = Some (rec, s') → Scanner_Record s' = None).
Proof.
  split_and!.
  - unfold Scanner_Record. by intros ->.
  - done.
  - intros s' Hs Hscan. apply Scanner_Scan_inv in Hscan.
    unfold Scanner_Record. by rewrite Hscan, Hs.
  - unfold Scanner_Record. destruct (s_rec s); [|done]. by intros rec s' [= _ <-].
Qed.

(** C5.  A [Scan] that returns true has prepared a record with at least one
    field; a record that [parseRecord] assembled without any field is
    dropped, and [Scan] goes on from where that record ended. *)
Theorem Scan_reports_only_records_with_fields (s : Scanner) :
  (∀ s', Scanner_Scan s = (true, s') →
         ∃ rec, s_rec s' = Some rec ∧ (0 < length (Record_Keys rec))%nat ∧
                Scanner_Record s' = Some (rec, set_rec s' None)) ∧
  (∀ rec s1, s_closed s = false → parseRecord s = (Some rec, None, s1) →
             Record_Keys rec = [] → Scanner_Scan s = Scanner_Scan s1).
Proof.
  split.
  - intros s' (rec & Hrec & Hsz)%Scanner_Scan_inv. exists rec.
    split; [done|]. rewrite Record_Keys_length. split; [lia|].
    unfold Scanner_Record. by rewrite Hrec.
  - intros rec s1 Hcl Hp Hk.
    destruct (parseRecord_inv _ _ _ _ Hp) as (Hf & _). destruct Hf as (_ & Hcl1 & _).
    unfold Scanner_Scan. rewrite Hcl1, Hcl, Scan_loop_unfold, Hp.
    assert (size (rec_data rec) = 0%nat) as Hsz.
    { by rewrite <- Record_Keys_length, Hk. }
    by rewrite bool_decide_eq_true_2.
Qed.

(** ** Headers *)

Lemma Fields_all_space cur s :
  forallb unicode_IsSpace s = true →
  fields_from cur s = match cur with [] => [] | _ => [rev cur] end.
Proof.
  revert cur. induction s as [|c s IH]; intros cur; simpl; [done|].
  destruct (unicode_IsSpace c); simpl; [|done]. intros H.
  rewrite (IH [] H). by destruct cur.
Qed.

Lemma NewRecord_blank typ ID :
  forallb unicode_IsSpace typ = true ∨ forallb unicode_IsSpace ID = true →
  NewRecord typ ID = None.
Proof.
  unfold NewRecord, strings_Fields. intros [H|H].
  - by rewrite (Fields_all_space [] typ H).
  - rewrite (Fields_all_space [] ID H). simpl.
    by case_bool_decide.
Qed.

Lemma strings_Index_app l c t :
  c ∉ l → strings_Index (l ++ c :: t) c = Z.of_nat (length l).
Proof.
  induction l as [|x l IH]; intros Hl; simpl.
  - by rewrite Z.eqb_refl.
  - destruct (Z.eqb_spec x c) as [->|Hx]; [exfalso; apply Hl; by left|].
    rewrite IH by (intros ?; apply Hl; by right).
    destruct (Z.ltb_spec (Z.of_nat (length l)) 0); lia.
Qed.

Lemma slice_app l c t :
  slice_to (l ++ c :: t) (Z.of_nat (length l)) = l ∧
  slice_from (l ++ c :: t) (Z.of_nat (length l) + 1) = t.
Proof.
  unfold slice_to, slice_from. split.
  - rewrite Nat2Z.id. by rewrite take_app_length.
  - replace (Z.to_nat (Z.of_nat (length l) + 1)) with (length l + 1)%nat by lia.
    rewrite <- drop_drop, drop_app_length. done.
Qed.

(** A header-like line with an empty type or an empty ID opens no record. *)
Lemma header_of_malformed line typ ID :
  strings_TrimSpace line = ch_AT :: typ ++ ch_EQUAL :: ID →
  ch_EQUAL ∉ typ →
  forallb unicode_IsSpace typ = true ∨ forallb unicode_IsSpace ID = true →
  header_of line = None.
Proof.
  intros Hline Heq Hblank. unfold header_of. rewrite Hline. simpl.
  rewrite (strings_Index_app typ ch_EQUAL ID Heq).
  destruct (slice_app typ ch_EQUAL ID) as [-> ->].
  destruct (Z.ltb_spec (Z.of_nat (length typ)) 1); [done|].
  by apply NewRecord_blank.
Qed.

Lemma parseRecord_skip_line line rest s :
  pending s = line ++ ch_LF :: rest → ch_LF ∉ line →
  header_of (line ++ [ch_LF]) = None →
  parseRecord s =
  parseRecord (set_r (incr_line s) (mkReader rest None (rd_err (s_r s)))).
Proof.
  intros Hp Hline Hh. unfold parseRecord at 1.
  rewrite parseRecord_header_unfold. cbv zeta.
  unfold bufio_ReadString. cbn [s_r incr_line set_line].
  fold (pending s). rewrite Hp, (split_line_app line rest Hline), Hh.
  done.
Qed.

(** On a stream that ends with [io.EOF], no [Scan] sets the error. *)
Lemma Scan_EOF_keeps_err s ok s' :
  s_err s = None → errors_Cause (rd_err (s_r s)) = io_EOF →
  Scanner_Scan s = (ok, s') → Scanner_Err s' = None.
Proof.
  intros Herr Heof. unfold Scanner_Scan, Scanner_Err.
  destruct (s_closed s); [by intros [= <- <-]|].
  generalize (fuel_of s). intros n. revert s Herr Heof.
  induction n as [|n IH]; intros s Herr Heof; simpl; [by intros [= <- <-]|].
  destruct (parseRecord s) as [[res err] s1] eqn:E.
  destruct (parseRecord_inv _ _ _ _ E) as (Hf & Hc). destruct Hf as (Hrd & _ & Herr1 & _).
  destruct err as [e|].
  { destruct res; [done|]. cbv zeta. rewrite Hc, Heof. simpl. intros [= <- <-].
    simpl. congruence. }
  destruct res as [rec|]; [|intros [= <- <-]; congruence].
  case_bool_decide.
  + apply IH; congruence.
  + intros [= <- <-]. simpl. congruence.
Qed.

(** C4.  A header-like line whose type is empty, or whose ID is empty once
    trimmed, is passed over like any line that is not a header, and [Scan]
    goes on with the next line; and when the stream ends (with [io.EOF])
    while a header is sought, [Scan] returns false and [Err] stays nil. *)
Theorem malformed_header_and_end_of_data (s : Scanner) :
  (∀ line rest typ ID,
     s_closed s = false →
     pending s = line ++ ch_LF :: rest → ch_LF ∉ line →
     strings_TrimSpace (line ++ [ch_LF]) = ch_AT :: typ ++ ch_EQUAL :: ID →
     ch_EQUAL ∉ typ →
     forallb unicode_IsSpace typ = true ∨ forallb unicode_IsSpace ID = true →
     Scanner_Scan s =
     Scanner_Scan (set_r (incr_line s) (mkReader rest None (rd_err (s_r s))))) ∧
  (∀ e s1,
     s_closed s = false → s_err s = None →
     errors_Cause (rd_err (s_r s)) = io_EOF →
     parseRecord s = (None, Some e, s1) →
     ∃ s', Scanner_Scan s = (false, s') ∧ Scanner_Err s' = None ∧
           s_rec s' = s_rec s ∧ s_closed s' = true) ∧
  (∀ ok s',
     s_err s = None → errors_Cause (rd_err (s_r s)) = io_EOF →
     Scanner_Scan s = (ok, s') → Scanner_Err s' = None).
Proof.
  split_and!.
  - intros line rest typ ID Hcl Hp Hline Htrim Heq Hblank.
    pose proof (header_of_malformed _ _ _ Htrim Heq Hblank) as Hh.
    unfold Scanner_Scan. cbn [s_closed set_r incr_line set_line]. rewrite Hcl.
    rewrite !Scan_loop_unfold.
    by rewrite (parseRecord_skip_line line rest s Hp Hline Hh).
  - intros e s1 Hcl Herr Heof Hp.
    destruct (parseRecord_inv _ _ _ _ Hp) as (Hf & Hc). destruct Hf as (_ & _ & Herr1 & Hrec1).
    unfold Scanner_Scan. rewrite Hcl, Scan_loop_unfold, Hp. cbv zeta.
    rewrite Hc, Heof. simpl. eexists. split; [done|].
    unfold Scanner_Err. simpl. by rewrite Herr1, Hrec1.
  - intros ok s' Herr Heof. by apply Scan_EOF_keeps_err.
Qed.
(** ** writeField *)

(** C9 (as the code has it).  A value without newline is written on one
    line, unquoted: a tab, the key, a colon, then a tab when the key is
    shorter than 6 bytes and a space otherwise, the value and a newline. *)
Theorem writeField_single_line (key value : list rune) (w : Writer) :
  w_err w = None →
  strings_Contains value ch_LF = false →
  writeField key value w =
  (None, mkWriter (w_out w ++ [ch_TAB] ++ key ++
                   [ch_COLON; if len key <? 6 then ch_TAB else ch_SP] ++
                   value ++ [ch_LF]) None).
Proof.
  intros Hw Hv. unfold writeField. rewrite Hv.
  destruct (len key <? 6); by rewrite bufio_WriteString_ok.
Qed.

(** ** Fields with an empty value *)

Lemma fields_from_solid cur s :
  Forall solid s →
  fields_from cur s = match cur, s with [], [] => [] | _, _ => [rev cur ++ s] end.
Proof.
  intros Hs. revert cur. induction Hs as [|c s Hc _ IH]; intros cur; simpl.
  { destruct cur; [done|]. by rewrite app_nil_r. }
  unfold solid in Hc. rewrite Hc, IH. simpl. rewrite <- app_assoc. simpl.
  by destruct cur.
Qed.

Lemma Fields_solid s : Forall solid s → s ≠ [] → strings_Fields s = [s].
Proof.
  intros Hs Hne. unfold strings_Fields. rewrite fields_from_solid by done.
  by destruct s.
Qed.

Lemma plain_key_solid k : plain_key k → Forall solid k ∧ k ≠ [].
Proof.
  intros [Hk Hhd]. split; [|by destruct k].
  eapply Forall_impl; [exact Hk|]. by intros c [? _].
Qed.

Lemma normKey_solid k : Forall solid k → k ≠ [] → normKey k = strings_ToLower k.
Proof. intros Hs Hne. unfold normKey. by rewrite Fields_solid. Qed.

Lemma normKey_plain_nonempty k : plain_key k → normKey k ≠ [].
Proof.
  intros [Hs Hne]%plain_key_solid. rewrite normKey_solid by done.
  unfold strings_ToLower. by destruct k.
Qed.

Lemma Record_Set_empty_value key r :
  normKey key ≠ [] →
  rec_data (Record_Set key [] r) = delete (normKey key) (rec_data r).
Proof.
  intros Hk. unfold Record_Set. fold (normKey key).
  rewrite bool_decide_eq_false_2 by done. done.
Qed.

(** C3 (as the code has it).  A field whose value is empty, blanks up to the
    end of the line, makes [parseValue] return the empty string without an
    error; [parseRecord] hands it to [Set], which deletes the key.  The key
    is then absent from the record, whatever value it had before; in
    particular when the line is the last of the stream. *)
Theorem empty_value_deletes_key (ws key sp rest : list rune) (rec : Record_)
    (s : Scanner) :
  Forall (λ c, unicode_IsSpace c = true ∧ c ≠ ch_CR) ws →
  plain_key key →
  Forall blank sp →
  pending s = ws ++ key ++ ch_COLON :: sp ++ ch_LF :: rest →
  let rec' := Record_Set key [] rec in
  Record_Get key rec' = [] ∧ (normKey key ∉ Record_Keys rec') ∧
  (∃ s1, moved s s1 rest (count_LF ws + 1) ∧
         parseRecord_fields (fuel_of s) rec s =
         parseRecord_fields (fuel_of s1) rec' s1) ∧
  (Forall (λ c, unicode_IsSpace c = true ∧ c ≠ ch_CR) rest →
   ∃ s2, parseRecord_fields (fuel_of s) rec s = (rec', s2)).
Proof.
  intros Hws Hkey Hsp Hp rec'.
  pose proof (normKey_plain_nonempty key Hkey) as Hnk.
  assert (rec_data rec' !! normKey key = None) as Hlk.
  { unfold rec'. rewrite Record_Set_empty_value by done. apply lookup_delete_eq. }
  destruct (parseKey_plain ws key _ s Hws Hkey Hp) as (s1 & E1 & Hm1).
  destruct (parseValue_empty sp rest s1 Hsp (proj1 Hm1)) as (s2 & E2 & Hm2).
  assert (parseRecord_fields (fuel_of s) rec s =
          parseRecord_fields (fuel_of s2) rec' s2) as Hstep.
  { by eapply parseRecord_fields_set. }
  split_and!.
  - by rewrite Record_Get_lookup, Hlk.
  - rewrite elem_of_Record_Keys, Hlk. by intros [? ?].
  - exists s2. split; [|done].
    by eapply moved_trans.
  - intros Hrest. destruct (parseKey_end rest s2 Hrest (proj1 Hm2)) as (k & d & e & s3 & E3).
    exists s3. rewrite Hstep. by eapply parseRecord_fields_key_err.
Qed.
(** ** Quoted values that the stream cuts short *)




(** ** Words and white space between quotation marks *)

Lemma quoteValue_loop_ordinary a t s :
  Forall ordinary a → pending s = a ++ t →
  ∃ s1, pending s1 = t ∧ same_frame s s1 ∧ s_b s1 = s_b s ++ a ∧
        quoteValue_loop (fuel_of s) false false false s =
        quoteValue_loop (fuel_of s1) false false false s1.
Proof.
  intros Ha. revert s. induction Ha as [|c a (Hc & Hq & Hb) _ IH]; intros s Hp.
  { exists s. split; [done|]. split; [apply same_frame_refl|]. by rewrite app_nil_r. }
  destruct (quoteValue_loop_solid false false false c (a ++ t) s Hc Hq Hb Hp)
    as (s1 & (Hp1 & Hf1 & _) & Hb1 & E1).
  destruct (IH s1 Hp1) as (s2 & Hp2 & Hf2 & Hb2 & E2).
  exists s2. split; [done|]. split; [by eapply same_frame_trans|].
  split; [|by rewrite E1]. rewrite Hb2, Hb1. simpl. by rewrite <- app_assoc.
Qed.

Lemma quoteValue_loop_word first space line a t s :
  Forall ordinary a → a ≠ [] → pending s = a ++ t →
  ∃ s1, pending s1 = t ∧ same_frame s s1 ∧
        s_b s1 = s_b s ++ pending_sep space line ++ a ∧
        quoteValue_loop (fuel_of s) first space line s =
        quoteValue_loop (fuel_of s1) false false false s1.
Proof.
  intros Ha Hne Hp. destruct a as [|c a]; [done|].
  pose proof (Forall_inv Ha) as (Hc & Hq & Hb).
  pose proof (Forall_inv_tail Ha) as Ha'.
  destruct (quoteValue_loop_solid first space line c (a ++ t) s Hc Hq Hb Hp)
    as (s1 & (Hp1 & Hf1 & _) & Hb1 & E1).
  destruct (quoteValue_loop_ordinary a t s1 Ha' Hp1) as (s2 & Hp2 & Hf2 & Hb2 & E2).
  exists s2. split; [done|]. split; [by eapply same_frame_trans|].
  split; [|by rewrite E1]. rewrite Hb2, Hb1. by rewrite <- !app_assoc.
Qed.

(** Blanks after a word: one space becomes pending. *)
Lemma quoteValue_loop_blanks space ws t s :
  Forall blank ws → pending s = ws ++ t →
  ∃ s1, pending s1 = t ∧ same_frame s s1 ∧ s_b s1 = s_b s ∧
        quoteValue_loop (fuel_of s) false space false s =
        quoteValue_loop (fuel_of s1) false
          (match ws with [] => space | _ => true end) false s1.
Proof.
  intros Hws. revert space s. induction Hws as [|c ws Hc _ IH]; intros space s Hp.
  { exists s. split; [done|]. split; [apply same_frame_refl | done]. }
  destruct (quoteValue_loop_blank false space false c (ws ++ t) s Hc Hp)
    as (s1 & (Hp1 & Hf1 & _) & Hb1 & E1).
  destruct (IH true s1 Hp1) as (s2 & Hp2 & Hf2 & Hb2 & E2).
  exists s2. split; [done|]. split; [by eapply same_frame_trans|].
  split; [congruence|]. cbn [negb andb] in E1. rewrite E1, E2. by destruct ws.
Qed.

(** After a newline, white space changes nothing: the paragraph break stays
    pending. *)
Lemma quoteValue_loop_after_LF ws t s :
  Forall (λ c, unicode_IsSpace c = true ∧ c ≠ ch_CR) ws → pending s = ws ++ t →
  ∃ s1, pending s1 = t ∧ same_frame s s1 ∧ s_b s1 = s_b s ∧
        quoteValue_loop (fuel_of s) false false true s =
        quoteValue_loop (fuel_of s1) false false true s1.
Proof.
  intros Hws. revert s. induction Hws as [|c ws [Hc HCR] _ IH]; intros s Hp.
  { exists s. split; [done|]. split; [apply same_frame_refl | done]. }
  destruct (decide (c = ch_LF)) as [->|HLF].
  - destruct (quoteValue_loop_LF false false true (ws ++ t) s Hp)
      as (s1 & (Hp1 & Hf1 & _) & Hb1 & E1).
    destruct (IH s1 Hp1) as (s2 & Hp2 & Hf2 & Hb2 & E2).
    exists s2. split; [done|]. split; [by eapply same_frame_trans|].
    split; [congruence|]. by rewrite E1, E2.
  - destruct (quoteValue_loop_blank false false true c (ws ++ t) s) as
      (s1 & (Hp1 & Hf1 & _) & Hb1 & E1); [done..|].
    destruct (IH s1 Hp1) as (s2 & Hp2 & Hf2 & Hb2 & E2).
    exists s2. split; [done|]. split; [by eapply same_frame_trans|].
    split; [congruence|]. cbn [negb andb] in E1. by rewrite E1, E2.
Qed.

Lemma escaped_ordinary c : ordinary c → escaped c = [c].
Proof.
  intros (_ & Hq & Hb). unfold escaped.
  destruct (Z.eqb_spec c ch_QUOTE); [done|]. by destruct (Z.eqb_spec c ch_BACKSLASH).
Qed.

Lemma quoted_text_ordinary a v :
  Forall ordinary a →
  quoted_text (a ++ v) false false false = a ++ quoted_text v false false false.
Proof.
  induction 1 as [|c a Hc _ IH]; [done|]. simpl.
  pose proof Hc as (Hs & _). destruct (solid_neq c Hs) as (HLF & _).
  rewrite quoted_text_solid by done. rewrite (escaped_ordinary c Hc), IH. done.
Qed.

Lemma quoted_text_word a v first space line :
  Forall ordinary a → a ≠ [] →
  quoted_text (a ++ v) first space line =
  (if line then [ch_LF; ch_TAB; ch_TAB] else if space then [ch_SP] else [])
    ++ a ++ quoted_text v false false false.
Proof.
  intros Ha Hne. destruct a as [|c a]; [done|]. simpl.
  pose proof (Forall_inv Ha) as Hc. pose proof Hc as (Hs & _).
  destruct (solid_neq c Hs) as (HLF & _).
  rewrite quoted_text_solid by done.
  rewrite (escaped_ordinary c Hc), (quoted_text_ordinary a v (Forall_inv_tail Ha)).
  done.
Qed.
Lemma writeQuoted_ok key value w :
  w_err w = None →
  writeQuoted key value w =
  (None, mkWriter (w_out w ++ [ch_TAB] ++ key ++
                   [ch_COLON; if len key <? 6 then ch_TAB else ch_SP; ch_QUOTE] ++
                   quoted_text value true false false ++ [ch_QUOTE; ch_LF]) None).
Proof.
  intros Hw. unfold writeQuoted.
  destruct (len key <? 6); rewrite bufio_WriteString_ok by done;
    rewrite writeQuoted_loop_ok by done; rewrite bufio_WriteString_ok by done;
    cbn [w_out]; by rewrite <- !app_assoc.
Qed.

(** C2 (as the code has it).  Between two words of a quoted value, white
    space without a newline is read as one space, and white space with a
    newline in it, be it a single newline with its indentation or a blank
    line, is read as one newline.  A newline of a value is written as a
    line break followed by two tabs (no blank line), and the text
    [writeQuoted] writes for any value is read back as that value with its
    white space collapsed in the same way. *)
Theorem quoted_value_line_breaks (a b : list rune) :
  Forall ordinary a → a ≠ [] → Forall ordinary b → b ≠ [] →
  (∀ ws rest s,
     Forall blank ws → ws ≠ [] →
     pending s = a ++ ws ++ b ++ ch_QUOTE :: rest →
     ∃ s', quoteValue s = (a ++ [ch_SP] ++ b, None, s') ∧ pending s' = rest) ∧
  (∀ ws1 ws2 rest s,
     Forall blank ws1 → Forall (λ c, unicode_IsSpace c = true ∧ c ≠ ch_CR) ws2 →
     pending s = a ++ ws1 ++ ch_LF :: ws2 ++ b ++ ch_QUOTE :: rest →
     ∃ s', quoteValue s = (a ++ [ch_LF] ++ b, None, s') ∧ pending s' = rest) ∧
  (∀ key w,
     w_err w = None →
     writeQuoted key (a ++ [ch_LF] ++ b) w =
     (None, mkWriter (w_out w ++ [ch_TAB] ++ key ++
                      [ch_COLON; if len key <? 6 then ch_TAB else ch_SP; ch_QUOTE] ++
                      a ++ [ch_LF; ch_TAB; ch_TAB] ++ b ++ [ch_QUOTE; ch_LF]) None)) ∧
  (∀ v rest s,
     pending s = quoted_text v true false false ++ ch_QUOTE :: rest →
     ∃ s', quoteValue s = (collapse v, None, s') ∧ pending s' = rest).
Proof.
  intros Ha Hane Hb Hbne. split_and!.
  - intros ws rest s Hws Hwne Hp. unfold quoteValue.
    destruct (quoteValue_loop_word true false false a _ (b_Reset s) Ha Hane Hp)
      as (s1 & Hp1 & _ & Hb1 & E1).
    destruct (quoteValue_loop_blanks false ws _ s1 Hws Hp1) as (s2 & Hp2 & _ & Hb2 & E2).
    destruct (quoteValue_loop_word false true false b _ s2 Hb Hbne Hp2)
      as (s3 & Hp3 & _ & Hb3 & E3).
    destruct (quoteValue_loop_quote false false false rest s3 Hp3) as (s4 & (Hp4 & _) & E4).
    exists s4. split; [|done]. rewrite E1, E2. destruct ws; [done|].
    rewrite E3, E4, Hb3, Hb2, Hb1. done.
  - intros ws1 ws2 rest s Hws1 Hws2 Hp. unfold quoteValue.
    destruct (quoteValue_loop_word true false false a _ (b_Reset s) Ha Hane Hp)
      as (s1 & Hp1 & _ & Hb1 & E1).
    destruct (quoteValue_loop_blanks false ws1 _ s1 Hws1 Hp1) as (s2 & Hp2 & _ & Hb2 & E2).
    destruct (quoteValue_loop_LF false (match ws1 with [] => false | _ => true end)
                false _ s2 Hp2) as (s3 & (Hp3 & _) & Hb3 & E3).
    destruct (quoteValue_loop_after_LF ws2 _ s3 Hws2 Hp3) as (s4 & Hp4 & _ & Hb4 & E4).
    destruct (quoteValue_loop_word false false true b _ s4 Hb Hbne Hp4)
      as (s5 & Hp5 & _ & Hb5 & E5).
    destruct (quoteValue_loop_quote false false false rest s5 Hp5) as (s6 & (Hp6 & _) & E6).
    exists s6. split; [|done].
    rewrite E1, E2, E3, E4, E5, E6, Hb5, Hb4, Hb3, Hb2, Hb1. done.
  - intros key w Hw. rewrite writeQuoted_ok by done.
    rewrite (quoted_text_word a) by done. simpl app at 3.
    rewrite quoted_text_LF. replace b with (b ++ []) at 1 by apply app_nil_r.
    rewrite (quoted_text_word b) by done. rewrite quoted_text_nil, app_nil_r.
    by rewrite <- !app_assoc.
  - intros v rest s Hp.
    destruct (quoteValue_quoted_text v rest s Hp) as (s' & E & Hp' & _). by exists s'.
Qed.
(** ** Normal forms of strings *)

Lemma trimLeft_app_space a b :
  forallb unicode_IsSpace a = true → trimLeft (a ++ b) = trimLeft b.
Proof.
  induction a as [|c a IH]; simpl; [done|].
  destruct (unicode_IsSpace c); simpl; [exact IH | done].
Qed.

Lemma trimLeft_solid c t : solid c → trimLeft (c :: t) = c :: t.
Proof. unfold solid. simpl. by intros ->. Qed.

Lemma TrimSpace_trimmed_app v ws :
  trimmed v → forallb unicode_IsSpace ws = true → strings_TrimSpace (v ++ ws) = v.
Proof.
  intros [(c & t & -> & Hc) (t' & c' & Hv & Hc')] Hws. unfold strings_TrimSpace.
  change ((c :: t) ++ ws) with (c :: (t ++ ws)). rewrite trimLeft_solid by done.
  change (c :: (t ++ ws)) with ((c :: t) ++ ws). rewrite Hv.
  rewrite !rev_app_distr. rewrite trimLeft_app_space.
  2:{ rewrite forallb_forall. intros x Hx%in_rev. revert x Hx.
      by rewrite <- forallb_forall. }
  change (rev [c'] ++ rev t') with (c' :: rev t'). rewrite trimLeft_solid by done.
  change (c' :: rev t') with ([c'] ++ rev t'). rewrite rev_app_distr.
  by rewrite rev_involutive.
Qed.

Lemma TrimSpace_trimmed v : trimmed v → strings_TrimSpace v = v.
Proof.
  intros Hv. rewrite <- (app_nil_r v) at 1. by apply TrimSpace_trimmed_app.
Qed.

Lemma trimLeft_spec s :
  ∃ p, s = p ++ trimLeft s ∧
       match trimLeft s with [] => True | c :: _ => solid c end.
Proof.
  induction s as [|c s (p & Hp & Hh)]; [by exists []|]. simpl.
  destruct (unicode_IsSpace c) eqn:Hc.
  - exists (c :: p). simpl. split; [by rewrite <- Hp | done].
  - by exists [].
Qed.

Lemma TrimSpace_fixed_trimmed v :
  v ≠ [] → strings_TrimSpace v = v → trimmed v.
Proof.
  intros Hne Hfix. unfold strings_TrimSpace in Hfix.
  destruct (trimLeft_spec v) as (p & Hp & Hh).
  destruct (trimLeft_spec (rev (trimLeft v))) as (q & Hq & Hh').
  set (u := trimLeft v) in *. set (w := trimLeft (rev u)) in *.
  assert (length u = (length p + length u + length q)%nat) as Hlen.
  { rewrite <- (length_rev u) at 1. rewrite Hq, length_app.
    rewrite <- (length_rev w), Hfix, Hp, length_app. lia. }
  assert (p = [] ∧ q = []) as [-> ->].
  { split; apply length_zero_iff_nil; lia. }
  simpl in Hp, Hq. split.
  - rewrite Hp. destruct u as [|c t]; [by rewrite Hp in Hne|]. by exists c, t.
  - rewrite <- Hfix. destruct w as [|c t] eqn:Hw.
    { simpl in Hfix. congruence. }
    by exists (rev t), c.
Qed.

Lemma strings_Contains_false v c :
  strings_Contains v c = false → c ∉ v.
Proof.
  unfold strings_Contains. induction v as [|x v IH]; simpl.
  { intros _. by intros ?%elem_of_nil. }
  destruct (Z.eqb_spec x c); [done|]. simpl. intros H.
  intros [?|?]%elem_of_cons; [congruence | by apply IH].
Qed.

(** *** Fields and Join *)

Lemma fields_from_wf cur s :
  Forall solid cur →
  Forall (λ f, f ≠ [] ∧ Forall solid f) (fields_from cur s).
Proof.
  revert cur. induction s as [|c s IH]; intros cur Hcur; simpl.
  { destruct cur as [|x cur]; [done|]. constructor; [|done].
    split; [intros H%(f_equal length); rewrite length_rev in H; done|].
    by apply Forall_rev. }
  destruct (unicode_IsSpace c) eqn:Hc.
  - destruct cur as [|x cur]; [by apply IH|]. constructor; [|by apply IH].
    split; [intros H%(f_equal length); rewrite length_rev in H; done|].
    by apply Forall_rev.
  - apply IH. by constructor.
Qed.

Lemma Join_SP_shape fs :
  Forall (λ f, f ≠ [] ∧ Forall solid f) fs →
  Forall (λ c, solid c ∨ c = ch_SP) (strings_Join fs [ch_SP]) ∧
  (fs ≠ [] → trimmed (strings_Join fs [ch_SP])).
Proof.
  induction 1 as [|f fs [Hne Hf] Hfs [IH1 IH2]]; [done|].
  assert (trimmed f) as Hft.
  { split.
    - destruct f as [|c t]; [done|]. exists c, t. split; [done|]. by apply Forall_inv in Hf.
    - destruct (rev f) as [|c t] eqn:Hr.
      { apply (f_equal (@rev _)) in Hr. rewrite rev_involutive in Hr. done. }
      exists (rev t), c. split.
      + apply (f_equal (@rev _)) in Hr. by rewrite rev_involutive in Hr.
      + apply Forall_rev in Hf. rewrite Hr in Hf. by apply Forall_inv in Hf. }
  assert (Forall (λ c, solid c ∨ c = ch_SP) f) as Hf'.
  { eapply Forall_impl; [exact Hf|]. by left. }
  destruct fs as [|g fs]; simpl; [done|].
  split.
  - apply Forall_app. split; [done|]. constructor; [by right|]. exact IH1.
  - intros _. destruct Hft as [(c & t & -> & Hc) _].
    destruct IH2 as [_ (t' & c' & Ht' & Hc')]; [done|]. split.
    + by exists c, (t ++ ch_SP :: strings_Join (g :: fs) [ch_SP]).
    + exists ((c :: t) ++ ch_SP :: t'), c'. split; [|done].
      simpl in *. rewrite Ht'. by rewrite <- !app_assoc.
Qed.

(** The normal form of an ID: the words of the ID one space apart. *)
Lemma normal_ID_shape ID :
  ID ≠ [] → strings_Join (strings_Fields ID) [ch_SP] = ID →
  (ch_LF ∉ ID) ∧ trimmed ID.
Proof.
  intros Hne Hfix.
  destruct (Join_SP_shape (strings_Fields ID)) as [H1 H2].
  { apply fields_from_wf. constructor. }
  rewrite Hfix in H1, H2. split.
  - intros Hin. rewrite Forall_forall in H1. by destruct (H1 _ Hin) as [?|?].
  - apply H2. intros H0. rewrite H0 in Hfix. simpl in Hfix. congruence.
Qed.

Lemma normKey_normal k : normal_name k → normKey k = k.
Proof. intros (Hne & Hs & Hl). by rewrite normKey_solid. Qed.

Lemma NewRecord_normal typ ID :
  normal_name typ → ID ≠ [] → strings_Join (strings_Fields ID) [ch_SP] = ID →
  NewRecord typ ID = Some (mkRecord ID typ ∅).
Proof.
  intros Ht Hne Hid. pose proof (normKey_normal typ Ht) as Hn.
  unfold normKey in Hn. unfold NewRecord. rewrite Hn, Hid.
  destruct Ht as (Htne & _). by rewrite !bool_decide_eq_false_2.
Qed.
(** ** What Write writes *)

Lemma writeField_ok key value w :
  w_err w = None →
  writeField key value w = (None, mkWriter (w_out w ++ field_text key value) None).
Proof.
  intros Hw. unfold field_text, writeField.
  destruct (strings_Contains value ch_LF).
  - by rewrite !writeQuoted_ok.
  - destruct (len key <? 6); by rewrite !bufio_WriteString_ok.
Qed.

Lemma field_text_line key value :
  strings_Contains value ch_LF = false →
  field_text key value =
  [ch_TAB] ++ key ++ ch_COLON :: [if len key <? 6 then ch_TAB else ch_SP] ++
  value ++ [ch_LF].
Proof.
  intros Hv. unfold field_text, writeField. rewrite Hv.
  destruct (len key <? 6); by rewrite bufio_WriteString_ok.
Qed.

Lemma field_text_quoted key value :
  strings_Contains value ch_LF = true →
  field_text key value =
  [ch_TAB] ++ key ++ ch_COLON :: [if len key <? 6 then ch_TAB else ch_SP] ++
  ch_QUOTE :: quoted_text value true false false ++ [ch_QUOTE; ch_LF].
Proof.
  intros Hv. unfold field_text, writeField. rewrite Hv.
  by rewrite writeQuoted_ok.
Qed.

Lemma Write_fields_ok keys rec w :
  w_err w = None →
  Write_fields keys rec w = (None, mkWriter (w_out w ++ fields_text keys rec) None).
Proof.
  revert w. induction keys as [|key keys IH]; intros w Hw; simpl.
  { rewrite app_nil_r. by destruct w; simpl in *; subst. }
  case_bool_decide; [by rewrite IH|].
  rewrite writeField_ok by done. rewrite IH by done. simpl.
  by rewrite <- app_assoc.
Qed.

Lemma Writer_Write_ok rec w :
  w_err w = None → Record_Keys rec ≠ [] → rec_id rec ≠ [] → rec_typ rec ≠ [] →
  Writer_Write rec w =
  (None, mkWriter (w_out w ++ [ch_AT] ++ rec_typ rec ++ [ch_EQUAL] ++ rec_id rec ++
                   [ch_LF] ++ fields_text (Record_Keys rec) rec) None).
Proof.
  intros Hw Hk Hid Htyp. unfold Writer_Write, Record_ID, Record_Type.
  rewrite bool_decide_eq_false_2 by (by destruct (Record_Keys rec)).
  rewrite !bool_decide_eq_false_2 by done. cbn [orb].
  rewrite bufio_WriteString_ok by done. rewrite Write_fields_ok by done.
  cbn [w_out]. by rewrite <- !app_assoc.
Qed.

(** ** Reading a header back *)

Lemma parseRecord_header_line typ ID rest s :
  normal_name typ → ch_EQUAL ∉ typ →
  ID ≠ [] → strings_Join (strings_Fields ID) [ch_SP] = ID →
  pending s = [ch_AT] ++ typ ++ [ch_EQUAL] ++ ID ++ ch_LF :: rest →
  ∃ s', parseRecord_header (fuel_of s) s = (inl (mkRecord ID typ ∅), s') ∧
        pending s' = rest ∧ same_frame s s'.
Proof.
  intros Htyp Heq Hne Hid Hp.
  destruct (normal_ID_shape ID Hne Hid) as [HLF Htrim].
  pose proof Htyp as (Htne & Hts & _).
  set (line := [ch_AT] ++ typ ++ [ch_EQUAL] ++ ID).
  assert (ch_LF ∉ line) as Hline.
  { unfold line. rewrite !not_elem_of_app. split_and!; try done.
    - by intros [=]%list_elem_of_singleton.
    - intros Hin. rewrite Forall_forall in Hts. by specialize (Hts _ Hin).
    - by intros [=]%list_elem_of_singleton. }
  assert (trimmed line) as Hlt.
  { split; [by exists ch_AT, (typ ++ [ch_EQUAL] ++ ID)|].
    destruct Htrim as [_ (t & c & -> & Hc)].
    exists ([ch_AT] ++ typ ++ [ch_EQUAL] ++ t), c. split; [|done].
    unfold line. by rewrite <- !app_assoc. }
  assert (header_of (line ++ [ch_LF]) = Some (mkRecord ID typ ∅)) as Hh.
  { unfold header_of. rewrite (TrimSpace_trimmed_app line [ch_LF] Hlt eq_refl).
    unfold line. simpl.
    rewrite (strings_Index_app typ ch_EQUAL ID Heq).
    destruct (slice_app typ ch_EQUAL ID) as [-> ->].
    destruct (Z.ltb_spec (Z.of_nat (length typ)) 1) as [Hl|_].
    { destruct typ; [done | simpl in Hl; lia]. }
    by apply NewRecord_normal. }
  rewrite parseRecord_header_unfold. cbv zeta.
  unfold bufio_ReadString. cbn [s_r incr_line set_line]. fold (pending s).
  replace (pending s) with (line ++ ch_LF :: rest).
  2:{ rewrite Hp. unfold line. by rewrite <- !app_assoc. }
  rewrite (split_line_app line rest Hline), Hh.
  eexists. split; [done|]. split; [done|]. by repeat split.
Qed.
(** ** Reading the fields back *)

Lemma scannable_key_plain k : scannable_key k → plain_key k.
Proof.
  intros ((Hne & Hs & _) & Hc & Hsh & Hat). split.
  - rewrite Forall_forall in Hs. apply Forall_forall. intros c Hin.
    split; [by apply Hs|]. by intros ->.
  - destruct k as [|c k]; [done|]. simpl in *. split; congruence.
Qed.

Lemma Record_Set_ext key v1 v2 r :
  strings_TrimSpace v1 = strings_TrimSpace v2 →
  Record_Set key v1 r = Record_Set key v2 r.
Proof. unfold Record_Set. by intros ->. Qed.

Lemma collapse_loop_last v first space line :
  collapse_loop v first space line = [] ∨
  ∃ t c, collapse_loop v first space line = t ++ [c] ∧ solid c.
Proof.
  revert first space line. induction v as [|c v IH]; intros first space line; simpl.
  { by left. }
  destruct (c =? ch_LF); [destruct (negb first); apply IH|].
  destruct (unicode_IsSpace c) eqn:Hc; [apply IH|]. right.
  destruct (IH false false false) as [->|(t & c' & -> & Hc')].
  - by exists (if line then [ch_LF] else if space then [ch_SP] else []), c.
  - exists ((if line then [ch_LF] else if space then [ch_SP] else []) ++ c :: t), c'.
    split; [|done]. by rewrite <- app_assoc.
Qed.

Lemma collapse_trimmed v : trimmed v → trimmed (collapse v).
Proof.
  intros [(c & t & -> & Hc) _]. unfold collapse. simpl.
  destruct (solid_neq c Hc) as (HLF & _).
  destruct (Z.eqb_spec c ch_LF); [done|]. unfold solid in Hc. rewrite Hc. simpl.
  split; [by exists c, (collapse_loop t false false false)|].
  destruct (collapse_loop_last t false false false) as [->|(t' & c' & -> & Hc')].
  - by exists [], c.
  - by exists (c :: t'), c'.
Qed.

Lemma scannable_value_read_back v :
  scannable_value v → trimmed v ∧ trimmed (read_back v).
Proof.
  intros (Hne & Hfix & _). pose proof (TrimSpace_fixed_trimmed v Hne Hfix) as Ht.
  split; [done|]. unfold read_back. destruct (strings_Contains v ch_LF); [|done].
  by apply collapse_trimmed.
Qed.

Ltac list_assoc := repeat (progress (rewrite <- ?app_assoc; cbn [app])).

(** One field, as [writeField] wrote it, is read and set. *)
Lemma field_roundtrip key v pre rest acc s :
  Forall (λ c, unicode_IsSpace c = true ∧ c ≠ ch_CR) pre →
  scannable_key key → scannable_value v →
  pending s = pre ++ field_text key v ++ rest →
  ∃ pre' s', Forall (λ c, unicode_IsSpace c = true ∧ c ≠ ch_CR) pre' ∧
             pending s' = pre' ++ rest ∧ same_frame s s' ∧
             parseRecord_fields (fuel_of s) acc s =
             parseRecord_fields (fuel_of s') (Record_Set key (read_back v) acc) s'.
Proof.
  intros Hpre Hkey Hval Hp. pose proof (scannable_key_plain key Hkey) as Hplain.
  destruct (scannable_value_read_back v Hval) as [Htrim _].
  destruct Hval as (Hne & Hfix & Hq).
  set (sepc := if len key <? 6 then ch_TAB else ch_SP) in *.
  assert (blank sepc) as Hsep.
  { unfold sepc. destruct (len key <? 6); by repeat split. }
  assert (Forall (λ c, unicode_IsSpace c = true ∧ c ≠ ch_CR) (pre ++ [ch_TAB])) as Hpre'.
  { apply Forall_app. split; [done|]. by repeat constructor. }
  unfold read_back. destruct (strings_Contains v ch_LF) eqn:Hc.
  - rewrite field_text_quoted in Hp by done. fold sepc in Hp.
    assert (pending s = (pre ++ [ch_TAB]) ++ key ++ ch_COLON ::
              [sepc] ++ ch_QUOTE :: quoted_text v true false false ++
              ch_QUOTE :: ch_LF :: rest) as Hp'.
    { rewrite Hp. by list_assoc. }
    destruct (parseKey_plain _ key _ s Hpre' Hplain Hp') as (s1 & E1 & Hp1 & Hf1 & _).
    destruct (parseValue_quote [sepc] (quoted_text v true false false ++ ch_QUOTE :: ch_LF :: rest) s1)
      as (s2 & (Hp2 & Hf2 & _) & E2); [by constructor | exact Hp1 |].
    destruct (quoteValue_quoted_text v _ s2 Hp2) as (s3 & E3 & Hp3 & Hf3).
    rewrite E3 in E2.
    exists [ch_LF], s3. split; [by repeat constructor|]. split; [done|].
    split; [eapply same_frame_trans; [exact Hf1|]; by eapply same_frame_trans|].
    by eapply parseRecord_fields_set.
  - rewrite field_text_line in Hp by done. fold sepc in Hp.
    destruct Htrim as [(c & t & -> & Hcs) Hlast].
    assert (pending s = (pre ++ [ch_TAB]) ++ key ++ ch_COLON ::
              [sepc] ++ (c :: t) ++ ch_LF :: rest) as Hp'.
    { rewrite Hp. by list_assoc. }
    destruct (parseKey_plain _ key _ s Hpre' Hplain Hp') as (s1 & E1 & Hp1 & Hf1 & _).
    destruct (parseValue_line [sepc] c t rest s1) as (s2 & E2 & Hp2 & Hf2 & _).
    { by constructor. }
    { done. }
    { intros ->. by apply (Hq eq_refl). }
    { apply strings_Contains_false in Hc. intros Hin. apply Hc. by right. }
    { exact Hp1. }
    exists [], s2. split; [done|]. split; [done|].
    split; [by eapply same_frame_trans|].
    rewrite (parseRecord_fields_set _ _ _ _ _ _ E1 E2).
    f_equal. apply Record_Set_ext.
    rewrite (TrimSpace_trimmed_app (c :: t) [ch_LF]); [by rewrite Hfix | | done].
    split; [by exists c, t | done].
Qed.

Lemma fields_roundtrip keys rec pre acc s :
  Forall (λ c, unicode_IsSpace c = true ∧ c ≠ ch_CR) pre →
  (∀ k, k ∈ keys → scannable_key k ∧ scannable_value (Record_Get k rec)) →
  pending s = pre ++ fields_text keys rec →
  ∃ s', parseRecord_fields (fuel_of s) acc s =
        (foldl (λ a k, Record_Set k (read_back (Record_Get k rec)) a) acc keys, s').
Proof.
  revert pre acc s. induction keys as [|k keys IH]; intros pre acc s Hpre Hks Hp.
  { unfold fields_text in Hp. cbn [foldr] in Hp. rewrite app_nil_r in Hp.
    destruct (parseKey_end pre s Hpre Hp) as (k & d & e & s' & E).
    exists s'. by eapply parseRecord_fields_key_err. }
  destruct (Hks k) as [Hk Hv]; [by left|].
  unfold fields_text in Hp. cbn [foldr] in Hp. fold (fields_text keys rec) in Hp.
  rewrite bool_decide_eq_false_2 in Hp by (by destruct Hv).
  destruct (field_roundtrip k _ pre _ acc s Hpre Hk Hv Hp) as (pre' & s1 & Hpre' & Hp1 & _ & E1).
  destruct (IH pre' (Record_Set k (read_back (Record_Get k rec)) acc) s1 Hpre')
    as (s' & E'); [|done|].
  { intros k' Hin. apply Hks. by right. }
  exists s'. by rewrite E1, E'.
Qed.

(** The record that a sequence of [Set] calls on distinct keys builds. *)
Lemma Record_Set_insert k v r :
  normKey k = k → k ≠ [] → trimmed v →
  Record_Set k v r = mkRecord (rec_id r) (rec_typ r) (<[k := v]> (rec_data r)).
Proof.
  intros Hk Hne Hv. unfold Record_Set. fold (normKey k). rewrite Hk.
  rewrite (TrimSpace_trimmed v Hv).
  rewrite !bool_decide_eq_false_2; [done| |done].
  by destruct Hv as [(c & t & -> & _) _].
Qed.

Lemma Record_Sets_distinct (val : list rune → list rune) keys acc :
  NoDup keys →
  (∀ k, k ∈ keys → normKey k = k ∧ k ≠ [] ∧ trimmed (val k)) →
  let r := foldl (λ a k, Record_Set k (val k) a) acc keys in
  rec_typ r = rec_typ acc ∧ rec_id r = rec_id acc ∧
  (∀ k, k ∈ keys → rec_data r !! k = Some (val k)) ∧
  (∀ k, k ∉ keys → rec_data r !! k = rec_data acc !! k).
Proof.
  intros Hnd. revert acc. induction Hnd as [|k keys Hk Hnd IH]; intros acc Hks; simpl.
  { split_and!; try done. by intros k ?%elem_of_nil. }
  destruct (Hks k) as (Hn & Hne & Hv); [by left|].
  rewrite (Record_Set_insert k (val k) acc Hn Hne Hv).
  destruct (IH (mkRecord (rec_id acc) (rec_typ acc) (<[k := val k]> (rec_data acc))))
    as (Ht & Hi & Hin & Hout).
  { intros k' Hin'. apply Hks. by right. }
  split_and!; try done.
  - intros k' [->|Hin']%elem_of_cons; [|by apply Hin].
    rewrite Hout by done. simpl. apply lookup_insert_eq.
  - intros k' Hk'. apply not_elem_of_cons in Hk' as [Hne' Hk'].
    rewrite Hout by done. simpl. by rewrite lookup_insert_ne.
Qed.

Lemma Record_Keys_NoDup r : NoDup (Record_Keys r).
Proof.
  unfold Record_Keys. case_bool_decide; [constructor|].
  unfold sort_Strings. rewrite merge_sort_Permutation.
  apply NoDup_fst_map_to_list.
Qed.
(** C1 (as the code has it).  Take a record in normal form (type and keys
    in lower case and without white space, the words of the ID one space
    apart, values trimmed and not empty) that has at least one field, whose
    type has no equal sign, whose keys have no colon and begin with neither
    a sharp nor an at sign, and whose values without newline do not begin
    with a quotation mark.  [Write] writes it without error, and [Scan] on the
    text written prepares a record of the same type and ID in which [Get]
    returns, for every key of the original record, the original value when
    it has no newline, and the value with its white space collapsed (a run
    with a newline to one newline, any other run to one space) when it has
    one. *)
Theorem write_then_scan_round_trip (rec : Record_) (e : error) :
  normal_name (rec_typ rec) → ch_EQUAL ∉ rec_typ rec →
  rec_id rec ≠ [] →
  strings_Join (strings_Fields (rec_id rec)) [ch_SP] = rec_id rec →
  rec_data rec ≠ ∅ →
  (∀ k v, rec_data rec !! k = Some v → scannable_key k ∧ scannable_value v) →
  ∃ w s' rec',
    Writer_Write rec NewWriter = (None, w) ∧
    Scanner_Scan (NewScanner (w_out w) e) = (true, s') ∧
    Scanner_Record s' = Some (rec', set_rec s' None) ∧
    Record_Type rec' = Record_Type rec ∧
    Record_ID rec' = Record_ID rec ∧
    ∀ k, k ∈ Record_Keys rec →
         Record_Get k rec' = read_back (Record_Get k rec).
Proof.
  intros Htyp Heq Hid Hidn Hdata Hfields.
  assert (Record_Keys rec ≠ []) as Hkeys.
  { intros H0. apply Hdata. apply map_size_empty_iff.
    by rewrite <- Record_Keys_length, H0. }
  assert (∀ k, k ∈ Record_Keys rec →
               scannable_key k ∧ scannable_value (Record_Get k rec)) as Hks.
  { intros k [v Hv]%elem_of_Record_Keys. destruct (Hfields k v Hv) as [Hk Hsv].
    split; [done|]. rewrite Record_Get_lookup, (normKey_normal k) by apply Hk.
    by rewrite Hv. }
  set (val := λ k, read_back (Record_Get k rec)).
  set (rec0 := mkRecord (rec_id rec) (rec_typ rec) ∅).
  set (rec' := foldl (λ a k, Record_Set k (val k) a) rec0 (Record_Keys rec)).
  destruct (Record_Sets_distinct val (Record_Keys rec) rec0 (Record_Keys_NoDup rec))
    as (Ht & Hi & Hin & _).
  { intros k Hk. destruct (Hks k Hk) as [Hsk Hsv].
    split; [apply normKey_normal, Hsk|]. split; [apply Hsk|].
    by apply scannable_value_read_back. }
  fold rec' in Ht, Hi, Hin.
  pose proof (Writer_Write_ok rec NewWriter eq_refl Hkeys Hid (proj1 Htyp)) as Hw.
  cbn [w_out NewWriter app] in Hw.
  set (text := ch_AT :: rec_typ rec ++ ch_EQUAL :: rec_id rec ++
                 ch_LF :: fields_text (Record_Keys rec) rec) in Hw.
  set (s0 := NewScanner text e).
  destruct (parseRecord_header_line (rec_typ rec) (rec_id rec)
              (fields_text (Record_Keys rec) rec) s0 Htyp Heq Hid Hidn)
    as (s1 & E1 & Hp1 & _); [done|].
  destruct (fields_roundtrip (Record_Keys rec) rec [] rec0 s1) as (s2 & E2); [done..|].
  fold val rec' in E2.
  assert (parseRecord s0 = (Some rec', None, s2)) as Hparse.
  { unfold parseRecord. rewrite E1. fold rec0. by rewrite E2. }
  assert (size (rec_data rec') ≠ 0%nat) as Hsz.
  { destruct (Record_Keys rec) as [|k ks] eqn:Hk; [done|].
    intros H0%map_size_empty_iff. specialize (Hin k (list_elem_of_here _ _)).
    by rewrite H0, lookup_empty in Hin. }
  exists (mkWriter text None), (set_rec s2 (Some rec')), rec'.
  split_and!; try done.
  - cbn [w_out]. fold s0. unfold Scanner_Scan. change (s_closed s0) with false.
    cbv iota.
    rewrite Scan_loop_unfold, Hparse. by rewrite bool_decide_eq_false_2.
  - intros k Hk. destruct (Hks k Hk) as [Hsk _].
    rewrite Record_Get_lookup, (normKey_normal k) by apply Hsk.
    by rewrite (Hin k Hk).
Qed.
(** ** Records made by NewRecord and Set are in normal form *)

Lemma TrimSpace_shape v :
  strings_TrimSpace v = [] ∨ trimmed (strings_TrimSpace v).
Proof.
  unfold strings_TrimSpace.
  destruct (trimLeft_spec v) as (p & Hp & Hh).
  destruct (trimLeft_spec (rev (trimLeft v))) as (q & Hq & Hh').
  set (u := trimLeft v) in *. set (w := trimLeft (rev u)) in *.
  destruct w as [|c t] eqn:Hw; [by left|]. right.
  assert (u = rev (c :: t) ++ rev q) as Hu.
  { rewrite <- rev_app_distr, <- Hq. by rewrite rev_involutive. }
  split; [|by exists (rev t), c].
  clearbody u w. subst u. simpl in *. destruct (rev t) as [|x r].
  - by exists c, [].
  - by exists x, (r ++ [c]).
Qed.

Lemma fields_from_app_solid f cur s :
  Forall solid f → fields_from cur (f ++ s) = fields_from (rev f ++ cur) s.
Proof.
  intros Hf. revert cur. induction Hf as [|c f Hc _ IH]; intros cur; [done|].
  simpl. unfold solid in Hc. rewrite Hc, IH. by rewrite <- app_assoc.
Qed.

Lemma Fields_Join_SP fs :
  Forall (λ f, f ≠ [] ∧ Forall solid f) fs →
  strings_Fields (strings_Join fs [ch_SP]) = fs.
Proof.
  unfold strings_Fields. induction 1 as [|f fs [Hne Hf] Hfs IH]; [done|].
  destruct fs as [|g fs].
  - simpl. rewrite <- (app_nil_r f) at 1. rewrite fields_from_app_solid by done.
    simpl. rewrite app_nil_r. destruct (rev f) eqn:Hr.
    + apply (f_equal (@rev _)) in Hr. rewrite rev_involutive in Hr. done.
    + by rewrite <- Hr, rev_involutive.
  - change (strings_Join (f :: g :: fs) [ch_SP])
      with (f ++ ch_SP :: strings_Join (g :: fs) [ch_SP]).
    rewrite fields_from_app_solid by done. rewrite app_nil_r.
    destruct (rev f) as [|x r] eqn:Hr.
    + apply (f_equal (@rev _)) in Hr. rewrite rev_involutive in Hr. done.
    + change (fields_from (x :: r) (ch_SP :: strings_Join (g :: fs) [ch_SP]))
        with (rev (x :: r) :: fields_from [] (strings_Join (g :: fs) [ch_SP])).
      by rewrite <- Hr, rev_involutive, IH.
Qed.

Lemma Join_MINUS_solid fs :
  Forall (λ f, f ≠ [] ∧ Forall solid f) fs →
  Forall solid (strings_Join fs [ch_MINUS]).
Proof.
  induction 1 as [|f fs [Hne Hf] Hfs IH]; [constructor|].
  destruct fs as [|g fs]; [done|].
  change (strings_Join (f :: g :: fs) [ch_MINUS])
    with (f ++ ch_MINUS :: strings_Join (g :: fs) [ch_MINUS]).
  apply Forall_app. split; [done|]. by constructor.
Qed.

Section CaseTable.

(** What the case table of Go is taken to satisfy: lower case letters are
    their own lower case, and no letter is or becomes white space. *)
Hypothesis ToLower_idempotent :
  ∀ c, unicode_ToLower (unicode_ToLower c) = unicode_ToLower c.
Hypothesis ToLower_IsSpace :
  ∀ c, unicode_IsSpace (unicode_ToLower c) = unicode_IsSpace c.

Lemma normKey_normal_form key : normKey key = [] ∨ normal_name (normKey key).
Proof.
  destruct (decide (normKey key = [])) as [|Hne]; [by left|]. right.
  split; [done|]. unfold normKey, strings_ToLower in *. split.
  - apply Forall_fmap. eapply Forall_impl.
    + apply Join_MINUS_solid, fields_from_wf. constructor.
    + intros c Hc. unfold solid in *. simpl. by rewrite ToLower_IsSpace.
  - rewrite <- list_fmap_compose. apply list_fmap_ext. intros _ c _. simpl.
    apply ToLower_idempotent.
Qed.

Lemma Record_Set_normal_fields key value r :
  normal_fields r → normal_fields (Record_Set key value r).
Proof.
  intros Hr. unfold Record_Set. fold (normKey key).
  case_bool_decide as Hk; [done|]. case_bool_decide as Hv; intros k v; simpl.
  - rewrite lookup_delete. case_decide; [done | apply Hr].
  - rewrite lookup_insert. case_decide as Hkk; [|apply Hr].
    intros [= <-]. subst k. split.
    + by destruct (normKey_normal_form key).
    + split; [done|]. destruct (TrimSpace_shape value) as [|Ht]; [done|].
      by apply TrimSpace_trimmed.
Qed.

(** Every record that [NewRecord] and a sequence of [Set] calls make has its
    type, ID, keys and values in the normal form that the round trip
    asks for. *)
Lemma built_record_normal_form typ ID r0 ops :
  NewRecord typ ID = Some r0 →
  let r := Record_Sets ops r0 in
  normal_name (rec_typ r) ∧ rec_id r ≠ [] ∧
  strings_Join (strings_Fields (rec_id r)) [ch_SP] = rec_id r ∧
  normal_fields r.
Proof.
  intros Hnew r.
  assert (normal_name (rec_typ r0) ∧ rec_id r0 ≠ [] ∧
          strings_Join (strings_Fields (rec_id r0)) [ch_SP] = rec_id r0 ∧
          normal_fields r0) as H0.
  { revert Hnew. unfold NewRecord. fold (normKey typ).
    case_bool_decide as Ht; [done|]. case_bool_decide as Hi; [done|].
    intros [= <-]. simpl. split_and!; try done.
    - by destruct (normKey_normal_form typ).
    - rewrite Fields_Join_SP; [done|]. apply fields_from_wf. constructor. }
  clear Hnew. subst r. revert r0 H0.
  induction ops as [|[k v] ops IH]; intros r0 H0; [done|].
  simpl. apply IH. destruct H0 as (Ht & Hi & Hj & Hf).
  destruct (Record_Set_typ_id k v r0) as [-> ->]. split_and!; try done.
  by apply Record_Set_normal_fields.
Qed.

End CaseTable.
(** ** Laws of NewRecord, Get, Set and Keys *)

Lemma fields_from_nil cur s :
  fields_from cur s = [] → cur = [] ∧ forallb unicode_IsSpace s = true.
Proof.
  revert cur. induction s as [|c s IH]; intros cur; simpl.
  { by destruct cur. }
  destruct (unicode_IsSpace c) eqn:Hc; simpl.
  - destruct cur; [apply IH | done].
  - intros H. by destruct (IH _ H).
Qed.

Lemma Join_nil fs sep :
  Forall (λ f : list rune, f ≠ []) fs → strings_Join fs sep = [] → fs = [].
Proof.
  intros Hfs. destruct Hfs as [|f fs Hf Hfs]; [done|].
  simpl. destruct fs; [done|]. intros H. by destruct f.
Qed.

Lemma Join_Fields_nil s sep :
  strings_Join (strings_Fields s) sep = [] → forallb unicode_IsSpace s = true.
Proof.
  intros H. apply Join_nil in H.
  - by destruct (fields_from_nil [] s H).
  - eapply Forall_impl; [apply (fields_from_wf [] s); constructor|]. by intros f [? _].
Qed.

Lemma normKey_nil key : normKey key = [] ↔ forallb unicode_IsSpace key = true.
Proof.
  unfold normKey, strings_ToLower. split.
  - intros H%fmap_nil_inv. by apply Join_Fields_nil in H.
  - intros H. unfold strings_Fields. by rewrite (Fields_all_space [] key H).
Qed.

(** X1.  [NewRecord] returns nil exactly when the type or the ID has no rune
    that is not white space; otherwise the record has the type in its normal
    form (words joined by a minus sign, lower case), the words of the ID one
    space apart, and no field. *)
Theorem NewRecord_nil_iff (typ ID : list rune) :
  (NewRecord typ ID = None ↔
   forallb unicode_IsSpace typ = true ∨ forallb unicode_IsSpace ID = true) ∧
  (∀ r, NewRecord typ ID = Some r →
        Record_Type r = strings_ToLower (strings_Join (strings_Fields typ) [ch_MINUS]) ∧
        Record_ID r = strings_Join (strings_Fields ID) [ch_SP] ∧
        Record_Keys r = [] ∧ ∀ k, Record_Get k r = []).
Proof.
  split.
  - split; [|apply NewRecord_blank].
    unfold NewRecord. fold (normKey typ).
    case_bool_decide as Ht; [intros _; left; by apply normKey_nil|].
    case_bool_decide as Hi; [intros _; right; by eapply Join_Fields_nil | done].
  - intros r. unfold NewRecord. repeat case_bool_decide; try done.
    by intros [= <-].
Qed.

Lemma Record_Get_Set_same key value r :
  normKey key ≠ [] →
  Record_Get key (Record_Set key value r) = strings_TrimSpace value.
Proof.
  intros Hk. rewrite Record_Get_lookup. unfold Record_Set. fold (normKey key).
  rewrite bool_decide_eq_false_2 by done. case_bool_decide as Hv; simpl.
  - by rewrite lookup_delete_eq, Hv.
  - by rewrite lookup_insert_eq.
Qed.

(** X2.  [Get] after [Set]: a key that normalises like the key that was set
    gets the trimmed value (the empty string when the value was blank), any
    other key gets what it had; a [Set] whose key is blank changes nothing. *)
Theorem Set_then_Get (key value key' : list rune) (r : Record_) :
  Record_Get key' (Record_Set key value r) =
  if bool_decide (normKey key ≠ [] ∧ normKey key' = normKey key)
  then strings_TrimSpace value
  else Record_Get key' r.
Proof.
  rewrite !Record_Get_lookup. unfold Record_Set. fold (normKey key).
  case_bool_decide as Hk.
  { rewrite bool_decide_eq_false_2; [done|]. by intros [? _]. }
  case_bool_decide as Hv; simpl.
  - rewrite lookup_delete. case_decide as Hkk.
    + rewrite bool_decide_eq_true_2 by done. by rewrite Hv.
    + rewrite bool_decide_eq_false_2; [done|]. intros [_ ?]. congruence.
  - rewrite lookup_insert. case_decide as Hkk.
    + by rewrite bool_decide_eq_true_2.
    + rewrite bool_decide_eq_false_2; [done|]. intros [_ ?]. congruence.
Qed.

Lemma Record_Set_data key value r :
  rec_data (Record_Set key value r) =
  if bool_decide (normKey key = []) then rec_data r
  else if bool_decide (strings_TrimSpace value = [])
       then delete (normKey key) (rec_data r)
       else <[normKey key := strings_TrimSpace value]> (rec_data r).
Proof. unfold Record_Set. fold (normKey key). by repeat case_bool_decide. Qed.

Lemma Record_eq r1 r2 :
  rec_id r1 = rec_id r2 → rec_typ r1 = rec_typ r2 → rec_data r1 = rec_data r2 →
  r1 = r2.
Proof. destruct r1, r2. simpl. by intros -> -> ->. Qed.

(** X3.  Two [Set] calls in a row: on keys that normalise alike the second
    call alone decides (the first one is forgotten); on keys that normalise
    differently the order of the calls does not matter. *)
Theorem Set_overwrites_and_commutes (k1 v1 k2 v2 : list rune) (r : Record_) :
  (normKey k1 = normKey k2 →
   Record_Set k2 v2 (Record_Set k1 v1 r) = Record_Set k2 v2 r) ∧
  (normKey k1 ≠ normKey k2 →
   Record_Set k2 v2 (Record_Set k1 v1 r) = Record_Set k1 v1 (Record_Set k2 v2 r)).
Proof.
  split; intros Hk.
  - apply Record_eq.
    + destruct (Record_Set_typ_id k2 v2 (Record_Set k1 v1 r)) as [_ ->].
      destruct (Record_Set_typ_id k2 v2 r) as [_ ->].
      by destruct (Record_Set_typ_id k1 v1 r) as [_ ->].
    + destruct (Record_Set_typ_id k2 v2 (Record_Set k1 v1 r)) as [-> _].
      destruct (Record_Set_typ_id k2 v2 r) as [-> _].
      by destruct (Record_Set_typ_id k1 v1 r) as [-> _].
    + rewrite !Record_Set_data, Hk.
      repeat case_bool_decide; try done.
      * apply delete_delete_eq.
      * apply delete_insert_eq.
      * apply insert_delete_eq.
      * apply insert_insert_eq.
  - apply Record_eq.
    + destruct (Record_Set_typ_id k2 v2 (Record_Set k1 v1 r)) as [_ ->].
      destruct (Record_Set_typ_id k1 v1 (Record_Set k2 v2 r)) as [_ ->].
      destruct (Record_Set_typ_id k2 v2 r) as [_ ->].
      by destruct (Record_Set_typ_id k1 v1 r) as [_ ->].
    + destruct (Record_Set_typ_id k2 v2 (Record_Set k1 v1 r)) as [-> _].
      destruct (Record_Set_typ_id k1 v1 (Record_Set k2 v2 r)) as [-> _].
      destruct (Record_Set_typ_id k2 v2 r) as [-> _].
      by destruct (Record_Set_typ_id k1 v1 r) as [-> _].
    + rewrite !Record_Set_data.
      repeat case_bool_decide; try done.
      * apply delete_delete.
      * by apply delete_insert_ne.
      * symmetry. by apply delete_insert_ne.
      * by apply insert_insert_ne.
Qed.

(** *** The order of the keys *)

Lemma string_leb_total a b : string_leb a b = true ∨ string_leb b a = true.
Proof.
  revert b. induction a as [|x a IH]; intros [|y b]; simpl; auto.
  destruct (Z.ltb_spec x y); [by left|]. destruct (Z.ltb_spec y x); [by right|].
  assert (x = y) as -> by lia. rewrite Z.eqb_refl. simpl. apply IH.
Qed.

Lemma string_leb_trans a b c :
  string_leb a b = true → string_leb b c = true → string_leb a c = true.
Proof.
  revert b c. induction a as [|x a IH]; intros [|y b] [|z c]; simpl; try done.
  intros [Hxy|[Hxy Hab]%andb_prop]%orb_prop [Hyz|[Hyz Hbc]%andb_prop]%orb_prop;
    apply orb_true_iff.
  - left. lia.
  - left. lia.
  - left. lia.
  - right. apply andb_true_iff. split; [lia|]. by eapply IH.
Qed.

Lemma string_leb_antisym a b :
  string_leb a b = true → string_leb b a = true → a = b.
Proof.
  revert b. induction a as [|x a IH]; intros [|y b]; simpl; try done.
  intros [Hxy|[Hxy Hab]%andb_prop]%orb_prop [Hyx|[Hyx Hba]%andb_prop]%orb_prop;
    try lia.
  f_equal; [lia | by apply IH].
Qed.

(** X4.  [Keys] returns the keys of the record, each one once, in ascending
    order; it returns nothing exactly when the record has no field. *)
Theorem Keys_sorted_and_distinct (r : Record_) :
  StronglySorted string_le (Record_Keys r) ∧ NoDup (Record_Keys r) ∧
  (∀ k, k ∈ Record_Keys r ↔ is_Some (rec_data r !! k)) ∧
  (∀ i j a b, Record_Keys r !! i = Some a → Record_Keys r !! j = Some b →
              (i < j)%nat → string_le a b ∧ a ≠ b) ∧
  (Record_Keys r = [] ↔ rec_data r = ∅).
Proof.
  assert (StronglySorted string_le (Record_Keys r)) as Hs.
  { unfold Record_Keys. case_bool_decide; [constructor|].
    apply StronglySorted_merge_sort.
    - intros a b c. apply string_leb_trans.
    - intros a b. apply string_leb_total. }
  pose proof (Record_Keys_NoDup r) as Hnd.
  split_and!; try done.
  - intros k. apply elem_of_Record_Keys.
  - clear -Hs Hnd. induction Hs as [|x l Hl IH Hx]; intros i j a b Hi Hj Hij.
    { by rewrite lookup_nil in Hi. }
    apply NoDup_cons in Hnd as [Hxl Hnd].
    destruct j as [|j]; [lia|]. simpl in Hj.
    destruct i as [|i]; simpl in Hi.
    + injection Hi as ->. apply list_elem_of_lookup_2 in Hj.
      rewrite Forall_forall in Hx. split; [by apply Hx|]. by intros ->.
    + apply (IH Hnd i j); [done..|lia].
  - rewrite <- map_size_empty_iff, <- Record_Keys_length.
    split; [by intros -> | apply length_zero_iff_nil].
Qed.

(** *** Keys and values of the records that the package builds *)

Section BuiltRecords.

Hypothesis ToLower_idempotent :
  ∀ c, unicode_ToLower (unicode_ToLower c) = unicode_ToLower c.
Hypothesis ToLower_IsSpace :
  ∀ c, unicode_IsSpace (unicode_ToLower c) = unicode_IsSpace c.

Lemma normKey_idempotent key : normKey (normKey key) = normKey key.
Proof.
  destruct (normKey_normal_form ToLower_idempotent ToLower_IsSpace key) as [->|Hn].
  - done.
  - by apply normKey_normal.
Qed.

(** X5.  In a record made by [NewRecord] and [Set] calls, with a case table
    whose lower case letters are their own lower case and are not white
    space: [Keys] lists exactly the keys in normal form for which [Get]
    returns a value that is not empty, [Get] and [Set] take a key in any
    spelling that normalises to it, and no key in the list has an empty
    value (the test [value == ""] of [Write] never holds). *)
Theorem Keys_are_the_keys_with_a_value (typ ID : list rune) (r0 : Record_)
    (ops : list (list rune * list rune)) :
  NewRecord typ ID = Some r0 →
  let r := Record_Sets ops r0 in
  (∀ k, k ∈ Record_Keys r ↔ Record_Get k r ≠ [] ∧ normKey k = k) ∧
  (∀ k, Record_Get k r ≠ [] ↔ normKey k ∈ Record_Keys r) ∧
  (∀ k, Record_Get (normKey k) r = Record_Get k r) ∧
  (∀ k v, Record_Set (normKey k) v r = Record_Set k v r).
Proof.
  intros Hnew r.
  destruct (built_record_normal_form ToLower_idempotent ToLower_IsSpace
              typ ID r0 ops Hnew) as (_ & _ & _ & Hf).
  fold r in Hf.
  assert (∀ k, Record_Get k r ≠ [] ↔ normKey k ∈ Record_Keys r) as Hget.
  { intros k. rewrite Record_Get_lookup, elem_of_Record_Keys. split.
    - destruct (rec_data r !! normKey k); [by eauto | done].
    - intros [v Hv]. rewrite Hv. simpl. by destruct (Hf _ _ Hv) as (_ & ? & _). }
  split_and!; try done.
  - intros k. split.
    + intros Hk. pose proof Hk as [v Hv]%elem_of_Record_Keys.
      destruct (Hf _ _ Hv) as (Hn & _). pose proof (normKey_normal k Hn) as Hnk.
      split; [|done]. apply Hget. by rewrite Hnk.
    + intros [Hg Hn]. apply Hget in Hg. by rewrite Hn in Hg.
  - intros k. by rewrite !Record_Get_lookup, normKey_idempotent.
  - intros k v. unfold Record_Set. fold (normKey k) (normKey (normKey k)).
    by rewrite normKey_idempotent.
Qed.

(** X22.  A record is copied through its accessors: for a record made by
    [NewRecord] and [Set] calls (and a case table as above), [NewRecord] on
    its [Type] and [ID] followed by [Set] of every key of [Keys] to its
    [Get] value gives the record again. *)
Theorem record_is_copied_by_its_accessors (typ ID : list rune) (r0 : Record_)
    (ops : list (list rune * list rune)) :
  NewRecord typ ID = Some r0 →
  let r := Record_Sets ops r0 in
  ∃ c0, NewRecord (Record_Type r) (Record_ID r) = Some c0 ∧
        Record_Keys c0 = [] ∧
        foldl (λ a k, Record_Set k (Record_Get k r) a) c0 (Record_Keys r) = r.
Proof.
  intros Hnew r.
  destruct (built_record_normal_form ToLower_idempotent ToLower_IsSpace
              typ ID r0 ops Hnew) as (Ht & Hi & Hj & Hf).
  fold r in Ht, Hi, Hj, Hf.
  exists (mkRecord (rec_id r) (rec_typ r) ∅).
  split; [by apply NewRecord_normal|]. split; [done|].
  destruct (Record_Sets_distinct (λ k, Record_Get k r) (Record_Keys r)
              (mkRecord (rec_id r) (rec_typ r) ∅) (Record_Keys_NoDup r))
    as (Htyp & Hid & Hin & Hout).
  { intros k [v Hv]%elem_of_Record_Keys. destruct (Hf k v Hv) as (Hn & Hne & Htr).
    pose proof (normKey_normal k Hn) as Hnk. split; [done|].
    split; [apply Hn|]. rewrite Record_Get_lookup, Hnk, Hv. simpl.
    by apply TrimSpace_fixed_trimmed. }
  apply Record_eq; [done..|]. apply map_eq. intros k.
  destruct (decide (k ∈ Record_Keys r)) as [Hk|Hk].
  - etrans; [apply (Hin k Hk)|].
    pose proof Hk as [v Hv]%elem_of_Record_Keys. destruct (Hf k v Hv) as (Hn & _).
    by rewrite Record_Get_lookup, (normKey_normal k Hn), Hv.
  - etrans; [apply (Hout k Hk)|]. simpl. rewrite lookup_empty.
    rewrite elem_of_Record_Keys in Hk.
    destruct (rec_data r !! k); [by destruct Hk | done].
Qed.

End BuiltRecords.
(** ** skip, comments and lines without a colon *)

(** [skip] stops after the first newline, be it written \n or \r\n. *)
Lemma skip_line l rest s :
  ch_LF ∉ l → pending s = l ++ ch_LF :: rest →
  ∃ s', skip ch_LF s = (None, s') ∧ moved s s' rest 0 ∧ s_b s' = s_b s.
Proof.
  revert s. induction l as [|c l IH]; intros s Hl Hp.
  { destruct (readRune_moved s ch_LF rest Hp) as (s1 & E & Hm & Hb & _); [done|].
    exists s1. by rewrite skip_unfold, E. }
  apply not_elem_of_cons in Hl as [HcLF Hl].
  destruct (decide (c = ch_CR)) as [->|HCR].
  - destruct l as [|c' l].
    + exists (set_r s (mkReader rest (Some ch_LF) (rd_err (s_r s)))).
      rewrite skip_unfold, (readRune_CRLF s rest Hp). simpl.
      split; [done|]. split; [|done]. split; [done|].
      split; [by repeat split | simpl; lia].
    + apply not_elem_of_cons in Hl as [Hc' Hl'].
      rewrite skip_unfold, (readRune_CR s c' (l ++ ch_LF :: rest) Hp (not_eq_sym Hc')). simpl.
      destruct (IH (set_r s (mkReader (c' :: l ++ ch_LF :: rest) None (rd_err (s_r s)))))
        as (s' & E' & (Hp' & Hf' & Hl'') & Hb').
      { by apply not_elem_of_cons. }
      { done. }
      exists s'. split; [done|]. split; [|done]. split; [done|].
      split; [|simpl in Hl''; lia].
      eapply same_frame_trans; [|exact Hf']. by repeat split.
  - destruct (readRune_moved s c (l ++ ch_LF :: rest) Hp HCR)
      as (s1 & E & (Hp1 & Hf1 & Hl1) & Hb & _).
    rewrite skip_unfold, E. destruct (Z.eqb_spec c ch_LF); [done|].
    destruct (IH s1 Hl Hp1) as (s' & E' & (Hp' & Hf' & Hl') & Hb').
    exists s'. split; [done|]. split; [|congruence]. split; [done|].
    split; [by eapply same_frame_trans | lia].
Qed.

(** Without a newline [skip] reads to the end and returns the error of the
    stream. *)
Lemma skip_end l s :
  ch_LF ∉ l → pending s = l →
  ∃ s', skip ch_LF s = (Some (rd_err (s_r s)), s') ∧ moved s s' [] 0.
Proof.
  revert s. induction l as [|c l IH]; intros s Hl Hp.
  { rewrite skip_unfold, (readRune_nil s Hp). eexists. split; [done|].
    split; [done|]. split; [by repeat split | simpl; lia]. }
  apply not_elem_of_cons in Hl as [HcLF Hl].
  destruct (decide (c = ch_CR)) as [->|HCR].
  - destruct l as [|c' l].
    + rewrite skip_unfold, (readRune_CR_end s Hp). eexists. split; [done|].
      split; [done|]. split; [by repeat split | simpl; lia].
    + apply not_elem_of_cons in Hl as [Hc' Hl'].
      rewrite skip_unfold, (readRune_CR s c' l Hp (not_eq_sym Hc')). simpl.
      destruct (IH (set_r s (mkReader (c' :: l) None (rd_err (s_r s)))))
        as (s' & E' & (Hp' & Hf' & Hl'')).
      { by apply not_elem_of_cons. }
      { done. }
      exists s'. split; [done|]. split; [done|].
      split; [|simpl in Hl''; lia].
      eapply same_frame_trans; [|exact Hf']. by repeat split.
  - destruct (readRune_moved s c l Hp HCR) as (s1 & E & (Hp1 & Hf1 & Hl1) & Hb & _).
    rewrite skip_unfold, E. destruct (Z.eqb_spec c ch_LF); [done|].
    destruct (IH s1 Hl Hp1) as (s' & E' & (Hp' & Hf' & Hl')).
    exists s'. destruct Hf1 as (Herr & ?). rewrite <- Herr. split; [done|].
    split; [done|]. split; [|lia].
    eapply same_frame_trans; [|exact Hf']. by split.
Qed.

(** X19.  [skip], as [parseKey] calls it for a comment: it reads up to and
    including the first newline, written \n or \r\n, and returns nil; when
    no newline is left it reads the data to their end and returns the error
    of the stream.  It leaves the line counter to its caller. *)
Theorem skip_reads_the_line (l : list rune) (s : Scanner) :
  ch_LF ∉ l →
  (∀ rest, pending s = l ++ ch_LF :: rest →
     ∃ s', skip ch_LF s = (None, s') ∧ moved s s' rest 0) ∧
  (pending s = l →
     ∃ s', skip ch_LF s = (Some (rd_err (s_r s)), s') ∧ moved s s' [] 0).
Proof.
  intros Hl. split.
  - intros rest Hp. destruct (skip_line l rest s Hl Hp) as (s' & E & Hm & _).
    by exists s'.
  - intros Hp. destruct (skip_end l s Hl Hp) as (s' & E & Hm).
    by exists s'.
Qed.

(** Blanks, blank lines and one comment line before a key. *)
Lemma parseKey_seek_comment ws l rest s :
  Forall (λ c, unicode_IsSpace c = true ∧ c ≠ ch_CR) ws →
  ch_LF ∉ l →
  pending s = ws ++ ch_SHARP :: l ++ ch_LF :: rest →
  ∃ s', moved s s' rest (count_LF ws + 1) ∧
        parseKey_seek (fuel_of s) s = parseKey_seek (fuel_of s') s'.
Proof.
  intros Hws Hl. revert s. induction Hws as [|w ws [Hw Hw'] _ IH]; intros s Hp.
  - simpl in Hp.
    destruct (readRune_moved s ch_SHARP _ Hp) as (s1 & E & (Hp1 & Hf1 & Hl1) & _); [done|].
    destruct (skip_line l rest s1 Hl Hp1) as (s2 & E2 & (Hp2 & Hf2 & Hl2) & _).
    exists (incr_line s2). split.
    + split; [done|]. split; [|unfold count_LF; simpl; lia].
      eapply same_frame_trans; [exact Hf1|].
      eapply same_frame_trans; [exact Hf2 | apply same_frame_incr_line].
    + rewrite parseKey_seek_unfold, E. simpl. by rewrite E2.
  - simpl in Hp.
    destruct (readRune_moved s w _ Hp Hw') as (s1 & E & (Hp1 & Hf1 & Hl1) & _).
    rewrite parseKey_seek_unfold, E, count_LF_cons.
    destruct (Z.eqb_spec w ch_LF) as [->|HLF].
    + destruct (IH (incr_line s1) Hp1) as (s2 & (Hp2 & Hf2 & Hl2) & E2).
      exists s2. split; [|done]. split; [done|].
      split; [|simpl in Hl2; lia].
      eapply same_frame_trans; [exact Hf1|].
      eapply same_frame_trans; [apply same_frame_incr_line | exact Hf2].
    + rewrite Hw. destruct (IH s1 Hp1) as (s2 & (Hp2 & Hf2 & Hl2) & E2).
      exists s2. split; [|done]. split; [done|].
      split; [by eapply same_frame_trans | lia].
Qed.

(** The same, when the data end inside the comment. *)
Lemma parseKey_seek_comment_end ws l s :
  Forall (λ c, unicode_IsSpace c = true ∧ c ≠ ch_CR) ws →
  ch_LF ∉ l →
  pending s = ws ++ ch_SHARP :: l →
  ∃ s', pending s' = [] ∧
        parseKey_seek (fuel_of s) s = parseKey_seek (fuel_of s') s'.
Proof.
  intros Hws Hl. revert s. induction Hws as [|w ws [Hw Hw'] _ IH]; intros s Hp.
  - simpl in Hp.
    destruct (readRune_moved s ch_SHARP _ Hp) as (s1 & E & (Hp1 & _) & _); [done|].
    destruct (skip_end l s1 Hl Hp1) as (s2 & E2 & (Hp2 & _)).
    exists (incr_line s2). split; [done|].
    rewrite parseKey_seek_unfold, E. simpl. by rewrite E2.
  - simpl in Hp.
    destruct (readRune_moved s w _ Hp Hw') as (s1 & E & (Hp1 & _) & _).
    rewrite parseKey_seek_unfold, E.
    destruct (w =? ch_LF); [by apply (IH (incr_line s1))|].
    rewrite Hw. by apply IH.
Qed.

Lemma parseKey_of_seek s s' :
  parseKey_seek (fuel_of s) s = parseKey_seek (fuel_of s') s' →
  parseKey s = parseKey s'.
Proof. unfold parseKey. by intros ->. Qed.

Lemma parseRecord_fields_of_parseKey rec s s' :
  parseKey s = parseKey s' →
  parseRecord_fields (fuel_of s) rec s = parseRecord_fields (fuel_of s') rec s'.
Proof. intros H. by rewrite !parseRecord_fields_unfold, H. Qed.

(** X6.  A comment between the fields of a record: from a sharp sign where a
    key could begin (after blanks and blank lines) everything up to the end
    of the line is passed over, a colon, a quotation mark or an at sign
    included; the line counts as one line, and the fields are read as if the
    scanner stood behind it.  A comment that the end of the data cuts ends
    the record without an error. *)
Theorem comment_lines_are_skipped (ws l : list rune) (rec : Record_) (s : Scanner) :
  Forall (λ c, unicode_IsSpace c = true ∧ c ≠ ch_CR) ws →
  ch_LF ∉ l →
  (∀ rest, pending s = ws ++ ch_SHARP :: l ++ ch_LF :: rest →
     ∃ s', moved s s' rest (count_LF ws + 1) ∧
           parseKey s = parseKey s' ∧
           parseRecord_fields (fuel_of s) rec s =
           parseRecord_fields (fuel_of s') rec s') ∧
  (pending s = ws ++ ch_SHARP :: l →
     ∃ s', pending s' = [] ∧
           parseRecord_fields (fuel_of s) rec s = (rec, s')).
Proof.
  intros Hws Hl. split.
  - intros rest Hp.
    destruct (parseKey_seek_comment ws l rest s Hws Hl Hp) as (s' & Hm & E).
    exists s'. split; [done|]. apply parseKey_of_seek in E.
    split; [done|]. by apply parseRecord_fields_of_parseKey.
  - intros Hp.
    destruct (parseKey_seek_comment_end ws l s Hws Hl Hp) as (s1 & Hp1 & E1).
    destruct (parseKey_at_end s1 Hp1) as (s2 & E2 & Hp2).
    exists s2. split; [done|].
    rewrite (parseRecord_fields_of_parseKey rec s s1 (parseKey_of_seek s s1 E1)).
    by eapply parseRecord_fields_key_err.
Qed.

(** A line of the record in which no colon follows the key: [parseKey]
    reads it to its end. *)
Lemma parseKey_read_no_colon l rest space s :
  Forall (λ c, inline c ∧ c ≠ ch_COLON) l →
  pending s = l ++ ch_LF :: rest →
  ∃ s', parseKey_read (fuel_of s) space s = ([], ch_LF, None, s') ∧
        moved s s' rest 1.
Proof.
  intros Hl. revert space s. induction Hl as [|c l [[HLF HCR] Hcol] _ IH]; intros space s Hp.
  - simpl in Hp.
    destruct (readRune_moved s ch_LF rest Hp) as (s1 & E & (Hp1 & Hf1 & Hl1) & _); [done|].
    rewrite parseKey_read_unfold, E. simpl. eexists. split; [done|].
    split; [done|]. split; [|simpl; lia].
    eapply same_frame_trans; [exact Hf1 | apply same_frame_incr_line].
  - simpl in Hp.
    destruct (readRune_moved s c _ Hp HCR) as (s1 & E & (Hp1 & Hf1 & Hl1) & _).
    rewrite parseKey_read_unfold, E.
    destruct (Z.eqb_spec c ch_LF); [done|].
    destruct (unicode_IsSpace c).
    + destruct (IH true s1 Hp1) as (s' & E' & (Hp' & Hf' & Hl')).
      exists s'. split; [done|]. split; [done|].
      split; [by eapply same_frame_trans | lia].
    + destruct (Z.eqb_spec c ch_COLON); [done|]. cbv zeta.
      destruct (IH false (b_WriteRune c (if space then b_WriteRune ch_MINUS s1 else s1)))
        as (s' & E' & (Hp' & Hf' & Hl')).
      { by destruct space. }
      exists s'. split; [done|]. split; [done|].
      split; [|destruct space; simpl in Hl'; lia].
      eapply same_frame_trans; [exact Hf1|].
      eapply same_frame_trans; [|exact Hf']. by destruct space.
Qed.

(** X7.  A line between the fields of a record that holds no colon (and
    begins with neither a sharp nor an at sign) is read to its end and
    dropped: [parseKey] returns the newline as the delimiter, with no key
    and no error, and [parseRecord] goes on with the next line; the record
    is not changed. *)
Theorem line_without_colon_is_dropped (ws l rest : list rune) (c : rune)
    (rec : Record_) (s : Scanner) :
  Forall (λ c, unicode_IsSpace c = true ∧ c ≠ ch_CR) ws →
  solid c → c ≠ ch_SHARP → c ≠ ch_AT →
  Forall (λ c, inline c ∧ c ≠ ch_COLON) (c :: l) →
  pending s = ws ++ (c :: l) ++ ch_LF :: rest →
  ∃ s', parseKey s = ([], ch_LF, None, s') ∧
        moved s s' rest (count_LF ws + 1) ∧
        parseRecord_fields (fuel_of s) rec s =
        parseRecord_fields (fuel_of s') rec s'.
Proof.
  intros Hws Hc Hsh Hat Hl Hp.
  destruct (parseKey_seek_blanks ws c (l ++ ch_LF :: rest) s Hws Hc Hsh Hp)
    as (s1 & E1 & Hp1 & Hf1 & Hl1).
  destruct (Z.eqb_spec c ch_AT); [done|].
  destruct (parseKey_read_no_colon (c :: l) rest false (b_Reset s1) Hl Hp1)
    as (s2 & E2 & Hp2 & Hf2 & Hl2).
  assert (parseKey s = ([], ch_LF, None, s2)) as E.
  { unfold parseKey. by rewrite E1. }
  exists s2. split; [done|]. split.
  - split; [done|]. split; [|simpl in Hl2; lia].
    eapply same_frame_trans; [exact Hf1|].
    eapply same_frame_trans; [apply same_frame_b_Reset | exact Hf2].
  - by rewrite parseRecord_fields_unfold, E.
Qed.
(** ** The key as parseKey reads it *)

Lemma Join_cons (e : list rune) es sep :
  strings_Join (e :: es) sep =
  e ++ match es with [] => [] | _ => sep ++ strings_Join es sep end.
Proof. destruct es; simpl; by rewrite ?app_nil_r. Qed.

Lemma fields_from_not_nil cur s : cur ≠ [] → fields_from cur s ≠ [].
Proof. intros Hc H. by destruct (fields_from_nil cur s H). Qed.

Lemma fields_from_app_space p k :
  forallb unicode_IsSpace p = true → fields_from [] (p ++ k) = fields_from [] k.
Proof.
  induction p as [|c p IH]; simpl; [done|].
  destruct (unicode_IsSpace c); simpl; [exact IH | done].
Qed.

Lemma trimLeft_split s :
  ∃ p, s = p ++ trimLeft s ∧ forallb unicode_IsSpace p = true ∧
       match trimLeft s with [] => True | c :: _ => solid c end.
Proof.
  induction s as [|c s (p & Hp & Hsp & Hh)]; [by exists []|]. simpl.
  destruct (unicode_IsSpace c) eqn:Hc.
  - exists (c :: p). simpl. rewrite Hc. split; [by rewrite <- Hp | done].
  - by exists [].
Qed.

(** The buffer of [parseKey] holds the words read so far, joined by minus
    signs. *)
Lemma key_tail_Fields k :
  (∀ cur, cur ≠ [] →
     strings_Join (fields_from cur k) [ch_MINUS] = rev cur ++ key_tail false k) ∧
  match fields_from [] k with
  | [] => []
  | fs => ch_MINUS :: strings_Join fs [ch_MINUS]
  end = key_tail true k.
Proof.
  induction k as [|c k [IH1 IH2]]; simpl.
  { split; [|done]. intros cur Hcur. destruct cur; [done|]. by rewrite app_nil_r. }
  destruct (unicode_IsSpace c) eqn:Hc.
  - split; [|done]. intros cur Hcur. destruct cur as [|x cur]; [done|].
    rewrite Join_cons, <- IH2. by destruct (fields_from [] k).
  - split.
    + intros cur Hcur. rewrite IH1 by done. simpl. by rewrite <- app_assoc.
    + pose proof (fields_from_not_nil [c] k) as Hne.
      specialize (IH1 [c]).
      destruct (fields_from [c] k) as [|f fs] eqn:Hf; [by destruct Hne|].
      simpl in IH1. by rewrite IH1.
Qed.

Lemma key_tail_trimLeft kt :
  key_tail false (trimLeft kt) = strings_Join (strings_Fields kt) [ch_MINUS].
Proof.
  destruct (trimLeft_split kt) as (p & Hp & Hsp & Hh).
  unfold strings_Fields. rewrite Hp at 2. rewrite fields_from_app_space by done.
  destruct (trimLeft kt) as [|c k]; [done|].
  unfold solid in Hh. simpl. rewrite Hh.
  destruct (key_tail_Fields k) as [IH _]. by rewrite IH.
Qed.

Lemma normKey_Join_Fields kt :
  normKey (strings_Join (strings_Fields kt) [ch_MINUS]) = normKey kt.
Proof.
  pose proof (fields_from_wf [] kt (Forall_nil_2 _)) as Hwf. fold (strings_Fields kt) in Hwf.
  destruct (decide (strings_Join (strings_Fields kt) [ch_MINUS] = [])) as [H0|Hne].
  - unfold normKey at 2. by rewrite H0.
  - rewrite normKey_solid; [done| |done]. by apply Join_MINUS_solid.
Qed.

Lemma count_LF_inline l : Forall (λ c, c ≠ ch_LF) l → count_LF l = 0.
Proof.
  induction 1 as [|c l Hc _ IH]; [done|]. rewrite count_LF_cons, IH.
  by destruct (Z.eqb_spec c ch_LF).
Qed.

Lemma parseKey_read_key k rest space s :
  Forall (λ c, inline c ∧ c ≠ ch_COLON) k →
  pending s = k ++ ch_COLON :: rest →
  ∃ s', parseKey_read (fuel_of s) space s =
          (s_b s ++ key_tail space k, ch_COLON, None, s') ∧
        moved s s' rest 0.
Proof.
  intros Hk. revert space s.
  induction Hk as [|c k [[HLF HCR] Hcol] _ IH]; intros space s Hp.
  - simpl in Hp.
    destruct (readRune_moved s ch_COLON rest Hp) as (s1 & E & Hm & Hb & _); [done|].
    rewrite parseKey_read_unfold, E. simpl. exists s1.
    by rewrite Hb, app_nil_r.
  - simpl in Hp.
    destruct (readRune_moved s c _ Hp HCR) as (s1 & E & (Hp1 & Hf1 & Hl1) & Hb & _).
    rewrite parseKey_read_unfold, E.
    destruct (Z.eqb_spec c ch_LF); [done|]. cbn [key_tail].
    destruct (unicode_IsSpace c).
    + destruct (IH true s1 Hp1) as (s' & E' & (Hp' & Hf' & Hl')).
      exists s'. rewrite E', Hb. split; [done|]. split; [done|].
      split; [by eapply same_frame_trans | lia].
    + destruct (Z.eqb_spec c ch_COLON); [done|]. cbv zeta.
      destruct (IH false (b_WriteRune c (if space then b_WriteRune ch_MINUS s1 else s1)))
        as (s' & E' & (Hp' & Hf' & Hl')).
      { by destruct space. }
      exists s'. rewrite E'. split.
      { f_equal. f_equal. f_equal. destruct space; simpl; rewrite Hb, <- ?app_assoc; done. }
      split; [done|]. split; [|destruct space; simpl in Hl'; lia].
      eapply same_frame_trans; [exact Hf1|].
      eapply same_frame_trans; [|exact Hf']. by destruct space.
Qed.

(** X8.  The key of a field is what stands before the colon on its line:
    [parseKey] returns the words of that text joined by minus signs, as
    [strings.Fields] and [strings.Join] give them (blanks before, between
    and after the words do not count; a text without a word gives the empty
    key), and stops behind the colon.  [Set] treats the key returned like the
    text itself. *)
Theorem parseKey_joins_the_words (kt rest : list rune) (s : Scanner) :
  Forall (λ c, inline c ∧ c ≠ ch_COLON) kt →
  head (trimLeft kt) ≠ Some ch_SHARP → head (trimLeft kt) ≠ Some ch_AT →
  pending s = kt ++ ch_COLON :: rest →
  ∃ s', parseKey s =
          (strings_Join (strings_Fields kt) [ch_MINUS], ch_COLON, None, s') ∧
        moved s s' rest 0 ∧
        ∀ v r, Record_Set (strings_Join (strings_Fields kt) [ch_MINUS]) v r =
               Record_Set kt v r.
Proof.
  intros Hkt Hsh Hat Hp.
  destruct (trimLeft_split kt) as (p & Hsplit & Hsp & Hh).
  set (k := trimLeft kt) in *.
  assert (Forall (λ c, inline c ∧ c ≠ ch_COLON) p ∧
          Forall (λ c, inline c ∧ c ≠ ch_COLON) k) as [Hp_in Hk_in].
  { rewrite Hsplit in Hkt. by apply Forall_app in Hkt. }
  assert (Forall (λ c, unicode_IsSpace c = true ∧ c ≠ ch_CR) p) as Hws.
  { rewrite forallb_forall in Hsp. rewrite Forall_forall in Hp_in.
    apply Forall_forall. intros c Hc. split.
    - apply Hsp. by apply list_elem_of_In.
    - by destruct (Hp_in c Hc) as [[_ ?] _]. }
  assert (count_LF p = 0) as Hcount.
  { apply count_LF_inline. eapply Forall_impl; [exact Hp_in|]. by intros c [[? _] _]. }
  assert (∃ c t, k ++ ch_COLON :: rest = c :: t ∧ solid c ∧ c ≠ ch_SHARP ∧ c ≠ ch_AT)
    as (c & t & Hct & Hc & Hcsh & Hcat).
  { destruct k as [|c k'].
    - by exists ch_COLON, rest.
    - exists c, (k' ++ ch_COLON :: rest). simpl in *. split_and!; try done; congruence. }
  assert (pending s = p ++ c :: t) as Hp'.
  { rewrite Hp, Hsplit at 1. by rewrite <- app_assoc, Hct. }
  destruct (parseKey_seek_blanks p c t s Hws Hc Hcsh Hp') as (s1 & E1 & Hp1 & Hf1 & Hl1).
  destruct (Z.eqb_spec c ch_AT); [done|].
  rewrite <- Hct in Hp1.
  destruct (parseKey_read_key k rest false (b_Reset s1) Hk_in Hp1)
    as (s2 & E2 & Hp2 & Hf2 & Hl2).
  exists s2. split_and!.
  - unfold parseKey. rewrite E1, E2. simpl. unfold k. by rewrite key_tail_trimLeft.
  - split; [done|]. split; [|simpl in Hl2; lia].
    eapply same_frame_trans; [exact Hf1|].
    eapply same_frame_trans; [apply same_frame_b_Reset | exact Hf2].
  - intros v r. unfold Record_Set.
    fold (normKey (strings_Join (strings_Fields kt) [ch_MINUS])) (normKey kt).
    by rewrite normKey_Join_Fields.
Qed.
(** ** Fields whose value has no quotation mark *)

Lemma split_line_none l : ch_LF ∉ l → split_line l = None.
Proof.
  induction l as [|c l IH]; intros Hl; simpl; [done|].
  apply not_elem_of_cons in Hl as [Hc Hl].
  destruct (Z.eqb_spec c ch_LF); [done|]. by rewrite IH.
Qed.

Lemma forallb_rev (f : rune → bool) l : forallb f (rev l) = forallb f l.
Proof.
  induction l as [|c l IH]; [done|]. simpl.
  rewrite forallb_app, IH. simpl. by rewrite andb_true_r, andb_comm.
Qed.

Lemma TrimSpace_app_space x ws :
  forallb unicode_IsSpace ws = true →
  strings_TrimSpace (x ++ ws) = strings_TrimSpace x.
Proof.
  intros Hws. unfold strings_TrimSpace.
  destruct (trimLeft_split x) as (p & Hp & Hsp & Hh).
  destruct (trimLeft x) as [|c t] eqn:Ht.
  - rewrite app_nil_r in Hp. subst p.
    rewrite (trimLeft_all_space (x ++ ws)); [done|].
    by rewrite forallb_app, Hsp, Hws.
  - rewrite Hp at 1. rewrite <- app_assoc, trimLeft_app_space by done.
    change ((c :: t) ++ ws) with (c :: (t ++ ws)). rewrite trimLeft_solid by done.
    change (c :: (t ++ ws)) with ((c :: t) ++ ws).
    rewrite rev_app_distr, trimLeft_app_space; [done|].
    by rewrite forallb_rev.
Qed.

(** A value without quotation mark that the end of the data cuts: the text
    comes back from [ReadString] together with the error. *)
Lemma parseValue_line_end sp c v s :
  Forall blank sp → solid c → c ≠ ch_QUOTE → ch_LF ∉ v →
  pending s = sp ++ c :: v →
  ∃ s', parseValue s = (c :: v, Some (rd_err (s_r s)), s') ∧ moved s s' [] 0.
Proof.
  intros Hsp Hc Hq Hv Hp. destruct (solid_neq c Hc) as (HLF & HCR & _).
  destruct (parseValue_seek_blanks sp c v s Hsp HCR Hp)
    as (s1 & Hp1 & Hf1 & Hl1 & E1).
  destruct (readRune_moved s1 c _ Hp1 HCR) as (s2 & E2 & (Hp2 & Hf2 & Hl2) & _ & Hu).
  unfold parseValue. rewrite E1, parseValue_seek_unfold, E2.
  destruct (Z.eqb_spec c ch_LF); [done|]. rewrite Hc.
  destruct (Z.eqb_spec c ch_QUOTE); [done|].
  unfold bufio_ReadString. fold (pending (r_UnreadRune s2)). rewrite Hu.
  rewrite (split_line_none (c :: v)).
  2:{ intros [?|?]%elem_of_cons; [congruence | done]. }
  assert (rd_err (s_r (r_UnreadRune s2)) = rd_err (s_r s)) as Herr.
  { destruct Hf1 as (Ha & _), Hf2 as (Hb & _).
    destruct (same_frame_r_UnreadRune s2) as (Hc' & _). congruence. }
  rewrite Herr. eexists. split; [done|]. split; [done|]. split; [|simpl; lia].
  destruct Hf1 as (?&?&?&?), Hf2 as (?&?&?&?).
  unfold r_UnreadRune, bufio_UnreadRune.
  destruct (rd_last (s_r s2)); repeat split; simpl; congruence.
Qed.

(** X9.  A field whose value has no quotation mark.  When the line ends
    with a newline the value is the rest of the line, and [Set] stores it
    without the white space at its end (blanks, a carriage return): [Get]
    of the key returns the trimmed text.  The line counter does not count
    that newline.  When the data end before the newline, [parseValue]
    returns the error of the stream with the text, and [parseRecord] ends
    the record without that field. *)
Theorem unquoted_field (ws key sp v : list rune) (c : rune) (rec : Record_)
    (s : Scanner) :
  Forall (λ c, unicode_IsSpace c = true ∧ c ≠ ch_CR) ws →
  plain_key key → Forall blank sp →
  solid c → c ≠ ch_QUOTE → ch_LF ∉ v →
  (∀ rest, pending s = ws ++ key ++ ch_COLON :: sp ++ (c :: v) ++ ch_LF :: rest →
     ∃ s', moved s s' rest (count_LF ws) ∧
           parseRecord_fields (fuel_of s) rec s =
           parseRecord_fields (fuel_of s') (Record_Set key (c :: v) rec) s' ∧
           Record_Get key (Record_Set key (c :: v) rec) = strings_TrimSpace (c :: v) ∧
           strings_TrimSpace (c :: v) ≠ []) ∧
  (pending s = ws ++ key ++ ch_COLON :: sp ++ c :: v →
     ∃ s', pending s' = [] ∧ parseRecord_fields (fuel_of s) rec s = (rec, s')).
Proof.
  intros Hws Hkey Hsp Hc Hq Hv.
  pose proof (normKey_plain_nonempty key Hkey) as Hnk.
  split.
  - intros rest Hp.
    destruct (parseKey_plain ws key _ s Hws Hkey Hp) as (s1 & E1 & Hm1).
    destruct (parseValue_line sp c v rest s1 Hsp Hc Hq Hv (proj1 Hm1)) as (s2 & E2 & Hm2).
    exists s2. split_and!.
    + replace (count_LF ws) with (count_LF ws + 0) by lia. by eapply moved_trans.
    + rewrite (parseRecord_fields_set _ _ _ _ _ _ E1 E2). f_equal.
      apply Record_Set_ext. by apply TrimSpace_app_space.
    + by apply Record_Get_Set_same.
    + unfold strings_TrimSpace. rewrite trimLeft_solid by done.
      intros H%(f_equal (@rev _)). rewrite rev_involutive in H. simpl in H.
      destruct (trimLeft_split (rev v ++ [c])) as (p & Hp' & Hsp' & _).
      rewrite H, app_nil_r in Hp'. rewrite <- Hp' in Hsp'.
      rewrite forallb_app in Hsp'. simpl in Hsp'. unfold solid in Hc.
      rewrite Hc in Hsp'. by rewrite andb_false_r in Hsp'.
  - intros Hp.
    destruct (parseKey_plain ws key _ s Hws Hkey Hp) as (s1 & E1 & Hm1).
    destruct (parseValue_line_end sp c v s1 Hsp Hc Hq Hv (proj1 Hm1)) as (s2 & E2 & Hm2).
    exists s2. split; [apply Hm2|]. by eapply parseRecord_fields_value_err.
Qed.
(** ** How Scan ends *)

Lemma parseRecord_header_err n s e s' :
  (length (pending s) < n)%nat →
  parseRecord_header n s = (inr e, s') →
  pending s' = [] ∧
  e = if is_EOF (rd_err (s_r s)) then rd_err (s_r s)
      else errors_Wrapf (rd_err (s_r s)) "reclist: scanner: line %d" [s_line s'].
Proof.
  revert s. induction n as [|n IH]; intros s Hn; [lia|].
  rewrite parseRecord_header_step. cbv zeta.
  destruct (bufio_ReadString (s_r (incr_line s))) as [[line err] rd] eqn:E.
  destruct (bufio_ReadString_inv _ _ _ _ E) as (He & Hr). simpl in He.
  destruct err as [e0|].
  { destruct Hr as (-> & _ & Hb & _). simpl.
    destruct (is_EOF (rd_err (s_r s))); by intros [= <- <-]. }
  destruct Hr as (_ & Hlt & _). simpl in Hlt.
  destruct (header_of line); [done|].
  intros H. destruct (IH (set_r (incr_line s) rd)) as [Hp' He']; [|done|].
  { unfold pending in *. simpl. lia. }
  split; [done|]. simpl in He'. by rewrite He in He'.
Qed.

Lemma parseRecord_err s e s' :
  parseRecord s = (None, Some e, s') →
  pending s' = [] ∧
  e = if is_EOF (rd_err (s_r s)) then rd_err (s_r s)
      else errors_Wrapf (rd_err (s_r s)) "reclist: scanner: line %d" [s_line s'].
Proof.
  unfold parseRecord.
  destruct (parseRecord_header (fuel_of s) s) as [[rec|e0] s1] eqn:E.
  { by destruct (parseRecord_fields _ rec s1). }
  intros [= <- <-]. eapply parseRecord_header_err; [|exact E]. unfold fuel_of. lia.
Qed.

Lemma Scan_loop_false n s s' :
  (length (pending s) < n)%nat →
  Scan_loop (fuel_of s) s = (false, s') →
  s_closed s' = true ∧ s_rec s' = s_rec s ∧ pending s' = [] ∧
  s_err s' =
    if is_EOF (errors_Cause (rd_err (s_r s))) then s_err s
    else Some (errors_Wrapf (rd_err (s_r s)) "reclist: scanner: line %d" [s_line s']).
Proof.
  revert s. induction n as [|n IH]; intros s Hn; [lia|].
  rewrite Scan_loop_unfold.
  destruct (parseRecord s) as [[res err] s1] eqn:E.
  destruct (parseRecord_inv _ _ _ _ E) as (Hf & Hr).
  destruct Hf as (Hrd & Hcl & Herr & Hrec).
  destruct err as [e|].
  - destruct res; [done|]. destruct (parseRecord_err _ _ _ E) as [Hp1 He].
    cbv zeta. rewrite Hr.
    destruct (is_EOF (errors_Cause (rd_err (s_r s)))) eqn:Heof; intros [= <-]; simpl.
    + done.
    + split_and!; try done. rewrite He.
      destruct (rd_err (s_r s)); simpl in *; done.
  - destruct res as [rec|]; [|done]. destruct Hr as (Hlt & _).
    case_bool_decide; [|done]. intros Hloop.
    destruct (IH s1) as (? & ? & ? & Herr'); [lia | done |].
    split_and!; try done; [congruence|]. by rewrite Herr', Hrd, Herr.
Qed.

(** X10.  When [Scan] returns false the scanner is closed and stays so:
    every later [Scan] returns false and changes nothing, and no record is
    made ready.  The [Scan] that closes the scanner has read the data to
    their end; [Err] stays as it was when the cause of the error of the
    stream is [io.EOF], and is otherwise that error, wrapped with the number
    of the line at which reading failed. *)
Theorem Scan_false_is_final (s s' : Scanner) :
  Scanner_Scan s = (false, s') →
  s_closed s' = true ∧ s_rec s' = s_rec s ∧
  Scanner_Scan s' = (false, s') ∧
  (s_closed s = false →
   pending s' = [] ∧
   Scanner_Err s' =
     if is_EOF (errors_Cause (rd_err (s_r s))) then Scanner_Err s
     else Some (errors_Wrapf (rd_err (s_r s)) "reclist: scanner: line %d"
                  [s_line s'])).
Proof.
  unfold Scanner_Scan at 1. destruct (s_closed s) eqn:Hcl.
  - intros [= <-]. unfold Scanner_Scan. by rewrite Hcl.
  - intros H. destruct (Scan_loop_false (fuel_of s) s s') as (Hc & Hrec & Hp & Herr);
      [unfold fuel_of; lia | done |].
    unfold Scanner_Scan. rewrite Hc. by split_and!.
Qed.

Lemma Scan_loop_true n s s' :
  Scan_loop n s = (true, s') →
  (length (pending s') < length (pending s))%nat ∧
  s_closed s' = s_closed s ∧ s_err s' = s_err s ∧
  ∃ rec, s_rec s' = Some rec ∧ rec_typ rec ≠ [] ∧ rec_id rec ≠ [].
Proof.
  revert s. induction n as [|n IH]; intros s; simpl; [done|].
  destruct (parseRecord s) as [[res err] s1] eqn:E.
  destruct (parseRecord_inv _ _ _ _ E) as (Hf & Hr).
  destruct Hf as (_ & Hcl & Herr & _).
  destruct err as [e|].
  { cbv zeta. destruct res, (is_EOF _); by intros [= <-]. }
  destruct res as [rec|]; [|done]. destruct Hr as (Hlt & Ht & Hi).
  case_bool_decide.
  - intros (Hlt' & Hcl' & Herr' & Hrec)%IH. split; [lia|].
    split; [congruence|]. split; [congruence | done].
  - intros [= <-]. simpl. split; [done|]. split; [done|]. split; [done|].
    by exists rec.
Qed.

(** X20.  A [Scan] that returns true has read at least one rune of the data,
    leaves the scanner open and [Err] as it was, and has made ready a record
    whose type and ID are not empty, which [Record] returns: the loop
    [for s.Scan() { rec := s.Record() ... }] ends, after at most as many turns
    as the data have runes. *)
Theorem Scan_true_advances (s s' : Scanner) :
  Scanner_Scan s = (true, s') →
  (length (pending s') < length (pending s))%nat ∧
  s_closed s = false ∧ s_closed s' = false ∧ Scanner_Err s' = Scanner_Err s ∧
  ∃ rec, Scanner_Record s' = Some (rec, set_rec s' None) ∧
         Record_Type rec ≠ [] ∧ Record_ID rec ≠ [] ∧
         pending (set_rec s' None) = pending s'.
Proof.
  unfold Scanner_Scan. destruct (s_closed s) eqn:Hcl; [done|].
  intros (Hlt & Hcl' & Herr & rec & Hrec & Ht & Hi)%Scan_loop_true.
  split; [done|]. split; [done|]. split; [congruence|]. split; [done|].
  exists rec. unfold Scanner_Record. by rewrite Hrec.
Qed.
(** ** Laws of the writer *)

Lemma bufio_WriteString_failed str w e :
  w_err w = Some e → bufio_WriteString str w = (Some e, w).
Proof. unfold bufio_WriteString. by intros ->. Qed.

Lemma writeQuoted_failed key value w e :
  w_err w = Some e →
  writeQuoted key value w = (Some (errors_Wrap e "reclist: writer"), w).
Proof.
  intros Hw. unfold writeQuoted.
  by destruct (len key <? 6); rewrite (bufio_WriteString_failed _ w e Hw).
Qed.

Lemma writeField_failed key value w e :
  w_err w = Some e →
  writeField key value w = (Some (errors_Wrap e "reclist: writer"), w).
Proof.
  intros Hw. unfold writeField.
  destruct (strings_Contains value ch_LF); [by apply writeQuoted_failed|].
  by destruct (len key <? 6); rewrite (bufio_WriteString_failed _ w e Hw).
Qed.

Lemma Write_fields_failed keys rec w e :
  w_err w = Some e →
  Write_fields keys rec w =
  (if forallb (λ k, bool_decide (Record_Get k rec = [])) keys then None
   else Some (errors_Wrap e "reclist: writer"), w).
Proof.
  intros Hw. induction keys as [|k keys IH]; simpl; [done|].
  case_bool_decide; simpl; [exact IH|].
  by rewrite (writeField_failed k _ w e Hw).
Qed.

(** X11.  Once the sink has failed the writer writes nothing more:
    [writeField] and [writeQuoted] return the error of the sink, wrapped,
    [Write] returns it for every record that has a field, an ID and a type
    (and nil for the records it passes over), and [Err] reports it. *)
Theorem writer_error_is_sticky (rec : Record_) (w : Writer) (e : error) :
  w_err w = Some e →
  (∀ key value,
     writeField key value w = (Some (errors_Wrap e "reclist: writer"), w) ∧
     writeQuoted key value w = (Some (errors_Wrap e "reclist: writer"), w)) ∧
  Writer_Write rec w =
    (if bool_decide (Record_Keys rec = [] ∨ Record_ID rec = [] ∨ Record_Type rec = [])
     then None else Some (errors_Wrap e "reclist: writer"), w) ∧
  Writer_Err (Writer_Write rec w).2 = Some (errors_Wrap e "reclist: writer") ∧
  Writer_Err (Writer_Flush w) = Some (errors_Wrap e "reclist: writer").
Proof.
  intros Hw.
  assert (Writer_Write rec w =
    (if bool_decide (Record_Keys rec = [] ∨ Record_ID rec = [] ∨ Record_Type rec = [])
     then None else Some (errors_Wrap e "reclist: writer"), w)) as HW.
  { unfold Writer_Write. case_bool_decide as Hk.
    { apply length_zero_iff_nil in Hk. rewrite bool_decide_eq_true_2; [done|]. by left. }
    case_bool_decide as Hi; simpl.
    { rewrite bool_decide_eq_true_2; [done|]. by right; left. }
    case_bool_decide as Ht; simpl.
    { rewrite bool_decide_eq_true_2; [done|]. by right; right. }
    rewrite (bufio_WriteString_failed _ w e Hw).
    rewrite bool_decide_eq_false_2; [done|].
    intros [H0|[H0|H0]]; [|done..]. apply Hk. by rewrite H0. }
  split_and!.
  - intros key value. split; [by apply writeField_failed | by apply writeQuoted_failed].
  - done.
  - rewrite HW. unfold Writer_Err. simpl. by rewrite Hw.
  - unfold Writer_Err, Writer_Flush. by rewrite Hw.
Qed.

(** *** The text of a record *)

Lemma field_text_end key value : ∃ t, field_text key value = t ++ [ch_LF].
Proof.
  destruct (strings_Contains value ch_LF) eqn:Hc.
  - rewrite field_text_quoted by done.
    eexists ([ch_TAB] ++ key ++ ch_COLON :: [_] ++ ch_QUOTE ::
              quoted_text value true false false ++ [ch_QUOTE]).
    by list_assoc.
  - rewrite field_text_line by done.
    eexists ([ch_TAB] ++ key ++ ch_COLON :: [_] ++ value). by list_assoc.
Qed.

Lemma fields_text_end keys rec :
  fields_text keys rec = [] ∨ ∃ t, fields_text keys rec = t ++ [ch_LF].
Proof.
  induction keys as [|k keys IH]; [by left|].
  unfold fields_text. cbn [foldr]. fold (fields_text keys rec).
  case_bool_decide; [exact IH|]. right.
  destruct IH as [->|(t & ->)].
  - rewrite app_nil_r. apply field_text_end.
  - exists (field_text k (Record_Get k rec) ++ t). by rewrite app_assoc.
Qed.

(** X12.  On a sink that has not failed [Write] returns nil and appends the
    text of the record to what was written before, which it leaves as it
    was; the text does not depend on what was written before.  It is empty
    exactly for the records without a field, without ID or without type;
    otherwise it begins with the at sign of the header and ends with a
    newline. *)
Theorem Write_appends_the_record_text (rec : Record_) (w : Writer) :
  w_err w = None →
  let text := w_out (Writer_Write rec NewWriter).2 in
  Writer_Write rec w = (None, mkWriter (w_out w ++ text) None) ∧
  (text = [] ↔ Record_Keys rec = [] ∨ Record_ID rec = [] ∨ Record_Type rec = []) ∧
  (text ≠ [] →
   ∃ t, text = [ch_AT] ++ Record_Type rec ++ [ch_EQUAL] ++ Record_ID rec ++ [ch_LF] ++ t
        ∧ last text = Some ch_LF).
Proof.
  intros Hw text.
  destruct (decide (Record_Keys rec = [] ∨ Record_ID rec = [] ∨ Record_Type rec = []))
    as [Hno|Hyes].
  - assert (∀ w0, Writer_Write rec w0 = (None, w0)) as HW.
    { intros w0. unfold Writer_Write. destruct Hno as [H0|[H0|H0]]; rewrite H0.
      - done.
      - case_bool_decide; [done|]. by rewrite bool_decide_eq_true_2.
      - case_bool_decide; [done|]. case_bool_decide; [done|].
        by rewrite bool_decide_eq_true_2. }
    assert (text = []) as Ht by (unfold text; by rewrite HW).
    rewrite Ht, app_nil_r, HW. split_and!; [by destruct w; simpl in *; subst | done | done].
  - assert (Record_Keys rec ≠ [] ∧ rec_id rec ≠ [] ∧ rec_typ rec ≠ []) as (Hk & Hi & Ht).
    { split_and!; intros H0; apply Hyes; auto. }
    assert (text = [ch_AT] ++ Record_Type rec ++ [ch_EQUAL] ++ Record_ID rec ++
                   [ch_LF] ++ fields_text (Record_Keys rec) rec) as Htext.
    { unfold text. by rewrite (Writer_Write_ok rec NewWriter eq_refl Hk Hi Ht). }
    split_and!.
    + by rewrite (Writer_Write_ok rec w Hw Hk Hi Ht), Htext.
    + by rewrite Htext.
    + intros _. exists (fields_text (Record_Keys rec) rec). split; [done|].
      rewrite Htext. destruct (fields_text_end (Record_Keys rec) rec) as [->|(t & ->)].
      * rewrite app_nil_r, !app_assoc. apply last_snoc.
      * rewrite !app_assoc. apply last_snoc.
Qed.

(** *** The text between the quotation marks *)

Lemma unterminated_plain c q :
  c ≠ ch_QUOTE → c ≠ ch_BACKSLASH → unterminated (c :: q) = unterminated q.
Proof.
  intros Hq Hb. simpl. destruct (Z.eqb_spec c ch_QUOTE); [done|].
  by destruct (Z.eqb_spec c ch_BACKSLASH).
Qed.

Lemma unterminated_escaped c q :
  unterminated (escaped c ++ q) = unterminated q.
Proof.
  unfold escaped. destruct (Z.eqb_spec c ch_QUOTE); [done|].
  destruct (Z.eqb_spec c ch_BACKSLASH); [done|]. by apply unterminated_plain.
Qed.

Lemma unterminated_quoted_text v first space line :
  unterminated (quoted_text v first space line) = true.
Proof.
  revert first space line. induction v as [|c v IH]; intros first space line; [done|].
  destruct (decide (c = ch_LF)) as [->|HLF].
  { rewrite quoted_text_LF. destruct first; apply IH. }
  destruct (unicode_IsSpace c) eqn:Hc.
  { rewrite quoted_text_space by done. apply IH. }
  rewrite quoted_text_solid by done.
  destruct line; [|destruct space]; simpl app;
    rewrite ?unterminated_plain by done; by rewrite unterminated_escaped.
Qed.

Lemma quoted_text_collapse_loop v space line :
  quoted_text (collapse_loop v false space line) false false false =
  quoted_text v false space line.
Proof.
  revert space line. induction v as [|c v IH]; intros space line; [done|].
  cbn [collapse_loop].
  destruct (Z.eqb_spec c ch_LF) as [->|HLF].
  { rewrite quoted_text_LF. simpl. apply IH. }
  destruct (unicode_IsSpace c) eqn:Hc.
  { rewrite quoted_text_space by done. simpl. apply IH. }
  rewrite (quoted_text_solid c v) by done.
  destruct line; [|destruct space]; simpl app.
  - rewrite quoted_text_LF. simpl. rewrite quoted_text_solid by done. by rewrite IH.
  - rewrite quoted_text_space by done. simpl.
    rewrite quoted_text_solid by done. by rewrite IH.
  - rewrite quoted_text_solid by done. by rewrite IH.
Qed.

Lemma quoted_text_collapse v :
  quoted_text (collapse v) true false false = quoted_text v true false false.
Proof.
  unfold collapse. induction v as [|c v IH]; [done|].
  cbn [collapse_loop].
  destruct (Z.eqb_spec c ch_LF) as [->|HLF].
  { rewrite quoted_text_LF. simpl. apply IH. }
  destruct (unicode_IsSpace c) eqn:Hc.
  { rewrite quoted_text_space by done. simpl. apply IH. }
  simpl app. rewrite !quoted_text_solid by done.
  by rewrite quoted_text_collapse_loop.
Qed.

(** X13.  What [writeQuoted] writes between the quotation marks has no
    quotation mark of its own that is not escaped, so that [quoteValue]
    reads it up to the quotation mark that [writeQuoted] closes it with;
    and writing the value that is read back gives the same text again: the
    quoted form of a value is stable from the first writing on. *)
Theorem quoted_form_is_stable (key v rest : list rune) (w : Writer) (s : Scanner) :
  w_err w = None →
  pending s = quoted_text v true false false ++ ch_QUOTE :: rest →
  unterminated (quoted_text v true false false) = true ∧
  ∃ v' s', quoteValue s = (v', None, s') ∧ pending s' = rest ∧
           writeQuoted key v' w = writeQuoted key v w ∧
           quoted_text v' true false false = quoted_text v true false false.
Proof.
  intros Hw Hp. split; [apply unterminated_quoted_text|].
  destruct (quoteValue_quoted_text v rest s Hp) as (s' & E & Hp' & _).
  exists (collapse v), s'. split_and!; try done.
  - by rewrite !writeQuoted_ok, quoted_text_collapse.
  - apply quoted_text_collapse.
Qed.

(** *** One line or block for every key *)

Lemma fields_text_concat keys rec :
  (∀ k, k ∈ keys → Record_Get k rec ≠ []) →
  fields_text keys rec = concat ((λ k, field_text k (Record_Get k rec)) <$> keys).
Proof.
  induction keys as [|k keys IH]; intros Hks; [done|].
  unfold fields_text. cbn [foldr]. fold (fields_text keys rec).
  rewrite bool_decide_eq_false_2 by (apply Hks; by left).
  simpl. rewrite IH; [done|]. intros k' Hk'. apply Hks. by right.
Qed.

Section WrittenRecords.

Hypothesis ToLower_idempotent :
  ∀ c, unicode_ToLower (unicode_ToLower c) = unicode_ToLower c.
Hypothesis ToLower_IsSpace :
  ∀ c, unicode_IsSpace (unicode_ToLower c) = unicode_IsSpace c.

(** X26.  What [Write] writes for a record made by [NewRecord] and [Set]
    calls, on a sink that takes the data: nothing when the record has no
    field, and otherwise the header line followed by the text of one field
    for every key of [Keys], in the order of [Keys]; no key is passed over
    (the value that [Get] returns for a listed key is never empty). *)
Theorem Write_writes_every_key (typ ID : list rune) (r0 : Record_)
    (ops : list (list rune * list rune)) (w : Writer) :
  NewRecord typ ID = Some r0 → w_err w = None →
  let r := Record_Sets ops r0 in
  (∀ k, k ∈ Record_Keys r → Record_Get k r ≠ []) ∧
  Writer_Write r w =
    (None,
     mkWriter
       (w_out w ++
        if bool_decide (Record_Keys r = []) then []
        else [ch_AT] ++ Record_Type r ++ [ch_EQUAL] ++ Record_ID r ++ [ch_LF] ++
             concat ((λ k, field_text k (Record_Get k r)) <$> Record_Keys r))
       None).
Proof.
  intros Hnew Hw r.
  destruct (built_record_normal_form ToLower_idempotent ToLower_IsSpace
              typ ID r0 ops Hnew) as ((Ht & _) & Hi & _ & Hf).
  fold r in Ht, Hi, Hf.
  assert (∀ k, k ∈ Record_Keys r → Record_Get k r ≠ []) as Hget.
  { intros k [v Hv]%elem_of_Record_Keys. destruct (Hf k v Hv) as (Hn & Hne & _).
    by rewrite Record_Get_lookup, (normKey_normal k Hn), Hv. }
  split; [done|]. case_bool_decide as Hk.
  - unfold Writer_Write. rewrite Hk. simpl. rewrite app_nil_r.
    by destruct w; simpl in *; subst.
  - rewrite (Writer_Write_ok r w Hw Hk Hi Ht).
    by rewrite (fields_text_concat _ _ Hget).
Qed.

End WrittenRecords.
(** ** Files of several records *)

Lemma parseRecord_fields_at ws t acc s :
  Forall (λ c, unicode_IsSpace c = true ∧ c ≠ ch_CR) ws →
  pending s = ws ++ ch_AT :: t →
  ∃ s', parseRecord_fields (fuel_of s) acc s = (acc, s') ∧
        pending s' = ch_AT :: t ∧ same_frame s s'.
Proof.
  intros Hws Hp.
  destruct (parseKey_seek_blanks ws ch_AT t s Hws) as (s1 & E1 & Hp1 & Hf1 & _);
    [done..|].
  exists s1. split; [|done].
  rewrite parseRecord_fields_unfold. unfold parseKey. by rewrite E1.
Qed.

Lemma parseRecord_fields_end ws acc s :
  Forall (λ c, unicode_IsSpace c = true ∧ c ≠ ch_CR) ws →
  pending s = ws →
  ∃ s', parseRecord_fields (fuel_of s) acc s = (acc, s') ∧
        pending s' = [] ∧ same_frame s s'.
Proof.
  intros Hws. revert s. induction Hws as [|w ws [Hw Hw'] _ IH]; intros s Hp.
  - destruct (parseKey_at_end s Hp) as (s1 & E1 & Hp1).
    destruct (parseKey_inv _ _ _ _ _ E1) as (Hf1 & _).
    exists s1. split; [|done]. by eapply parseRecord_fields_key_err.
  - destruct (readRune_moved s w ws Hp Hw') as (s1 & E & (Hp1 & Hf1 & _) & _).
    assert (∃ s1', pending s1' = ws ∧ same_frame s s1' ∧
              parseKey_seek (fuel_of s) s = parseKey_seek (fuel_of s1') s1')
      as (s1' & Hp1' & Hf1' & E1').
    { rewrite parseKey_seek_unfold, E. destruct (w =? ch_LF).
      - exists (incr_line s1). split; [done|]. split; [|done].
        eapply same_frame_trans; [exact Hf1 | apply same_frame_incr_line].
      - rewrite Hw. by exists s1. }
    destruct (IH s1' Hp1') as (s' & E' & Hp' & Hf').
    exists s'. split; [|split; [done | by eapply same_frame_trans]].
    rewrite <- E'. by apply parseRecord_fields_of_parseKey, parseKey_of_seek.
Qed.

(** The fields of a record, as [Write] wrote them, followed by the end of
    the data or by the header of another record. *)
Lemma fields_roundtrip_rest keys rec pre acc rest s :
  Forall (λ c, unicode_IsSpace c = true ∧ c ≠ ch_CR) pre →
  (∀ k, k ∈ keys → scannable_key k ∧ scannable_value (Record_Get k rec)) →
  rest = [] ∨ (∃ t, rest = ch_AT :: t) →
  pending s = pre ++ fields_text keys rec ++ rest →
  ∃ s', parseRecord_fields (fuel_of s) acc s =
        (foldl (λ a k, Record_Set k (read_back (Record_Get k rec)) a) acc keys, s') ∧
        pending s' = rest ∧ same_frame s s'.
Proof.
  revert pre acc s. induction keys as [|k keys IH]; intros pre acc s Hpre Hks Hrest Hp.
  { unfold fields_text in Hp. cbn [foldr app] in Hp.
    destruct Hrest as [->|(t & ->)].
    - rewrite app_nil_r in Hp. by apply (parseRecord_fields_end pre).
    - by apply (parseRecord_fields_at pre). }
  destruct (Hks k) as [Hk Hv]; [by left|].
  unfold fields_text in Hp. cbn [foldr] in Hp. fold (fields_text keys rec) in Hp.
  rewrite bool_decide_eq_false_2 in Hp by (by destruct Hv).
  rewrite <- app_assoc in Hp.
  destruct (field_roundtrip k _ pre _ acc s Hpre Hk Hv Hp)
    as (pre' & s1 & Hpre' & Hp1 & Hf1 & E1).
  destruct (IH pre' (Record_Set k (read_back (Record_Get k rec)) acc) s1 Hpre')
    as (s' & E' & Hp' & Hf'); [|done..|].
  { intros k' Hin. apply Hks. by right. }
  exists s'. rewrite E1, E'. split; [done|]. split; [done|].
  by eapply same_frame_trans.
Qed.

Lemma portable_keys rec :
  portable rec →
  Record_Keys rec ≠ [] ∧
  ∀ k, k ∈ Record_Keys rec →
       scannable_key k ∧ scannable_value (Record_Get k rec) ∧
       rec_data rec !! k = Some (Record_Get k rec).
Proof.
  intros (_ & _ & _ & _ & Hdata & Hfields). split.
  - intros H0. apply Hdata. apply map_size_empty_iff.
    by rewrite <- Record_Keys_length, H0.
  - intros k [v Hv]%elem_of_Record_Keys. destruct (Hfields k v Hv) as [Hk Hsv].
    rewrite Record_Get_lookup, (normKey_normal k) by apply Hk.
    by rewrite Hv.
Qed.

Lemma record_text_portable rec :
  portable rec →
  record_text rec = [ch_AT] ++ rec_typ rec ++ [ch_EQUAL] ++ rec_id rec ++
                    [ch_LF] ++ fields_text (Record_Keys rec) rec.
Proof.
  intros Hrec. destruct (portable_keys rec Hrec) as [Hk _].
  destruct Hrec as ((Ht & _) & _ & Hi & _).
  unfold record_text. by rewrite (Writer_Write_ok rec NewWriter eq_refl Hk Hi Ht).
Qed.

(** The record that the [Set] calls of the scanner build. *)
Lemma read_back_record_built rec :
  portable rec →
  foldl (λ a k, Record_Set k (read_back (Record_Get k rec)) a)
        (mkRecord (rec_id rec) (rec_typ rec) ∅) (Record_Keys rec)
  = read_back_record rec.
Proof.
  intros Hrec. destruct (portable_keys rec Hrec) as [_ Hks].
  set (val := λ k, read_back (Record_Get k rec)).
  set (rec0 := mkRecord (rec_id rec) (rec_typ rec) ∅).
  destruct (Record_Sets_distinct val (Record_Keys rec) rec0 (Record_Keys_NoDup rec))
    as (Ht & Hi & Hin & Hout).
  { intros k Hk. destruct (Hks k Hk) as (Hsk & Hsv & _).
    split; [apply normKey_normal, Hsk|]. split; [apply Hsk|].
    by apply scannable_value_read_back. }
  apply Record_eq; [done..|]. apply map_eq. intros k.
  unfold read_back_record. cbn [rec_data]. rewrite lookup_fmap.
  destruct (decide (k ∈ Record_Keys rec)) as [Hk|Hk].
  - etrans; [apply (Hin k Hk)|]. destruct (Hks k Hk) as (_ & _ & ->). done.
  - etrans; [apply (Hout k Hk)|]. simpl. rewrite lookup_empty.
    rewrite elem_of_Record_Keys in Hk.
    destruct (rec_data rec !! k); [by destruct Hk | done].
Qed.

(** One record of a file: [Scan] reads the text of the record and stops
    before what follows it. *)
Lemma Scan_record_text rec rest s :
  portable rec → s_closed s = false →
  rest = [] ∨ (∃ t, rest = ch_AT :: t) →
  pending s = record_text rec ++ rest →
  ∃ s1, Scanner_Scan s = (true, set_rec s1 (Some (read_back_record rec))) ∧
        pending s1 = rest ∧ same_frame s s1.
Proof.
  intros Hrec Hcl Hrest Hp. rewrite (record_text_portable rec Hrec) in Hp.
  destruct (portable_keys rec Hrec) as [Hkeys Hks].
  pose proof Hrec as (Htyp & Heq & Hid & Hidn & Hdata & _).
  destruct (parseRecord_header_line (rec_typ rec) (rec_id rec)
              (fields_text (Record_Keys rec) rec ++ rest) s Htyp Heq Hid Hidn)
    as (s1 & E1 & Hp1 & Hf1).
  { rewrite Hp. by list_assoc. }
  destruct (fields_roundtrip_rest (Record_Keys rec) rec []
              (mkRecord (rec_id rec) (rec_typ rec) ∅) rest s1)
    as (s2 & E2 & Hp2 & Hf2); [done | | done | done |].
  { intros k Hk. by destruct (Hks k Hk) as (? & ? & _). }
  rewrite (read_back_record_built rec Hrec) in E2.
  assert (parseRecord s = (Some (read_back_record rec), None, s2)) as Hparse.
  { unfold parseRecord. by rewrite E1, E2. }
  exists s2. split; [|split; [done | by eapply same_frame_trans]].
  unfold Scanner_Scan. rewrite Hcl, Scan_loop_unfold, Hparse.
  rewrite bool_decide_eq_false_2; [done|].
  unfold read_back_record. cbn [rec_data]. intros H0%map_size_empty_iff.
  apply fmap_empty_inv in H0. done.
Qed.

Lemma Write_each_ok recs w :
  w_err w = None →
  Write_each recs w = mkWriter (w_out w ++ concat (record_text <$> recs)) None.
Proof.
  revert w. induction recs as [|rec recs IH]; intros w Hw; simpl.
  { rewrite app_nil_r. by destruct w; simpl in *; subst. }
  destruct (decide (Record_Keys rec = [] ∨ Record_ID rec = [] ∨ Record_Type rec = []))
    as [Hno|Hyes].
  - assert (∀ w0, Writer_Write rec w0 = (None, w0)) as HW.
    { intros w0. unfold Writer_Write. destruct Hno as [H0|[H0|H0]]; rewrite H0.
      - done.
      - case_bool_decide; [done|]. by rewrite bool_decide_eq_true_2.
      - case_bool_decide; [done|]. case_bool_decide; [done|].
        by rewrite bool_decide_eq_true_2. }
    unfold record_text. rewrite !HW. simpl. by apply IH.
  - assert (Record_Keys rec ≠ [] ∧ rec_id rec ≠ [] ∧ rec_typ rec ≠ []) as (Hk & Hi & Ht).
    { split_and!; intros H0; apply Hyes; auto. }
    unfold record_text at 1.
    rewrite (Writer_Write_ok rec w Hw Hk Hi Ht).
    rewrite (Writer_Write_ok rec NewWriter eq_refl Hk Hi Ht).
    cbn [snd w_out NewWriter app]. rewrite IH by done. cbn [w_out].
    f_equal. by list_assoc.
Qed.

Lemma record_texts_head recs :
  Forall portable recs →
  concat (record_text <$> recs) = [] ∨
  ∃ t, concat (record_text <$> recs) = ch_AT :: t.
Proof.
  intros [|rec recs' Hrec _]; [by left|]. right. simpl.
  rewrite (record_text_portable rec Hrec). by eexists.
Qed.

Lemma Scan_at_end s :
  s_closed s = false → pending s = [] →
  ∃ s', Scanner_Scan s = (false, s') ∧ s_closed s' = true ∧
        s_err s' = if is_EOF (errors_Cause (rd_err (s_r s))) then s_err s
                   else Some (errors_Wrapf (rd_err (s_r s))
                                "reclist: scanner: line %d" [s_line s + 1]).
Proof.
  intros Hcl Hp. unfold Scanner_Scan. rewrite Hcl, Scan_loop_unfold.
  unfold parseRecord. rewrite parseRecord_header_unfold. cbv zeta.
  unfold bufio_ReadString. cbn [s_r incr_line set_line]. fold (pending s).
  rewrite Hp. cbn [split_line].
  destruct (rd_err (s_r s)) as [|n|c f a] eqn:He; simpl.
  - eexists. by split.
  - eexists. by split.
  - destruct (is_EOF (errors_Cause c)); eexists; by split.
Qed.

(** The records of a file, one [Scan] after the other. *)
Lemma Scan_record_texts recs s :
  Forall portable recs →
  s_closed s = false → s_err s = None →
  errors_Cause (rd_err (s_r s)) = io_EOF →
  pending s = concat (record_text <$> recs) →
  ∃ s', Scan_yields s (read_back_record <$> recs) s' ∧
        Scanner_Err s' = None ∧ s_closed s' = true.
Proof.
  intros Hrecs. revert s.
  induction Hrecs as [|rec recs Hrec Hrecs IH]; intros s Hcl Herr Hrd Hp.
  - destruct (Scan_at_end s Hcl Hp) as (s' & E & Hcl' & Herr').
    exists s'. split; [done|]. split; [|done].
    unfold Scanner_Err. by rewrite Herr', Hrd.
  - simpl in Hp.
    destruct (Scan_record_text rec _ s Hrec Hcl (record_texts_head recs Hrecs) Hp)
      as (s1 & E1 & Hp1 & (Hrd1 & Hcl1 & Herr1 & _)).
    destruct (IH (set_rec (set_rec s1 (Some (read_back_record rec))) None))
      as (s' & Hy & Herr' & Hcl');
      [simpl; congruence | simpl; congruence | simpl; congruence | done |].
    exists s'. split; [|done]. simpl.
    exists (set_rec s1 (Some (read_back_record rec))),
           (set_rec (set_rec s1 (Some (read_back_record rec))) None).
    by split.
Qed.

(** X14.  A file of records.  The records of a list that the format carries
    are written one after the other by [Write]; on the text written [Scan]
    and [Record] return, in the same order and one for each record written,
    a record of the same type and ID whose values are the values written as
    they are read back; then [Scan] returns false, and [Err] returns nil
    when the stream ends with [io.EOF]. *)
Theorem written_file_is_read_back (recs : list Record_) (e : error) :
  Forall portable recs → errors_Cause e = io_EOF →
  let w := Write_each recs NewWriter in
  Writer_Err w = None ∧
  ∃ s', Scan_yields (NewScanner (w_out w) e) (read_back_record <$> recs) s' ∧
        Scanner_Err s' = None ∧ s_closed s' = true.
Proof.
  intros Hrecs He w.
  assert (w = mkWriter (concat (record_text <$> recs)) None) as ->.
  { unfold w. by rewrite Write_each_ok. }
  split; [done|]. cbn [w_out].
  by apply Scan_record_texts.
Qed.
(** ** Reading back is stable *)

Lemma collapse_loop_idem v space line :
  collapse_loop (collapse_loop v false space line) false false false =
  collapse_loop v false space line.
Proof.
  revert space line. induction v as [|c v IH]; intros space line; [done|].
  cbn [collapse_loop].
  destruct (Z.eqb_spec c ch_LF) as [->|HLF]; [apply IH|].
  destruct (unicode_IsSpace c) eqn:Hc; [apply IH|].
  destruct line; [|destruct space]; simpl app; cbn [collapse_loop]; simpl;
    destruct (Z.eqb_spec c ch_LF); try done; rewrite Hc; simpl; by rewrite IH.
Qed.

Lemma collapse_idem v : collapse (collapse v) = collapse v.
Proof.
  unfold collapse. induction v as [|c v IH]; [done|].
  cbn [collapse_loop].
  destruct (Z.eqb_spec c ch_LF) as [->|HLF]; [apply IH|].
  destruct (unicode_IsSpace c) eqn:Hc; [apply IH|].
  simpl app. cbn [collapse_loop].
  destruct (Z.eqb_spec c ch_LF); [done|]. rewrite Hc. simpl.
  by rewrite collapse_loop_idem.
Qed.

(** A newline between two words stays a newline. *)
Lemma collapse_loop_keeps_LF t space line :
  (∃ t' c, t = t' ++ [c] ∧ solid c) →
  ch_LF ∈ t ∨ line = true →
  ch_LF ∈ collapse_loop t false space line.
Proof.
  revert space line. induction t as [|x t IH]; intros space line (t' & c & Ht & Hc) HLF.
  { by destruct t'. }
  assert (t = [] ∧ x = c ∨ ∃ t'' c', t = t'' ++ [c'] ∧ solid c') as Hlast.
  { destruct t' as [|y t']; simplify_eq/=; [by left|]. right. by eauto. }
  cbn [collapse_loop].
  destruct (Z.eqb_spec x ch_LF) as [->|Hx].
  { destruct Hlast as [[_ <-]|Hlast]; [done|]. simpl. apply IH; [done | by right]. }
  assert (ch_LF ∈ t ∨ line = true) as HLF'.
  { destruct HLF as [[?|?]%elem_of_cons|?]; [done | by left | by right]. }
  destruct (unicode_IsSpace x) eqn:Hsx.
  { destruct Hlast as [[_ ->]|Hlast]; [unfold solid in Hc; congruence|].
    by apply IH. }
  destruct line; [by left|].
  destruct HLF' as [Hin|?]; [|done].
  destruct Hlast as [[-> _]|Hlast]; [by apply elem_of_nil in Hin|].
  apply elem_of_app. right. right. apply IH; [done | by left].
Qed.

Lemma strings_Contains_true v c : c ∈ v → strings_Contains v c = true.
Proof.
  unfold strings_Contains. intros Hin. apply existsb_exists. exists c.
  split; [by apply list_elem_of_In | apply Z.eqb_refl].
Qed.

Lemma read_back_scannable v :
  scannable_value v →
  scannable_value (read_back v) ∧ read_back (read_back v) = read_back v.
Proof.
  intros Hv. destruct (scannable_value_read_back v Hv) as [Ht Htr].
  destruct Hv as (Hne & Hfix & Hq).
  unfold read_back in *. destruct (strings_Contains v ch_LF) eqn:Hc.
  - assert (strings_Contains (collapse v) ch_LF = true) as Hc'.
    { apply strings_Contains_true.
      destruct Ht as [(c & t & -> & Hs) (t' & c' & Hlast & Hs')].
      unfold collapse. cbn [collapse_loop].
      destruct (solid_neq c Hs) as (HLF & _).
      destruct (Z.eqb_spec c ch_LF); [done|]. unfold solid in Hs. rewrite Hs.
      simpl. right. apply existsb_exists in Hc as (x & Hx%list_elem_of_In & ->%Z.eqb_eq).
      apply elem_of_cons in Hx as [?|Hx]; [done|].
      apply collapse_loop_keeps_LF; [|by left].
      destruct t' as [|y t']; simplify_eq/=; [by apply elem_of_nil in Hx|].
      by eauto. }
    rewrite Hc'. split; [|apply collapse_idem].
    split_and!.
    + by destruct Htr as [(? & ? & -> & _) _].
    + by apply TrimSpace_trimmed.
    + by rewrite Hc'.
  - rewrite Hc. split; [|done]. split; [done|]. split; [done|].
    intros _. by apply Hq.
Qed.

Lemma read_back_record_portable rec :
  portable rec →
  portable (read_back_record rec) ∧
  read_back_record (read_back_record rec) = read_back_record rec.
Proof.
  intros (Htyp & Heq & Hid & Hidn & Hdata & Hfields). split.
  - unfold portable, read_back_record. cbn [rec_typ rec_id rec_data].
    split_and!; try done.
    + by intros ?%fmap_empty_inv.
    + intros k v'. rewrite lookup_fmap.
      destruct (rec_data rec !! k) as [v|] eqn:Hv; [|done]. intros [= <-].
      destruct (Hfields k v Hv) as [Hk Hsv]. split; [done|].
      by apply read_back_scannable.
  - unfold read_back_record. cbn [rec_typ rec_id rec_data]. f_equal.
    rewrite <- map_fmap_compose. apply map_fmap_ext. intros k v Hv. simpl.
    destruct (Hfields k v Hv) as [_ Hsv]. by apply read_back_scannable.
Qed.

(** X15.  What is read from a written file is written and read back as it
    is: for the records [recs1] that [Scan] and [Record] return on the text
    written for a list of records that the format carries, the text that
    [Write] writes for [recs1] is read back as [recs1] itself, record by
    record; and [recs1] is the list written the first time when no value
    of it has white space to collapse. *)
Theorem second_round_trip_is_exact (recs : list Record_) (e : error) :
  Forall portable recs → errors_Cause e = io_EOF →
  ∃ recs1 s1 s2,
    Scan_yields (NewScanner (w_out (Write_each recs NewWriter)) e) recs1 s1 ∧
    Scan_yields (NewScanner (w_out (Write_each recs1 NewWriter)) e) recs1 s2 ∧
    Scanner_Err s1 = None ∧ Scanner_Err s2 = None ∧
    length recs1 = length recs ∧
    ((∀ rec k v, rec ∈ recs → rec_data rec !! k = Some v → read_back v = v) →
     recs1 = recs).
Proof.
  intros Hrecs He.
  assert (Forall portable (read_back_record <$> recs)) as Hrecs1.
  { apply Forall_fmap. eapply Forall_impl; [exact Hrecs|].
    intros rec Hrec. by apply read_back_record_portable. }
  assert (read_back_record <$> (read_back_record <$> recs) = read_back_record <$> recs)
    as Hidem.
  { rewrite <- list_fmap_compose. apply Forall_fmap_ext.
    eapply Forall_impl; [exact Hrecs|]. intros rec Hrec. simpl.
    by apply read_back_record_portable. }
  destruct (Scan_record_texts recs
              (NewScanner (concat (record_text <$> recs)) e) Hrecs)
    as (s1 & Hy1 & Herr1 & _); [done..|].
  destruct (Scan_record_texts (read_back_record <$> recs)
              (NewScanner (concat (record_text <$> (read_back_record <$> recs))) e) Hrecs1)
    as (s2 & Hy2 & Herr2 & _); [done..|].
  rewrite Hidem in Hy2.
  exists (read_back_record <$> recs), s1, s2.
  rewrite !Write_each_ok by done. cbn [w_out NewWriter app].
  split_and!; try done.
  - by rewrite length_fmap.
  - intros Hstable. rewrite <- (list_fmap_id recs) at 2. apply Forall_fmap_ext.
    apply Forall_forall. intros rec Hin. unfold read_back_record.
    destruct rec as [i t d]. cbn [rec_id rec_typ rec_data id]. f_equal.
    rewrite <- (map_fmap_id d) at 2. apply map_fmap_ext. intros k v Hv.
    by apply (Hstable _ k v Hin).
Qed.
(** ** The header line *)

Lemma fields_from_app_space_r cur a sp :
  forallb unicode_IsSpace sp = true →
  fields_from cur (a ++ sp) = fields_from cur a.
Proof.
  intros Hsp. revert cur. induction a as [|c a IH]; intros cur; simpl.
  - by rewrite (Fields_all_space cur sp Hsp).
  - destruct (unicode_IsSpace c); [destruct cur|]; by rewrite IH.
Qed.

(** A text without the white space at its end. *)
Lemma trimRight_split x :
  ∃ x' q, x = x' ++ q ∧ forallb unicode_IsSpace q = true ∧
          (x' = [] ∨ ∃ t c, x' = t ++ [c] ∧ solid c).
Proof.
  destruct (trimLeft_split (rev x)) as (p & Hp & Hsp & Hh).
  exists (rev (trimLeft (rev x))), (rev p). split_and!.
  - rewrite <- rev_app_distr, <- Hp. by rewrite rev_involutive.
  - by rewrite forallb_rev.
  - destruct (trimLeft (rev x)) as [|c t]; [by left|]. right.
    exists (rev t), c. split; [done|]. done.
Qed.

Lemma TrimSpace_space_app ws x :
  forallb unicode_IsSpace ws = true →
  strings_TrimSpace (ws ++ x) = strings_TrimSpace x.
Proof. intros Hws. unfold strings_TrimSpace. by rewrite trimLeft_app_space. Qed.

Lemma NewRecord_nil_type ID : NewRecord [] ID = None.
Proof. done. Qed.

Lemma NewRecord_trimRight typ x' q :
  forallb unicode_IsSpace q = true →
  NewRecord typ (x' ++ q) = NewRecord typ x'.
Proof.
  intros Hq. unfold NewRecord, strings_Fields.
  by rewrite (fields_from_app_space_r [] x' q Hq).
Qed.

(** What a header line opens. *)
Lemma header_of_line ws typ ID :
  forallb unicode_IsSpace ws = true →
  ch_EQUAL ∉ typ →
  header_of (ws ++ [ch_AT] ++ typ ++ [ch_EQUAL] ++ ID ++ [ch_LF]) = NewRecord typ ID.
Proof.
  intros Hws Heq.
  destruct (trimRight_split ID) as (x' & q & HID & Hq & Hlast).
  set (line := [ch_AT] ++ typ ++ [ch_EQUAL] ++ x').
  assert (trimmed line) as Hlt.
  { split; [by exists ch_AT, (typ ++ [ch_EQUAL] ++ x')|].
    destruct Hlast as [->|(t & c & -> & Hc)].
    - exists ([ch_AT] ++ typ), ch_EQUAL. unfold line.
      split; [by rewrite app_nil_r, <- app_assoc | done].
    - exists ([ch_AT] ++ typ ++ [ch_EQUAL] ++ t), c. split; [|done].
      unfold line. by rewrite <- !app_assoc. }
  assert (strings_TrimSpace (ws ++ [ch_AT] ++ typ ++ [ch_EQUAL] ++ ID ++ [ch_LF])
          = line) as Htrim.
  { rewrite TrimSpace_space_app by done.
    replace ([ch_AT] ++ typ ++ [ch_EQUAL] ++ ID ++ [ch_LF])
      with (line ++ (q ++ [ch_LF])).
    2:{ unfold line. rewrite HID. by rewrite <- !app_assoc. }
    apply TrimSpace_trimmed_app; [done|]. by rewrite forallb_app, Hq. }
  unfold header_of. rewrite Htrim. unfold line. simpl.
  rewrite (strings_Index_app typ ch_EQUAL x' Heq).
  destruct (slice_app typ ch_EQUAL x') as [-> ->].
  rewrite HID, NewRecord_trimRight by done.
  destruct (Z.ltb_spec (Z.of_nat (length typ)) 1) as [Hl|_]; [|done].
  destruct typ; [done | simpl in Hl; lia].
Qed.

(** X16.  The line that opens a record: after blanks, an at sign, the type
    up to the first equal sign and the ID, which is the rest of the line
    (equal signs included).  [parseRecord] makes the record that [NewRecord]
    makes of the two texts, so that blanks around them and at the end of the
    line (the \r of a \r\n) do not count; when [NewRecord] returns nil the
    line is passed over.  The line counter advances by one. *)
Theorem header_line_is_NewRecord (ws typ ID rest : list rune) (s : Scanner) :
  forallb unicode_IsSpace ws = true → ch_LF ∉ ws →
  ch_EQUAL ∉ typ → ch_LF ∉ typ → ch_LF ∉ ID →
  pending s = ws ++ [ch_AT] ++ typ ++ [ch_EQUAL] ++ ID ++ ch_LF :: rest →
  let s1 := set_r (incr_line s) (mkReader rest None (rd_err (s_r s))) in
  s_line s1 = s_line s + 1 ∧ pending s1 = rest ∧
  parseRecord_header (fuel_of s) s =
    match NewRecord typ ID with
    | Some rec => (inl rec, s1)
    | None => parseRecord_header (fuel_of s1) s1
    end.
Proof.
  intros Hws HwsLF Heq HtLF HiLF Hp s1. split; [done|]. split; [done|].
  set (line := ws ++ [ch_AT] ++ typ ++ [ch_EQUAL] ++ ID).
  assert (ch_LF ∉ line) as Hline.
  { unfold line. rewrite !not_elem_of_app. split_and!; try done.
    - by intros [=]%list_elem_of_singleton.
    - by intros [=]%list_elem_of_singleton. }
  assert (header_of (line ++ [ch_LF]) = NewRecord typ ID) as Hh.
  { unfold line. rewrite <- !app_assoc. by apply header_of_line. }
  rewrite parseRecord_header_unfold. cbv zeta.
  unfold bufio_ReadString. cbn [s_r incr_line set_line]. fold (pending s).
  replace (pending s) with (line ++ ch_LF :: rest).
  2:{ rewrite Hp. unfold line. by rewrite <- !app_assoc. }
  by rewrite (split_line_app line rest Hline), Hh.
Qed.

(** ** Escapes between quotation marks *)

(** X17.  Between quotation marks a backslash makes the rune after it part
    of the value, whatever that rune is: a quotation mark does not close
    the value, a backslash is not an escape, and white space or a newline
    is kept as it stands instead of being collapsed. *)
Theorem backslash_escapes_any_rune (a b rest : list rune) (c : rune) (s : Scanner) :
  Forall ordinary a → Forall ordinary b → c ≠ ch_CR →
  pending s = a ++ ch_BACKSLASH :: c :: b ++ ch_QUOTE :: rest →
  ∃ s', quoteValue s = (a ++ c :: b, None, s') ∧ pending s' = rest ∧
        same_frame s s'.
Proof.
  intros Ha Hb Hc Hp. unfold quoteValue.
  assert (∃ s1, pending s1 = ch_BACKSLASH :: c :: b ++ ch_QUOTE :: rest ∧
                same_frame s s1 ∧ s_b s1 = a ∧
                ∃ first, quoteValue_loop (fuel_of (b_Reset s)) true false false (b_Reset s) =
                         quoteValue_loop (fuel_of s1) first false false s1)
    as (s1 & Hp1 & Hf1 & Hb1 & first & E1).
  { destruct a as [|x a].
    - exists (b_Reset s). split; [done|]. split; [apply same_frame_b_Reset|].
      split; [done|]. by exists true.
    - destruct (quoteValue_loop_word true false false (x :: a)
                  (ch_BACKSLASH :: c :: b ++ ch_QUOTE :: rest) (b_Reset s) Ha)
        as (s1 & Hp1 & Hf1 & Hb1 & E1); [done | exact Hp |].
      exists s1. split; [done|].
      split; [eapply same_frame_trans; [apply same_frame_b_Reset | exact Hf1]|].
      split; [done|]. by exists false. }
  destruct (quoteValue_loop_escape first false false c _ s1 Hc Hp1)
    as (s2 & (Hp2 & Hf2 & _) & Hb2 & E2).
  destruct (quoteValue_loop_ordinary b _ s2 Hb Hp2) as (s3 & Hp3 & Hf3 & Hb3 & E3).
  destruct (quoteValue_loop_quote false false false rest s3 Hp3)
    as (s4 & (Hp4 & Hf4 & _) & E4).
  exists s4. split_and!.
  - rewrite E1, E2, E3, E4, Hb3, Hb2, Hb1. simpl. by rewrite <- app_assoc.
  - done.
  - eapply same_frame_trans; [exact Hf1|]. eapply same_frame_trans; [exact Hf2|].
    by eapply same_frame_trans.
Qed.

(** ** The records that Scan reports *)

Lemma parseRecord_fields_Sets n rec s rec' s' :
  parseRecord_fields n rec s = (rec', s') → ∃ ops, rec' = Record_Sets ops rec.
Proof.
  revert rec s. induction n as [|n IH]; intros rec s; simpl.
  { intros [= <- <-]. by exists []. }
  destruct (parseKey s) as [[[key delim] err] s1].
  destruct err as [e|]; [intros [= <- <-]; by exists []|].
  destruct (delim =? ch_AT); [intros [= <- <-]; by exists []|].
  destruct (delim =? ch_LF); [apply IH|].
  destruct (parseValue s1) as [[value err] s2].
  destruct err as [e|]; [intros [= <- <-]; by exists []|].
  intros (ops & ->)%IH. by exists ((key, value) :: ops).
Qed.

Lemma parseRecord_header_NewRecord n s rec s' :
  parseRecord_header n s = (inl rec, s') → ∃ typ ID, NewRecord typ ID = Some rec.
Proof.
  revert s. induction n as [|n IH]; intros s; [done|].
  cbn [parseRecord_header]. cbv zeta.
  destruct (bufio_ReadString (s_r (incr_line s))) as [[line err] rd].
  destruct err as [e|]; [by destruct (is_EOF e)|].
  destruct (strings_TrimSpace line) as [|c l]; [apply IH|].
  destruct (c =? ch_SHARP); [apply IH|].
  destruct (negb (c =? ch_AT)); [apply IH|].
  destruct (strings_Index l ch_EQUAL <? 1); [apply IH|].
  destruct (NewRecord _ _) as [r|] eqn:Hnew; [|apply IH].
  intros [= <- <-]. by eauto.
Qed.

Lemma Scan_loop_built n s s' :
  Scan_loop n s = (true, s') →
  ∃ typ ID r0 ops,
    NewRecord typ ID = Some r0 ∧ s_rec s' = Some (Record_Sets ops r0) ∧
    Record_Keys (Record_Sets ops r0) ≠ [].
Proof.
  revert s. induction n as [|n IH]; intros s; simpl; [done|].
  unfold parseRecord.
  destruct (parseRecord_header (fuel_of s) s) as [[rec|e] s1] eqn:E1.
  2:{ cbv zeta. by destruct (is_EOF (errors_Cause e)). }
  destruct (parseRecord_fields (fuel_of s1) rec s1) as [rec' s2] eqn:E2.
  case_bool_decide as Hsz; [apply IH|]. intros [= <-].
  destruct (parseRecord_header_NewRecord _ _ _ _ E1) as (typ & ID & Hnew).
  destruct (parseRecord_fields_Sets _ _ _ _ _ E2) as (ops & ->).
  exists typ, ID, rec, ops. split_and!; try done.
  intros H0. apply Hsz. by rewrite <- Record_Keys_length, H0.
Qed.

Section ScannedRecords.

Hypothesis ToLower_idempotent :
  ∀ c, unicode_ToLower (unicode_ToLower c) = unicode_ToLower c.
Hypothesis ToLower_IsSpace :
  ∀ c, unicode_IsSpace (unicode_ToLower c) = unicode_IsSpace c.

(** X18.  Every record that [Scan] makes ready is one that [NewRecord] and
    a sequence of [Set] calls build.  With a case table whose lower case
    letters are their own lower case and are not white space, it is in
    normal form: the type and the keys are in lower case and without white
    space, the words of the ID are one space apart, and every key that
    [Keys] lists has a value that is trimmed and not empty. *)
Theorem Scan_reports_built_records (s s' : Scanner) :
  Scanner_Scan s = (true, s') →
  ∃ typ ID r0 ops rec,
    NewRecord typ ID = Some r0 ∧ rec = Record_Sets ops r0 ∧
    s_rec s' = Some rec ∧ Record_Keys rec ≠ [] ∧
    normal_name (Record_Type rec) ∧
    strings_Join (strings_Fields (Record_ID rec)) [ch_SP] = Record_ID rec ∧
    ∀ k, k ∈ Record_Keys rec →
         normal_name k ∧ Record_Get k rec ≠ [] ∧
         strings_TrimSpace (Record_Get k rec) = Record_Get k rec.
Proof.
  unfold Scanner_Scan. destruct (s_closed s); [done|].
  intros (typ & ID & r0 & ops & Hnew & Hrec & Hkeys)%Scan_loop_built.
  exists typ, ID, r0, ops, (Record_Sets ops r0).
  destruct (built_record_normal_form ToLower_idempotent ToLower_IsSpace
              typ ID r0 ops Hnew) as (Ht & _ & Hi & Hf).
  split_and!; try done.
  intros k [v Hv]%elem_of_Record_Keys. destruct (Hf k v Hv) as (Hk & Hne & Htrim).
  rewrite Record_Get_lookup, (normKey_normal k Hk), Hv. by split_and!.
Qed.

End ScannedRecords.

(** ** Where a record ends, and what lies between records *)

(** X23.  An at sign where a key could begin (after blanks and blank lines)
    ends the record: [parseKey] gives the at sign back to the reader and
    returns it as the delimiter, and [parseRecord] returns the record as it
    stands, with the line of the at sign still to be read.  When that line
    is no valid header, the next [parseRecord] passes it over like any
    other line. *)
Theorem at_sign_ends_the_record (ws t : list rune) (rec : Record_) (s : Scanner) :
  Forall (λ c, unicode_IsSpace c = true ∧ c ≠ ch_CR) ws →
  pending s = ws ++ ch_AT :: t →
  ∃ s', parseKey s = ([], ch_AT, None, s') ∧
        moved s s' (ch_AT :: t) (count_LF ws) ∧
        parseRecord_fields (fuel_of s) rec s = (rec, s') ∧
        ∀ line rest, t = line ++ ch_LF :: rest → ch_LF ∉ line →
                     header_of (ch_AT :: line ++ [ch_LF]) = None →
                     parseRecord s' =
                     parseRecord (set_r (incr_line s')
                                    (mkReader rest None (rd_err (s_r s')))).
Proof.
  intros Hws Hp.
  destruct (parseKey_seek_blanks ws ch_AT t s Hws) as (s1 & E1 & Hm1); [done..|].
  assert (parseKey s = ([], ch_AT, None, s1)) as E.
  { unfold parseKey. by rewrite E1. }
  exists s1. split_and!; try done.
  - by rewrite parseRecord_fields_unfold, E.
  - intros line rest -> Hline Hh.
    apply (parseRecord_skip_line (ch_AT :: line) rest s1); [apply Hm1| |done].
    apply not_elem_of_cons. by split.
Qed.

Lemma header_of_not_at line :
  head (strings_TrimSpace line) ≠ Some ch_AT → header_of line = None.
Proof.
  unfold header_of. destruct (strings_TrimSpace line) as [|c l]; [done|].
  simpl. intros Hc. destruct (c =? ch_SHARP); [done|].
  destruct (Z.eqb_spec c ch_AT) as [->|]; done.
Qed.

(** X24.  While a header is sought, a line that does not begin (after
    blanks) with an at sign is passed over whatever it holds, a field or a
    quotation mark included: [parseRecord] and [Scan] go on as if the
    scanner stood behind the line, one line further. *)
Theorem lines_before_a_header_are_skipped (line rest : list rune) (s : Scanner) :
  s_closed s = false → ch_LF ∉ line →
  pending s = line ++ ch_LF :: rest →
  head (strings_TrimSpace (line ++ [ch_LF])) ≠ Some ch_AT →
  let s1 := set_r (incr_line s) (mkReader rest None (rd_err (s_r s))) in
  s_line s1 = s_line s + 1 ∧ pending s1 = rest ∧
  parseRecord s = parseRecord s1 ∧ Scanner_Scan s = Scanner_Scan s1.
Proof.
  intros Hcl Hline Hp Hhd s1.
  pose proof (header_of_not_at _ Hhd) as Hh.
  pose proof (parseRecord_skip_line line rest s Hp Hline Hh) as E. fold s1 in E.
  split; [done|]. split; [done|]. split; [done|].
  unfold Scanner_Scan. change (s_closed s1) with (s_closed s). rewrite Hcl.
  by rewrite !Scan_loop_unfold, E.
Qed.

(** ** White space next to the quotation marks *)

Lemma quoteValue_loop_leading ws t s :
  Forall (λ c, unicode_IsSpace c = true ∧ c ≠ ch_CR) ws → pending s = ws ++ t →
  ∃ s1, pending s1 = t ∧ same_frame s s1 ∧ s_b s1 = s_b s ∧
        quoteValue_loop (fuel_of s) true false false s =
        quoteValue_loop (fuel_of s1) true false false s1.
Proof.
  intros Hws. revert s. induction Hws as [|c ws [Hc HCR] _ IH]; intros s Hp.
  { exists s. split; [done|]. split; [apply same_frame_refl | done]. }
  destruct (decide (c = ch_LF)) as [->|HLF].
  - destruct (quoteValue_loop_LF true false false (ws ++ t) s Hp)
      as (s1 & (Hp1 & Hf1 & _) & Hb1 & E1).
    destruct (IH s1 Hp1) as (s2 & Hp2 & Hf2 & Hb2 & E2).
    exists s2. split; [done|]. split; [by eapply same_frame_trans|].
    split; [congruence|]. by rewrite E1, E2.
  - destruct (quoteValue_loop_blank true false false c (ws ++ t) s) as
      (s1 & (Hp1 & Hf1 & _) & Hb1 & E1); [done..|].
    destruct (IH s1 Hp1) as (s2 & Hp2 & Hf2 & Hb2 & E2).
    exists s2. split; [done|]. split; [by eapply same_frame_trans|].
    split; [congruence|]. cbn [negb andb] in E1. by rewrite E1, E2.
Qed.

Lemma quoteValue_loop_trailing ws rest first space line s :
  Forall (λ c, unicode_IsSpace c = true ∧ c ≠ ch_CR) ws →
  pending s = ws ++ ch_QUOTE :: rest →
  ∃ s', quoteValue_loop (fuel_of s) first space line s = (s_b s, None, s') ∧
        pending s' = rest ∧ same_frame s s'.
Proof.
  intros Hws. revert space line s.
  induction Hws as [|c ws [Hc HCR] _ IH]; intros space line s Hp.
  { destruct (quoteValue_loop_quote first space line rest s Hp) as (s1 & (?&?&?) & E).
    by exists s1. }
  destruct (decide (c = ch_LF)) as [->|HLF].
  - destruct (quoteValue_loop_LF first space line (ws ++ ch_QUOTE :: rest) s Hp)
      as (s1 & (Hp1 & Hf1 & _) & Hb1 & E1).
    destruct (IH (if first then space else false) (if first then line else true) s1 Hp1)
      as (s2 & E2 & Hp2 & Hf2).
    exists s2. rewrite E1, E2, Hb1. split; [done|]. split; [done|].
    by eapply same_frame_trans.
  - destruct (quoteValue_loop_blank first space line c (ws ++ ch_QUOTE :: rest) s) as
      (s1 & (Hp1 & Hf1 & _) & Hb1 & E1); [done..|].
    destruct (IH (if negb first && negb line then true else space) line s1 Hp1)
      as (s2 & E2 & Hp2 & Hf2).
    exists s2. rewrite E1, E2, Hb1. split; [done|]. split; [done|].
    by eapply same_frame_trans.
Qed.

(** X25.  The white space after the opening quotation mark and before the
    closing one, newlines included, is no part of the value: a word between
    them is read as the word alone, and white space alone as the empty
    value, without an error (so that [Set] then deletes the key). *)
Theorem quoted_value_is_trimmed (ws1 a ws2 rest : list rune) (s : Scanner) :
  Forall (λ c, unicode_IsSpace c = true ∧ c ≠ ch_CR) ws1 →
  Forall ordinary a →
  Forall (λ c, unicode_IsSpace c = true ∧ c ≠ ch_CR) ws2 →
  pending s = ws1 ++ a ++ ws2 ++ ch_QUOTE :: rest →
  ∃ s', quoteValue s = (a, None, s') ∧ pending s' = rest ∧ same_frame s s'.
Proof.
  intros Hws1 Ha Hws2 Hp. unfold quoteValue.
  destruct (quoteValue_loop_leading ws1 _ (b_Reset s) Hws1 Hp)
    as (s1 & Hp1 & Hf1 & Hb1 & E1).
  rewrite E1. destruct a as [|x a].
  - destruct (quoteValue_loop_trailing ws2 rest true false false s1 Hws2 Hp1)
      as (s2 & E2 & Hp2 & Hf2).
    exists s2. rewrite E2, Hb1. split; [done|]. split; [done|].
    eapply same_frame_trans; [apply same_frame_b_Reset|].
    by eapply same_frame_trans.
  - destruct (quoteValue_loop_word true false false (x :: a)
                (ws2 ++ ch_QUOTE :: rest) s1 Ha)
      as (s2 & Hp2 & Hf2 & Hb2 & E2); [done | exact Hp1 |].
    destruct (quoteValue_loop_trailing ws2 rest false false false s2 Hws2 Hp2)
      as (s3 & E3 & Hp3 & Hf3).
    exists s3. rewrite E2, E3, Hb2, Hb1. split; [done|]. split; [done|].
    eapply same_frame_trans; [apply same_frame_b_Reset|].
    eapply same_frame_trans; [exact Hf1|]. by eapply same_frame_trans.
Qed.
(** ** Line ends written \r\n *)

Lemma crlf_app a b : crlf (a ++ b) = crlf a ++ crlf b.
Proof. unfold crlf. apply flat_map_app. Qed.

Lemma crlf_cons c t : c ≠ ch_LF → crlf (c :: t) = c :: crlf t.
Proof. intros Hc. unfold crlf. simpl. by destruct (Z.eqb_spec c ch_LF). Qed.

Lemma crlf_inline l : ch_LF ∉ l → crlf l = l.
Proof.
  induction l as [|c l IH]; intros Hl; [done|].
  apply not_elem_of_cons in Hl as [Hc Hl].
  rewrite crlf_cons by done. by rewrite IH.
Qed.

Lemma crlf_of_incr_line s1 s2 : crlf_of s1 s2 → crlf_of (incr_line s1) (incr_line s2).
Proof. intros (?&?&?&?&?&?&?&?&?). repeat split; simpl; congruence. Qed.

Lemma crlf_of_b_WriteRune c s1 s2 :
  crlf_of s1 s2 → crlf_of (b_WriteRune c s1) (b_WriteRune c s2).
Proof. intros (?&?&?&?&?&?&?&?&?). repeat split; simpl; congruence. Qed.

Lemma crlf_of_b_Reset s1 s2 : crlf_of s1 s2 → crlf_of (b_Reset s1) (b_Reset s2).
Proof. intros (?&?&?&?&?&?&?&?&?). repeat split; simpl; congruence. Qed.

Lemma crlf_of_set_rec rec s1 s2 :
  crlf_of s1 s2 → crlf_of (set_rec s1 rec) (set_rec s2 rec).
Proof. intros (?&?&?&?&?&?&?&?&?). repeat split; simpl; congruence. Qed.

Lemma crlf_of_set_closed c s1 s2 :
  crlf_of s1 s2 → crlf_of (set_closed s1 c) (set_closed s2 c).
Proof. intros (?&?&?&?&?&?&?&?&?). repeat split; simpl; congruence. Qed.

Lemma crlf_of_set_err e s1 s2 :
  crlf_of s1 s2 → crlf_of (set_err s1 e) (set_err s2 e).
Proof. intros (?&?&?&?&?&?&?&?&?). repeat split; simpl; congruence. Qed.

(** [UnreadRune] after a rune that is no line end. *)
Lemma crlf_of_UnreadRune s1 s2 :
  crlf_of s1 s2 →
  (∀ c, rd_last (s_r s1) = Some c → c ≠ ch_LF ∧ c ≠ ch_CR) →
  crlf_of (r_UnreadRune s1) (r_UnreadRune s2).
Proof.
  intros (Hcl & Herr & Hl & Hrec & Hb & Hrd & Hlast & Hp & HCR) Hc.
  unfold r_UnreadRune, bufio_UnreadRune. rewrite Hlast.
  destruct (rd_last (s_r s1)) as [c|] eqn:Hl1; [|repeat split; simpl; congruence].
  destruct (Hc c eq_refl) as [HLF HcCR].
  repeat split; simpl; try done.
  - destruct (Z.eqb_spec c ch_LF); [done|]. by rewrite Hp.
  - apply not_elem_of_cons. by split.
Qed.

Lemma readRune_crlf s1 s2 r1 err s1' :
  crlf_of s1 s2 → readRune s1 = (r1, err, s1') →
  ∃ s2', readRune s2 = (r1, err, s2') ∧ crlf_of s1' s2' ∧
         (err = None → rd_last (s_r s1') = Some r1 ∧ r1 ≠ ch_CR).
Proof.
  intros (Hcl & Herr & Hl & Hrec & Hb & Hrd & Hlast & Hp & HCR) E.
  fold (pending s1) in Hp, HCR. fold (pending s2) in Hp.
  destruct (pending s1) as [|c t] eqn:Hp1.
  - rewrite (readRune_nil s1 Hp1) in E. injection E as <- <- <-.
    rewrite (readRune_nil s2 Hp), Hrd. eexists. split; [done|].
    split; [by repeat split|done].
  - apply not_elem_of_cons in HCR as [Hc HCRt].
    rewrite (readRune_plain s1 c t Hp1 (not_eq_sym Hc)) in E. injection E as <- <- <-.
    destruct (decide (c = ch_LF)) as [->|HLF].
    + rewrite (readRune_CRLF s2 (crlf t) Hp), Hrd. eexists. split; [done|].
      split; [by repeat split|]. intros _. by split.
    + rewrite crlf_cons in Hp by done.
      rewrite (readRune_plain s2 c (crlf t) Hp (not_eq_sym Hc)), Hrd.
      eexists. split; [done|]. split; [by repeat split|]. intros _.
      split; [done | by apply not_eq_sym].
Qed.

Lemma skip_crlf n delim s1 s2 err s1' :
  (length (pending s1) < n)%nat → crlf_of s1 s2 →
  skip delim s1 = (err, s1') →
  ∃ s2', skip delim s2 = (err, s2') ∧ crlf_of s1' s2'.
Proof.
  revert s1 s2. induction n as [|n IH]; intros s1 s2 Hn Hsim; [lia|].
  rewrite (skip_unfold delim s1), (skip_unfold delim s2).
  destruct (readRune s1) as [[r1 e1] s1a] eqn:E1.
  destruct (readRune_crlf _ _ _ _ _ Hsim E1) as (s2a & E2 & Hsim' & _).
  rewrite E2. destruct e1 as [e|].
  { intros [= <- <-]. by exists s2a. }
  apply readRune_lt in E1.
  destruct (r1 =? delim).
  { intros [= <- <-]. by exists s2a. }
  apply IH; [lia | done].
Qed.

Lemma parseKey_seek_crlf n s1 s2 res s1' :
  (length (pending s1) < n)%nat → crlf_of s1 s2 →
  parseKey_seek (fuel_of s1) s1 = (res, s1') →
  ∃ s2', parseKey_seek (fuel_of s2) s2 = (res, s2') ∧ crlf_of s1' s2'.
Proof.
  revert s1 s2. induction n as [|n IH]; intros s1 s2 Hn Hsim; [lia|].
  rewrite (parseKey_seek_unfold s1), (parseKey_seek_unfold s2).
  destruct (readRune s1) as [[r1 e1] s1a] eqn:E1.
  destruct (readRune_crlf _ _ _ _ _ Hsim E1) as (s2a & E2 & Hsim' & Hlast).
  rewrite E2. destruct e1 as [e|].
  { intros [= <- <-]. by exists s2a. }
  destruct (Hlast eq_refl) as [Hl1 HrCR].
  apply readRune_lt in E1.
  destruct (Z.eqb_spec r1 ch_LF) as [|HLF].
  { apply IH; [unfold pending in *; simpl; lia | by apply crlf_of_incr_line]. }
  destruct (unicode_IsSpace r1).
  { apply IH; [lia | done]. }
  destruct (r1 =? ch_SHARP).
  { destruct (skip ch_LF s1a) as [e1 s1b] eqn:Es1.
    destruct (skip_crlf (S (length (pending s1a))) ch_LF s1a s2a e1 s1b)
      as (s2b & Es2 & Hsimb); [lia | done | done |].
    rewrite Es2. destruct (skip_inv _ _ _ _ Es1) as (_ & Hle & _).
    apply IH; [unfold pending in *; simpl; lia | by apply crlf_of_incr_line]. }
  assert (crlf_of (r_UnreadRune s1a) (r_UnreadRune s2a)) as Hu.
  { apply crlf_of_UnreadRune; [done|]. intros c Hc. rewrite Hl1 in Hc.
    injection Hc as <-. by split. }
  destruct (r1 =? ch_AT); intros [= <- <-]; by eexists.
Qed.

Lemma parseKey_read_crlf n space s1 s2 res s1' :
  (length (pending s1) < n)%nat → crlf_of s1 s2 →
  parseKey_read (fuel_of s1) space s1 = (res, s1') →
  ∃ s2', parseKey_read (fuel_of s2) space s2 = (res, s2') ∧ crlf_of s1' s2'.
Proof.
  revert space s1 s2. induction n as [|n IH]; intros space s1 s2 Hn Hsim; [lia|].
  rewrite (parseKey_read_unfold space s1), (parseKey_read_unfold space s2).
  destruct (readRune s1) as [[r1 e1] s1a] eqn:E1.
  destruct (readRune_crlf _ _ _ _ _ Hsim E1) as (s2a & E2 & Hsim' & _).
  rewrite E2. destruct e1 as [e|].
  { intros [= <- <-]. by exists s2a. }
  apply readRune_lt in E1.
  destruct (r1 =? ch_LF).
  { intros [= <- <-]. eexists. split; [done|]. by apply crlf_of_incr_line. }
  destruct (unicode_IsSpace r1).
  { apply IH; [lia | done]. }
  destruct (r1 =? ch_COLON).
  { pose proof Hsim' as (?&?&?&?&Hb&?). rewrite Hb. intros [= <- <-].
    by exists s2a. }
  cbv zeta. apply IH.
  - destruct space; unfold pending in *; simpl; lia.
  - apply crlf_of_b_WriteRune. destruct space; [by apply crlf_of_b_WriteRune | done].
Qed.

Lemma parseKey_crlf s1 s2 res s1' :
  crlf_of s1 s2 → parseKey s1 = (res, s1') →
  ∃ s2', parseKey s2 = (res, s2') ∧ crlf_of s1' s2'.
Proof.
  intros Hsim. unfold parseKey.
  destruct (parseKey_seek (fuel_of s1) s1) as [r s1a] eqn:E1.
  destruct (parseKey_seek_crlf (S (length (pending s1))) s1 s2 r s1a)
    as (s2a & E2 & Hsim'); [lia | done | done |].
  rewrite E2. destruct r as [r|[]].
  { intros [= <- <-]. by exists s2a. }
  apply (parseKey_read_crlf (S (length (pending (b_Reset s1a))))); [lia|].
  by apply crlf_of_b_Reset.
Qed.

Lemma quoteValue_loop_crlf n first space line s1 s2 res s1' :
  (length (pending s1) < n)%nat → crlf_of s1 s2 →
  quoteValue_loop (fuel_of s1) first space line s1 = (res, s1') →
  ∃ s2', quoteValue_loop (fuel_of s2) first space line s2 = (res, s2') ∧
         crlf_of s1' s2'.
Proof.
  revert first space line s1 s2.
  induction n as [|n IH]; intros first space line s1 s2 Hn Hsim; [lia|].
  rewrite (quoteValue_loop_unfold first space line s1),
          (quoteValue_loop_unfold first space line s2).
  unfold quoteValue_body.
  destruct (readRune s1) as [[r1 e1] s1a] eqn:E1.
  destruct (readRune_crlf _ _ _ _ _ Hsim E1) as (s2a & E2 & Hsim' & _).
  rewrite E2. destruct e1 as [e|].
  { pose proof Hsim' as (?&?&?&?&Hb&?). rewrite Hb.
    destruct (0 <? Z.of_nat (length (s_b s1a))); intros [= <- <-]; by exists s2a. }
  apply readRune_lt in E1.
  destruct (r1 =? ch_LF).
  { destruct (negb first); (apply IH; [unfold pending in *; simpl; lia |
                                        by apply crlf_of_incr_line]). }
  destruct (unicode_IsSpace r1).
  { apply IH; [lia | done]. }
  destruct (r1 =? ch_QUOTE).
  { pose proof Hsim' as (?&?&?&?&Hb&?). rewrite Hb.
    intros [= <- <-]. by exists s2a. }
  destruct (r1 =? ch_BACKSLASH).
  - destruct (readRune s1a) as [[r2 e2] s1b] eqn:E1b.
    destruct (readRune_crlf _ _ _ _ _ Hsim' E1b) as (s2b & E2b & Hsimb & _).
    rewrite E2b. pose proof (readRune_le _ _ _ _ E1b) as Hle.
    destruct e2 as [e|].
    { apply IH; [lia | done]. }
    destruct line, space; (apply IH; [unfold pending in *; simpl in *; lia|]);
      repeat apply crlf_of_b_WriteRune; done.
  - destruct line, space; (apply IH; [unfold pending in *; simpl in *; lia|]);
      repeat apply crlf_of_b_WriteRune; done.
Qed.

Lemma quoteValue_crlf s1 s2 res s1' :
  crlf_of s1 s2 → quoteValue s1 = (res, s1') →
  ∃ s2', quoteValue s2 = (res, s2') ∧ crlf_of s1' s2'.
Proof.
  intros Hsim. unfold quoteValue.
  apply (quoteValue_loop_crlf (S (length (pending (b_Reset s1))))); [lia|].
  by apply crlf_of_b_Reset.
Qed.

Lemma parseValue_seek_crlf n s1 s2 res s1' :
  (length (pending s1) < n)%nat → crlf_of s1 s2 →
  parseValue_seek (fuel_of s1) s1 = (res, s1') →
  ∃ s2', parseValue_seek (fuel_of s2) s2 = (res, s2') ∧ crlf_of s1' s2'.
Proof.
  revert s1 s2. induction n as [|n IH]; intros s1 s2 Hn Hsim; [lia|].
  rewrite (parseValue_seek_unfold s1), (parseValue_seek_unfold s2).
  destruct (readRune s1) as [[r1 e1] s1a] eqn:E1.
  destruct (readRune_crlf _ _ _ _ _ Hsim E1) as (s2a & E2 & Hsim' & Hlast).
  rewrite E2. destruct e1 as [e|].
  { intros [= <- <-]. by exists s2a. }
  destruct (Hlast eq_refl) as [Hl1 HrCR].
  apply readRune_lt in E1.
  destruct (Z.eqb_spec r1 ch_LF) as [|HLF].
  { intros [= <- <-]. eexists. split; [done|]. by apply crlf_of_incr_line. }
  destruct (unicode_IsSpace r1).
  { apply IH; [lia | done]. }
  destruct (r1 =? ch_QUOTE).
  { destruct (quoteValue s1a) as [[v e] s1b] eqn:Eq1.
    destruct (quoteValue_crlf _ _ _ _ Hsim' Eq1) as (s2b & Eq2 & Hsimb).
    rewrite Eq2. intros [= <- <-]. by exists s2b. }
  intros [= <- <-]. eexists. split; [done|].
  apply crlf_of_UnreadRune; [done|]. intros c Hc. rewrite Hl1 in Hc.
  injection Hc as <-. by split.
Qed.

Lemma bufio_ReadString_crlf rd1 rd2 l err rd1' :
  rd_err rd2 = rd_err rd1 → rd_buf rd2 = crlf (rd_buf rd1) → ch_CR ∉ rd_buf rd1 →
  bufio_ReadString rd1 = (l, err, rd1') →
  ∃ l2 rd2', bufio_ReadString rd2 = (l2, err, rd2') ∧
             rd_err rd2' = rd_err rd1' ∧ rd_last rd2' = rd_last rd1' ∧
             rd_buf rd2' = crlf (rd_buf rd1') ∧ (ch_CR ∉ rd_buf rd1') ∧
             strings_TrimSpace l2 = strings_TrimSpace l.
Proof.
  intros Herr Hbuf HCR. unfold bufio_ReadString. rewrite Hbuf, Herr.
  pose proof (split_line_spec (rd_buf rd1)) as Hs.
  destruct (split_line (rd_buf rd1)) as [[l0 rest]|].
  - destruct Hs as (Hsplit & _ & l' & -> & Hl'). intros [= <- <- <-].
    rewrite Hsplit, <- app_assoc, !crlf_app, (crlf_inline l' Hl'). simpl.
    replace (l' ++ ch_CR :: ch_LF :: crlf rest)
      with ((l' ++ [ch_CR]) ++ ch_LF :: crlf rest) by (by rewrite <- app_assoc).
    rewrite split_line_app.
    2:{ rewrite not_elem_of_app. split; [done|].
        by intros [=]%list_elem_of_singleton. }
    eexists _, _. split; [done|]. simpl. split_and!; try done.
    + rewrite Hsplit in HCR. rewrite not_elem_of_app in HCR. by destruct HCR.
    + rewrite <- !app_assoc. simpl.
      by rewrite (TrimSpace_app_space l' [ch_CR; ch_LF]),
                 (TrimSpace_app_space l' [ch_LF]).
  - intros [= <- <- <-]. rewrite (crlf_inline _ Hs), (split_line_none _ Hs).
    eexists _, _. split; [done|]. simpl. split_and!; try done.
    by intros ?%elem_of_nil.
Qed.

Lemma parseValue_crlf s1 s2 v err s1' :
  crlf_of s1 s2 → parseValue s1 = (v, err, s1') →
  ∃ v2 s2', parseValue s2 = (v2, err, s2') ∧ crlf_of s1' s2' ∧
            strings_TrimSpace v2 = strings_TrimSpace v.
Proof.
  intros Hsim. unfold parseValue.
  destruct (parseValue_seek (fuel_of s1) s1) as [r s1a] eqn:E1.
  destruct (parseValue_seek_crlf (S (length (pending s1))) s1 s2 r s1a)
    as (s2a & E2 & Hsim'); [lia | done | done |].
  rewrite E2. destruct r as [[v0 e0]|[]].
  { intros [= <- <- <-]. by exists v0, s2a. }
  destruct (bufio_ReadString (s_r s1a)) as [[l e] rd1] eqn:Er1.
  pose proof Hsim' as (Hcl & Herr & Hl & Hrec & Hb & Hrd & Hlast & Hp & HCR).
  destruct (bufio_ReadString_crlf _ _ _ _ _ Hrd Hp HCR Er1)
    as (l2 & rd2 & Er2 & ? & ? & ? & ? & Htrim).
  rewrite Er2. intros [= <- <- <-]. exists l2, (set_r s2a rd2).
  split; [done|]. split; [by repeat split | done].
Qed.

Lemma header_of_TrimSpace l l2 :
  strings_TrimSpace l2 = strings_TrimSpace l → header_of l2 = header_of l.
Proof. unfold header_of. by intros ->. Qed.

Lemma parseRecord_header_crlf n s1 s2 res s1' :
  (length (pending s1) < n)%nat → crlf_of s1 s2 →
  parseRecord_header (fuel_of s1) s1 = (res, s1') →
  ∃ s2', parseRecord_header (fuel_of s2) s2 = (res, s2') ∧ crlf_of s1' s2'.
Proof.
  revert s1 s2. induction n as [|n IH]; intros s1 s2 Hn Hsim; [lia|].
  rewrite (parseRecord_header_unfold s1), (parseRecord_header_unfold s2). cbv zeta.
  destruct (bufio_ReadString (s_r (incr_line s1))) as [[l e] rd1] eqn:Er1.
  pose proof (crlf_of_incr_line _ _ Hsim) as Hsim1.
  pose proof Hsim1 as (Hcl & Herr & Hl & Hrec & Hb & Hrd & Hlast & Hp & HCR).
  destruct (bufio_ReadString_crlf _ _ _ _ _ Hrd Hp HCR Er1)
    as (l2 & rd2 & Er2 & Hrd' & Hlast' & Hp' & HCR' & Htrim).
  rewrite Er2.
  assert (crlf_of (set_r (incr_line s1) rd1) (set_r (incr_line s2) rd2)) as Hsim2.
  { by repeat split. }
  destruct (bufio_ReadString_inv _ _ _ _ Er1) as (_ & Hr).
  destruct e as [e|].
  { cbn [s_line set_r]. rewrite Hl.
    destruct (is_EOF e); intros [= <- <-]; by eexists. }
  rewrite (header_of_TrimSpace l l2 Htrim).
  destruct (header_of l).
  { intros [= <- <-]. by eexists. }
  destruct Hr as (_ & Hlt & _).
  apply IH; [unfold pending in *; simpl in *; lia | done].
Qed.

Lemma parseRecord_fields_crlf n rec s1 s2 res s1' :
  (length (pending s1) < n)%nat → crlf_of s1 s2 →
  parseRecord_fields (fuel_of s1) rec s1 = (res, s1') →
  ∃ s2', parseRecord_fields (fuel_of s2) rec s2 = (res, s2') ∧ crlf_of s1' s2'.
Proof.
  revert rec s1 s2. induction n as [|n IH]; intros rec s1 s2 Hn Hsim; [lia|].
  rewrite (parseRecord_fields_unfold rec s1), (parseRecord_fields_unfold rec s2).
  destruct (parseKey s1) as [[[key delim] e1] s1a] eqn:E1.
  destruct (parseKey_crlf _ _ _ _ Hsim E1) as (s2a & E2 & Hsim').
  rewrite E2. destruct (parseKey_inv _ _ _ _ _ E1) as (_ & Hle & Hlt).
  destruct e1 as [e|].
  { intros [= <- <-]. by exists s2a. }
  destruct (Z.eqb_spec delim ch_AT) as [|Hd].
  { intros [= <- <-]. by exists s2a. }
  specialize (Hlt eq_refl Hd).
  destruct (delim =? ch_LF).
  { apply IH; [lia | done]. }
  destruct (parseValue s1a) as [[v e] s1b] eqn:Ev1.
  destruct (parseValue_crlf _ _ _ _ _ Hsim' Ev1) as (v2 & s2b & Ev2 & Hsimb & Htrim).
  rewrite Ev2. destruct (parseValue_inv _ _ _ _ Ev1) as (_ & Hle2).
  destruct e as [e|].
  { intros [= <- <-]. by exists s2b. }
  rewrite (Record_Set_ext key v2 v rec Htrim).
  apply IH; [lia | done].
Qed.

Lemma parseRecord_crlf s1 s2 res s1' :
  crlf_of s1 s2 → parseRecord s1 = (res, s1') →
  ∃ s2', parseRecord s2 = (res, s2') ∧ crlf_of s1' s2'.
Proof.
  intros Hsim. unfold parseRecord.
  destruct (parseRecord_header (fuel_of s1) s1) as [r s1a] eqn:E1.
  destruct (parseRecord_header_crlf (S (length (pending s1))) s1 s2 r s1a)
    as (s2a & E2 & Hsim'); [lia | done | done |].
  rewrite E2. destruct r as [rec|e].
  2:{ intros [= <- <-]. by exists s2a. }
  destruct (parseRecord_fields (fuel_of s1a) rec s1a) as [rec' s1b] eqn:Ef1.
  destruct (parseRecord_fields_crlf (S (length (pending s1a))) rec s1a s2a rec' s1b)
    as (s2b & Ef2 & Hsimb); [lia | done | done |].
  rewrite Ef2. intros [= <- <-]. by exists s2b.
Qed.

Lemma Scan_loop_crlf n s1 s2 res s1' :
  (length (pending s1) < n)%nat → crlf_of s1 s2 →
  Scan_loop (fuel_of s1) s1 = (res, s1') →
  ∃ s2', Scan_loop (fuel_of s2) s2 = (res, s2') ∧ crlf_of s1' s2'.
Proof.
  revert s1 s2. induction n as [|n IH]; intros s1 s2 Hn Hsim; [lia|].
  rewrite (Scan_loop_unfold s1), (Scan_loop_unfold s2).
  destruct (parseRecord s1) as [[r e] s1a] eqn:E1.
  destruct (parseRecord_crlf _ _ _ _ Hsim E1) as (s2a & E2 & Hsim').
  rewrite E2. destruct (parseRecord_inv _ _ _ _ E1) as (_ & Hr).
  destruct e as [e|].
  { cbv zeta. destruct r; [done|].
    destruct (is_EOF (errors_Cause e)); intros [= <- <-]; eexists; (split; [done|]).
    - by apply crlf_of_set_closed.
    - by apply crlf_of_set_err, crlf_of_set_closed. }
  destruct r as [rec|]; [|done]. destruct Hr as (Hlt & _).
  case_bool_decide.
  - apply IH; [lia | done].
  - intros [= <- <-]. eexists. split; [done|]. by apply crlf_of_set_rec.
Qed.

Lemma Scanner_Scan_crlf s1 s2 res s1' :
  crlf_of s1 s2 → Scanner_Scan s1 = (res, s1') →
  ∃ s2', Scanner_Scan s2 = (res, s2') ∧ crlf_of s1' s2'.
Proof.
  intros Hsim. unfold Scanner_Scan.
  pose proof Hsim as (Hcl & _). rewrite Hcl.
  destruct (s_closed s1).
  { intros [= <- <-]. by exists s2. }
  apply (Scan_loop_crlf (S (length (pending s1)))); [lia | done].
Qed.

Lemma Scan_yields_crlf recs s1 s2 s1' :
  crlf_of s1 s2 → Scan_yields s1 recs s1' →
  ∃ s2', Scan_yields s2 recs s2' ∧ crlf_of s1' s2'.
Proof.
  revert s1 s2. induction recs as [|rec recs IH]; intros s1 s2 Hsim; simpl.
  { by apply Scanner_Scan_crlf. }
  intros (s1a & s1b & E1 & Er1 & Hy).
  destruct (Scanner_Scan_crlf _ _ _ _ Hsim E1) as (s2a & E2 & Hsim').
  unfold Scanner_Record in Er1. destruct (s_rec s1a) as [rec0|] eqn:Hrec; [|done].
  injection Er1 as -> <-.
  destruct (IH (set_rec s1a None) (set_rec s2a None)) as (s2' & Hy2 & Hsim2);
    [by apply crlf_of_set_rec | done |].
  exists s2'. split; [|done]. exists s2a, (set_rec s2a None).
  split; [done|]. split; [|done].
  unfold Scanner_Record. destruct Hsim' as (_ & _ & _ & Hrec2 & _).
  by rewrite Hrec2, Hrec.
Qed.

(** X21.  Line ends written \r\n.  For data without carriage return, the
    scanner reads the text in which every newline is written \r\n as it
    reads the text itself: the same calls of [Scan] and [Record] return the
    same records, [Scan] returns false at the same call, and [Err] and the
    line counter are the same at the end. *)
Theorem CRLF_files_are_read_alike (data : list rune) (e : error)
    (recs : list Record_) (s1' : Scanner) :
  ch_CR ∉ data →
  Scan_yields (NewScanner data e) recs s1' →
  ∃ s2', Scan_yields (NewScanner (crlf data) e) recs s2' ∧
         Scanner_Err s2' = Scanner_Err s1' ∧ s_line s2' = s_line s1' ∧
         s_closed s2' = s_closed s1'.
Proof.
  intros HCR Hy.
  assert (crlf_of (NewScanner data e) (NewScanner (crlf data) e)) as Hsim.
  { by repeat split. }
  destruct (Scan_yields_crlf recs _ _ s1' Hsim Hy)
    as (s2' & Hy2 & Hcl & Herr & Hl & _).
  exists s2'. by split_and!.
Qed.
(** ** What is gathered from a quoted value that the stream cuts short *)










(** ** The reading primitive and the line counter *)




End Reclist.

(** * The properties on sample data *)

Lemma pair_fst_eq {A B : Type} (p : A * B) (a : A) : p.1 = a → p = (a, p.2).
Proof. destruct p as [x y]. simpl. by intros ->. Qed.

Ltac eval_runes :=
  repeat match goal with
  | |- context [runes ?s] =>
      let l := eval vm_compute in (runes s) in change (runes s) with l
  end.

Ltac closed_prop :=
  vm_compute; repeat split;
  first [reflexivity | exact I | (let H := fresh in intro H; discriminate H)].

Ltac forall_runes :=
  eval_runes;
  repeat first [apply Forall_nil_2 | apply Forall_cons_2; [closed_prop|]].

Ltac not_in_runes :=
  let H := fresh in
  intros H; vm_compute in H;
  repeat (apply elem_of_cons in H as [H|H]; [discriminate H|]);
  by apply elem_of_nil in H.

Lemma empty_field_invariant_witness :
  NewRecord ascii_only_CaseRanges (runes "Star") (runes " Sun ")
    = Some (mkRecord (runes "Sun") (runes "star") ∅) ∧
  forallb unicode_IsSpace [ch_SP; ch_TAB] = true ∧
  let r := Record_Sets ascii_only_CaseRanges
             [(runes "Mass", runes " 333000 "); (runes "radius", runes "109.3")]
             (mkRecord (runes "Sun") (runes "star") ∅) in
  (∀ k v, rec_data r !! k = Some v → v ≠ []) ∧
  Record_Get ascii_only_CaseRanges (runes "MASS")
    (Record_Set ascii_only_CaseRanges (runes "MASS") [ch_SP; ch_TAB] r) = [] ∧
  (normKey ascii_only_CaseRanges (runes "MASS")
     ∉ Record_Keys (Record_Set ascii_only_CaseRanges (runes "MASS") [ch_SP; ch_TAB] r)) ∧
  (∀ k v, rec_data (Record_Set ascii_only_CaseRanges (runes "MASS") [ch_SP; ch_TAB] r) !! k
          = Some v → v ≠ []).
Proof.
  assert (H1 : NewRecord ascii_only_CaseRanges (runes "Star") (runes " Sun ")
               = Some (mkRecord (runes "Sun") (runes "star") ∅)) by (by vm_compute).
  assert (H2 : forallb unicode_IsSpace [ch_SP; ch_TAB] = true) by reflexivity.
  split; [exact H1|]. split; [exact H2|].
  exact (empty_field_invariant ascii_only_CaseRanges _ _ _
           [(runes "Mass", runes " 333000 "); (runes "radius", runes "109.3")]
           (runes "MASS") [ch_SP; ch_TAB] H1 H2).
Defined.

Lemma writeField_single_line_witness :
  w_err NewWriter = None ∧
  strings_Contains (runes "333000") ch_LF = false ∧
  writeField (runes "mass") (runes "333000") NewWriter =
    (None, mkWriter ([ch_TAB] ++ runes "mass:" ++ [ch_TAB] ++ runes "333000" ++ [ch_LF])
             None) ∧
  writeField (runes "gravity") (runes "27.94") NewWriter =
    (None, mkWriter ([ch_TAB] ++ runes "gravity: 27.94" ++ [ch_LF]) None).
Proof.
  split; [reflexivity|]. split; [reflexivity|]. split.
  - exact (writeField_single_line (runes "mass") (runes "333000") NewWriter
             eq_refl eq_refl).
  - exact (writeField_single_line (runes "gravity") (runes "27.94") NewWriter
             eq_refl eq_refl).
Defined.

(** C9, as stated, fails: the line written for a field begins with a tab. *)
Lemma writeField_single_line_counterexample :
  w_out (writeField (runes "mass") (runes "333000") NewWriter).2
    ≠ runes "mass:" ++ [ch_TAB] ++ runes "333000" ++ [ch_LF] ∧
  w_out (writeField (runes "gravity") (runes "27.94") NewWriter).2
    ≠ runes "gravity: 27.94" ++ [ch_LF].
Proof. split; by vm_compute. Qed.

Lemma Record_without_pending_record_panics_witness :
  Scanner_Record (NewScanner sample_two_headers io_EOF) = None ∧
  (let s := NewScanner [] io_EOF in
   let s' := (Scanner_Scan ascii_only_CaseRanges s).2 in
   Scanner_Scan ascii_only_CaseRanges s = (false, s') ∧ Scanner_Record s' = None) ∧
  (let s := NewScanner sample_two_headers io_EOF in
   let s1 := (Scanner_Scan ascii_only_CaseRanges s).2 in
   ∃ rec s2, Scanner_Scan ascii_only_CaseRanges s = (true, s1) ∧
             Scanner_Record s1 = Some (rec, s2) ∧ Scanner_Record s2 = None).
Proof.
  split; [|split].
  - exact (proj1 (Record_without_pending_record_panics ascii_only_CaseRanges
                    (NewScanner sample_two_headers io_EOF)) eq_refl).
  - intros s s'.
    assert (E : Scanner_Scan ascii_only_CaseRanges s = (false, s')).
    { apply (pair_fst_eq (Scanner_Scan ascii_only_CaseRanges s) false).
      vm_compute. reflexivity. }
    split; [exact E|].
    exact (proj1 (proj2 (proj2 (Record_without_pending_record_panics
                                  ascii_only_CaseRanges s))) s' eq_refl E).
  - intros s s1.
    assert (E : Scanner_Scan ascii_only_CaseRanges s = (true, s1)).
    { apply (pair_fst_eq (Scanner_Scan ascii_only_CaseRanges s) true).
      vm_compute. reflexivity. }
    assert (E1 : Scanner_Record s1
                 = Some (mkRecord (runes "Titan") (runes "moon")
                           (<[runes "parent" := runes "Saturn"]> ∅), set_rec s1 None)).
    { vm_compute. reflexivity. }
    eexists _, _. split; [exact E|]. split; [exact E1|].
    exact (proj2 (proj2 (proj2 (Record_without_pending_record_panics
                                  ascii_only_CaseRanges s1))) _ _ E1).
Defined.

Lemma Scan_reports_only_records_with_fields_witness :
  let s := NewScanner sample_two_headers io_EOF in
  let s' := (Scanner_Scan ascii_only_CaseRanges s).2 in
  let s1 := (parseRecord ascii_only_CaseRanges s).2 in
  let rec1 := mkRecord (runes "Sun") (runes "star") ∅ in
  (Scanner_Scan ascii_only_CaseRanges s = (true, s') ∧
   ∃ rec, s_rec s' = Some rec ∧ (0 < length (Record_Keys rec))%nat ∧
          Scanner_Record s' = Some (rec, set_rec s' None)) ∧
  (parseRecord ascii_only_CaseRanges s = (Some rec1, None, s1) ∧
   Record_Keys rec1 = [] ∧
   Scanner_Scan ascii_only_CaseRanges s = Scanner_Scan ascii_only_CaseRanges s1).
Proof.
  intros s s' s1 rec1.
  pose proof (Scan_reports_only_records_with_fields ascii_only_CaseRanges s) as [H1 H2].
  assert (E : Scanner_Scan ascii_only_CaseRanges s = (true, s')).
  { apply (pair_fst_eq (Scanner_Scan ascii_only_CaseRanges s) true).
    vm_compute. reflexivity. }
  assert (E1 : parseRecord ascii_only_CaseRanges s = (Some rec1, None, s1)).
  { apply (pair_fst_eq (parseRecord ascii_only_CaseRanges s) (Some rec1, None)).
    vm_compute. reflexivity. }
  split.
  - split; [exact E|]. exact (H1 s' E).
  - assert (Hk : Record_Keys rec1 = []) by (vm_compute; reflexivity).
    split; [exact E1|]. split; [exact Hk|]. exact (H2 rec1 s1 eq_refl E1 Hk).
Defined.

Lemma malformed_header_and_end_of_data_witness :
  let s := NewScanner sample_bad_headers io_EOF in
  let s1 := set_r (incr_line s) (mkReader (runes "@type=" ++ [ch_LF]) None io_EOF) in
  let s2 := set_r (incr_line s1) (mkReader [] None io_EOF) in
  let s3 := (parseRecord ascii_only_CaseRanges s2).2 in
  Scanner_Scan ascii_only_CaseRanges s = Scanner_Scan ascii_only_CaseRanges s1 ∧
  Scanner_Scan ascii_only_CaseRanges s1 = Scanner_Scan ascii_only_CaseRanges s2 ∧
  parseRecord ascii_only_CaseRanges s2 = (None, Some io_EOF, s3) ∧
  (∃ s', Scanner_Scan ascii_only_CaseRanges s2 = (false, s') ∧ Scanner_Err s' = None ∧
         s_rec s' = s_rec s2 ∧ s_closed s' = true) ∧
  Scanner_Err (Scanner_Scan ascii_only_CaseRanges s).2 = None.
Proof.
  intros s s1 s2 s3.
  assert (P1 : pending s = runes "@=onlyid" ++ ch_LF :: (runes "@type=" ++ [ch_LF]))
    by (vm_compute; reflexivity).
  assert (P2 : pending s1 = runes "@type=" ++ ch_LF :: []) by (vm_compute; reflexivity).
  assert (L1 : ch_LF ∉ runes "@=onlyid") by not_in_runes.
  assert (L2 : ch_LF ∉ runes "@type=") by not_in_runes.
  assert (T1 : strings_TrimSpace (runes "@=onlyid" ++ [ch_LF])
               = ch_AT :: [] ++ ch_EQUAL :: runes "onlyid") by (vm_compute; reflexivity).
  assert (T2 : strings_TrimSpace (runes "@type=" ++ [ch_LF])
               = ch_AT :: runes "type" ++ ch_EQUAL :: []) by (vm_compute; reflexivity).
  assert (E1 : ch_EQUAL ∉ @nil Z) by not_in_runes.
  assert (E2 : ch_EQUAL ∉ runes "type") by not_in_runes.
  assert (E3 : parseRecord ascii_only_CaseRanges s2 = (None, Some io_EOF, s3)).
  { apply (pair_fst_eq (parseRecord ascii_only_CaseRanges s2) (None, Some io_EOF)).
    vm_compute. reflexivity. }
  split_and!.
  - exact (proj1 (malformed_header_and_end_of_data ascii_only_CaseRanges s)
             (runes "@=onlyid") (runes "@type=" ++ [ch_LF]) [] (runes "onlyid")
             eq_refl P1 L1 T1 E1 (or_introl eq_refl)).
  - exact (proj1 (malformed_header_and_end_of_data ascii_only_CaseRanges s1)
             (runes "@type=") [] (runes "type") []
             eq_refl P2 L2 T2 E2 (or_intror eq_refl)).
  - exact E3.
  - exact (proj1 (proj2 (malformed_header_and_end_of_data ascii_only_CaseRanges s2))
             io_EOF s3 eq_refl eq_refl eq_refl E3).
  - exact (proj2 (proj2 (malformed_header_and_end_of_data ascii_only_CaseRanges s))
             (Scanner_Scan ascii_only_CaseRanges s).1
             (Scanner_Scan ascii_only_CaseRanges s).2 eq_refl eq_refl
             (surjective_pairing (Scanner_Scan ascii_only_CaseRanges s))).
Defined.

Lemma empty_value_deletes_key_witness :
  let rec := mkRecord (runes "Titan") (runes "moon")
               (<[runes "parent" := runes "Saturn"]> ∅) in
  let s := NewScanner (runes "parent:" ++ [ch_LF]) io_EOF in
  let rec' := Record_Set ascii_only_CaseRanges (runes "parent") [] rec in
  plain_key (runes "parent") ∧
  pending s = [] ++ runes "parent" ++ ch_COLON :: [] ++ ch_LF :: [] ∧
  Record_Get ascii_only_CaseRanges (runes "parent") rec = runes "Saturn" ∧
  Record_Get ascii_only_CaseRanges (runes "parent") rec' = [] ∧
  (normKey ascii_only_CaseRanges (runes "parent") ∉ Record_Keys rec') ∧
  (∃ s1, moved s s1 [] (count_LF [] + 1) ∧
         parseRecord_fields ascii_only_CaseRanges (fuel_of s) rec s =
         parseRecord_fields ascii_only_CaseRanges (fuel_of s1) rec' s1) ∧
  (∃ s2, parseRecord_fields ascii_only_CaseRanges (fuel_of s) rec s = (rec', s2)).
Proof.
  intros rec s rec'.
  assert (K : plain_key (runes "parent")).
  { split; [forall_runes | eval_runes; by vm_compute]. }
  assert (P : pending s = [] ++ runes "parent" ++ ch_COLON :: [] ++ ch_LF :: [])
    by (vm_compute; reflexivity).
  assert (G : Record_Get ascii_only_CaseRanges (runes "parent") rec = runes "Saturn")
    by (vm_compute; reflexivity).
  pose proof (empty_value_deletes_key ascii_only_CaseRanges [] (runes "parent") [] []
                rec s (Forall_nil_2 _) K (Forall_nil_2 _) P) as H.
  cbv zeta in H. destruct H as (H1 & H2 & H3 & H4).
  split; [exact K|]. split; [exact P|]. split; [exact G|].
  split; [exact H1|]. split; [exact H2|]. split; [exact H3|].
  exact (H4 (Forall_nil_2 _)).
Defined.

(** C3, as stated, fails: the key that got an empty value after a value is
    gone from the record that [Scan] prepares. *)
Lemma empty_value_deletes_key_counterexample :
  let res := Scanner_Scan ascii_only_CaseRanges (NewScanner sample_key_twice io_EOF) in
  res.1 = true ∧
  Record_Keys <$> s_rec res.2 = Some [runes "mass"] ∧
  Record_Get ascii_only_CaseRanges (runes "parent") <$> s_rec res.2 = Some [] ∧
  Record_Get ascii_only_CaseRanges (runes "parent") <$> s_rec res.2
    ≠ Some (runes "Saturn").
Proof. by vm_compute. Qed.



(** What the scanner does with that text: the value gathered is stored. *)
Example unterminated_quote_sample :
  let res := parseRecord_fields ascii_only_CaseRanges
               (fuel_of (NewScanner sample_cut_quote io_EOF))
               (mkRecord (runes "Titan") (runes "moon") ∅)
               (NewScanner sample_cut_quote io_EOF) in
  Record_Get ascii_only_CaseRanges (runes "descrip") res.1 = runes "Titan is" ∧
  pending res.2 = [].
Proof. by vm_compute. Qed.



Lemma quoted_value_line_breaks_witness :
  let a := runes "hot" in
  let b := runes "plasma" in
  let v := runes "hot  plasma" ++ [ch_LF; ch_LF] ++ runes "sphere" in
  Forall ordinary a ∧ a ≠ [] ∧ Forall ordinary b ∧ b ≠ [] ∧
  (∃ s', quoteValue (NewScanner (a ++ [ch_SP; ch_TAB] ++ b ++ [ch_QUOTE; ch_LF]) io_EOF)
           = (a ++ [ch_SP] ++ b, None, s') ∧ pending s' = [ch_LF]) ∧
  (∃ s', quoteValue (NewScanner (a ++ [ch_LF; ch_TAB; ch_TAB] ++ b ++ [ch_QUOTE]) io_EOF)
           = (a ++ [ch_LF] ++ b, None, s') ∧ pending s' = []) ∧
  (∃ s', quoteValue (NewScanner (a ++ [ch_SP; ch_LF; ch_LF; ch_TAB] ++ b ++ [ch_QUOTE])
                       io_EOF)
           = (a ++ [ch_LF] ++ b, None, s') ∧ pending s' = []) ∧
  writeQuoted (runes "descrip") (a ++ [ch_LF] ++ b) NewWriter =
    (None, mkWriter ([ch_TAB] ++ runes "descrip: " ++ [ch_QUOTE] ++ a ++
                     [ch_LF; ch_TAB; ch_TAB] ++ b ++ [ch_QUOTE; ch_LF]) None) ∧
  (∃ s', quoteValue (NewScanner (quoted_text v true false false ++ [ch_QUOTE]) io_EOF)
           = (runes "hot plasma" ++ [ch_LF] ++ runes "sphere", None, s') ∧
         pending s' = []).
Proof.
  intros a b v.
  assert (A : Forall ordinary a) by (unfold a; forall_runes).
  assert (B : Forall ordinary b) by (unfold b; forall_runes).
  assert (A0 : a ≠ []) by (by vm_compute).
  assert (B0 : b ≠ []) by (by vm_compute).
  destruct (quoted_value_line_breaks a b A A0 B B0) as (H1 & H2 & H3 & H4).
  split; [exact A|]. split; [exact A0|]. split; [exact B|]. split; [exact B0|].
  split_and!.
  - apply (H1 [ch_SP; ch_TAB] [ch_LF]
             (NewScanner (a ++ [ch_SP; ch_TAB] ++ b ++ [ch_QUOTE; ch_LF]) io_EOF)).
    + forall_runes.
    + done.
    + vm_compute. reflexivity.
  - apply (H2 [] [ch_TAB; ch_TAB] []
             (NewScanner (a ++ [ch_LF; ch_TAB; ch_TAB] ++ b ++ [ch_QUOTE]) io_EOF)).
    + forall_runes.
    + forall_runes.
    + vm_compute. reflexivity.
  - apply (H2 [ch_SP] [ch_LF; ch_TAB] []
             (NewScanner (a ++ [ch_SP; ch_LF; ch_LF; ch_TAB] ++ b ++ [ch_QUOTE]) io_EOF)).
    + forall_runes.
    + forall_runes.
    + vm_compute. reflexivity.
  - exact (H3 (runes "descrip") NewWriter eq_refl).
  - assert (C : collapse v = runes "hot plasma" ++ [ch_LF] ++ runes "sphere")
      by (vm_compute; reflexivity).
    rewrite <- C.
    exact (H4 v [] (NewScanner (quoted_text v true false false ++ [ch_QUOTE]) io_EOF)
             eq_refl).
Defined.

(** C2, as stated, fails: a single newline with its indentation is read as
    a newline, not as a space, and a newline is written as a line break and
    two tabs, with no blank line. *)
Lemma quoted_value_line_breaks_counterexample :
  let a := runes "hot" in
  let b := runes "plasma" in
  (quoteValue (NewScanner (a ++ [ch_LF; ch_TAB; ch_TAB] ++ b ++ [ch_QUOTE]) io_EOF)).1
    = (a ++ [ch_LF] ++ b, None) ∧
  a ++ [ch_LF] ++ b ≠ a ++ [ch_SP] ++ b ∧
  w_out (writeQuoted (runes "descrip") (a ++ [ch_LF] ++ b) NewWriter).2
    = [ch_TAB] ++ runes "descrip: " ++ [ch_QUOTE] ++ a ++ [ch_LF; ch_TAB; ch_TAB] ++ b
        ++ [ch_QUOTE; ch_LF] ∧
  w_out (writeQuoted (runes "descrip") (a ++ [ch_LF] ++ b) NewWriter).2
    ≠ [ch_TAB] ++ runes "descrip: " ++ [ch_QUOTE] ++ a ++ [ch_LF; ch_LF] ++ b
        ++ [ch_QUOTE; ch_LF].
Proof. by vm_compute. Qed.

Lemma write_then_scan_round_trip_witness :
  normal_name ascii_only_CaseRanges (rec_typ sample_record) ∧
  (ch_EQUAL ∉ rec_typ sample_record) ∧
  rec_id sample_record ≠ [] ∧
  strings_Join (strings_Fields (rec_id sample_record)) [ch_SP] = rec_id sample_record ∧
  rec_data sample_record ≠ ∅ ∧
  (∀ k v, rec_data sample_record !! k = Some v →
          scannable_key ascii_only_CaseRanges k ∧ scannable_value v) ∧
  ∃ w s' rec',
    Writer_Write ascii_only_CaseRanges sample_record NewWriter = (None, w) ∧
    Scanner_Scan ascii_only_CaseRanges (NewScanner (w_out w) io_EOF) = (true, s') ∧
    Scanner_Record s' = Some (rec', set_rec s' None) ∧
    Record_Type rec' = Record_Type sample_record ∧
    Record_ID rec' = Record_ID sample_record ∧
    ∀ k, k ∈ Record_Keys sample_record →
         Record_Get ascii_only_CaseRanges k rec'
         = read_back (Record_Get ascii_only_CaseRanges k sample_record).
Proof.
  assert (N : ∀ k, k = runes "star" ∨ k = runes "descrip" ∨ k = runes "mass" →
                   normal_name ascii_only_CaseRanges k).
  { intros k [-> | [-> | ->]]; (split; [by vm_compute|]);
      (split; [forall_runes | by vm_compute]). }
  assert (H1 : normal_name ascii_only_CaseRanges (rec_typ sample_record))
    by (apply N; by left).
  assert (H2 : ch_EQUAL ∉ rec_typ sample_record) by not_in_runes.
  assert (H3 : rec_id sample_record ≠ []) by (by vm_compute).
  assert (H4 : strings_Join (strings_Fields (rec_id sample_record)) [ch_SP]
               = rec_id sample_record) by (vm_compute; reflexivity).
  assert (H5 : rec_data sample_record ≠ ∅).
  { intros H%(f_equal (λ m : gmap (list Z) (list Z), m !! runes "mass")).
    vm_compute in H. discriminate H. }
  assert (H6 : ∀ k v, rec_data sample_record !! k = Some v →
                      scannable_key ascii_only_CaseRanges k ∧ scannable_value v).
  { intros k v. unfold sample_record. cbn [rec_data].
    rewrite lookup_insert. case_decide as Hk.
    { intros [= <-]. subst k. split.
      - split; [apply N; by right; left|]. split; [not_in_runes | by vm_compute].
      - by vm_compute. }
    rewrite lookup_insert. case_decide as Hk'.
    { intros [= <-]. subst k. split.
      - split; [apply N; by right; right|]. split; [not_in_runes | by vm_compute].
      - by vm_compute. }
    by rewrite lookup_empty. }
  split; [exact H1|]. split; [exact H2|]. split; [exact H3|]. split; [exact H4|].
  split; [exact H5|]. split; [exact H6|].
  exact (write_then_scan_round_trip ascii_only_CaseRanges sample_record io_EOF
           H1 H2 H3 H4 H5 H6).
Defined.

(** What comes back for the sample record. *)
Example write_then_scan_sample :
  (w_out (Writer_Write ascii_only_CaseRanges sample_record NewWriter).2
   = runes "@star=Sun" ++ [ch_LF; ch_TAB] ++ runes "descrip: " ++ [ch_QUOTE]
       ++ runes "hot" ++ [ch_LF; ch_TAB; ch_TAB] ++ runes "plasma" ++ [ch_QUOTE; ch_LF; ch_TAB]
       ++ runes "mass:" ++ [ch_TAB] ++ runes "333000" ++ [ch_LF]) ∧
  write_then_scan ascii_only_CaseRanges sample_record = (true, Some sample_record).
Proof. by vm_compute. Qed.

(** C1, as stated, fails on records that [NewRecord] and [Set] build: an
    equal sign in the type moves into the ID, a key with a colon is cut at
    the colon, a value that begins with a quotation mark loses it, and the
    white space of a value of several lines is collapsed. *)
Lemma write_then_scan_round_trip_counterexample :
  (Record_Set ascii_only_CaseRanges (runes "mass") (runes "333000")
     <$> NewRecord ascii_only_CaseRanges (runes "a=b") (runes "Sun")
   = Some sample_odd_type ∧
   Record_Type <$> (write_then_scan ascii_only_CaseRanges sample_odd_type).2
     = Some (runes "a") ∧
   Record_Type sample_odd_type ≠ runes "a") ∧
  (Record_Set ascii_only_CaseRanges (runes "a:b") (runes "333000")
     <$> NewRecord ascii_only_CaseRanges (runes "star") (runes "Sun")
   = Some sample_odd_key ∧
   Record_Get ascii_only_CaseRanges (runes "a:b")
     <$> (write_then_scan ascii_only_CaseRanges sample_odd_key).2 = Some [] ∧
   Record_Get ascii_only_CaseRanges (runes "a:b") sample_odd_key = runes "333000") ∧
  (Record_Set ascii_only_CaseRanges (runes "name") ([ch_QUOTE] ++ runes "Sol")
     <$> NewRecord ascii_only_CaseRanges (runes "star") (runes "Sun")
   = Some sample_odd_value ∧
   Record_Get ascii_only_CaseRanges (runes "name")
     <$> (write_then_scan ascii_only_CaseRanges sample_odd_value).2
     = Some (runes "Sol") ∧
   Record_Get ascii_only_CaseRanges (runes "name") sample_odd_value
     = [ch_QUOTE] ++ runes "Sol") ∧
  (Record_Get ascii_only_CaseRanges (runes "descrip")
     <$> (write_then_scan ascii_only_CaseRanges sample_wide_value).2
     = Some (runes "hot plasma" ++ [ch_LF] ++ runes "sphere") ∧
   Record_Get ascii_only_CaseRanges (runes "descrip") sample_wide_value
     = runes "hot  plasma" ++ [ch_LF] ++ runes "sphere").
Proof. by vm_compute. Qed.

(** The case table used for the samples satisfies what
    [built_record_normal_form] asks of the table of Go. *)
Lemma ascii_only_CaseRanges_sane :
  (∀ c, unicode_ToLower ascii_only_CaseRanges (unicode_ToLower ascii_only_CaseRanges c)
        = unicode_ToLower ascii_only_CaseRanges c) ∧
  (∀ c, unicode_IsSpace (unicode_ToLower ascii_only_CaseRanges c) = unicode_IsSpace c).
Proof.
  assert (∀ c, unicode_ToLower ascii_only_CaseRanges c = c ∨
               (65 <= c <= 90 ∧ unicode_ToLower ascii_only_CaseRanges c = c + 32)) as H.
  { intros c. unfold unicode_ToLower, ascii_only_CaseRanges.
    destruct (Z.leb_spec c 127), (Z.leb_spec 65 c), (Z.leb_spec c 90);
      simpl; auto with lia. }
  split; intros c; destruct (H c) as [E|[Hc E]]; rewrite !E; try done.
  - destruct (H (c + 32)) as [->|[Hc' _]]; [done | lia].
  - unfold unicode_IsSpace.
    repeat match goal with
    | |- context [?a <=? ?b] => destruct (Z.leb_spec a b); try lia
    | |- context [?a =? ?b] => destruct (Z.eqb_spec a b); try lia
    end; reflexivity.
Qed.

(** * The further properties on sample data *)

Lemma Keys_are_the_keys_with_a_value_witness :
  let r0 := mkRecord (runes "Sun") (runes "star") ∅ in
  let ops := [(runes "Mass", runes " 333000 "); (runes "Moons", runes " ")] in
  (∀ c, unicode_ToLower ascii_only_CaseRanges (unicode_ToLower ascii_only_CaseRanges c)
        = unicode_ToLower ascii_only_CaseRanges c) ∧
  (∀ c, unicode_IsSpace (unicode_ToLower ascii_only_CaseRanges c) = unicode_IsSpace c) ∧
  NewRecord ascii_only_CaseRanges (runes "Star") (runes " Sun ") = Some r0 ∧
  let r := Record_Sets ascii_only_CaseRanges ops r0 in
  (∀ k, k ∈ Record_Keys r ↔
        Record_Get ascii_only_CaseRanges k r ≠ [] ∧ normKey ascii_only_CaseRanges k = k) ∧
  (∀ k, Record_Get ascii_only_CaseRanges k r ≠ [] ↔
        normKey ascii_only_CaseRanges k ∈ Record_Keys r) ∧
  (∀ k, Record_Get ascii_only_CaseRanges (normKey ascii_only_CaseRanges k) r
        = Record_Get ascii_only_CaseRanges k r) ∧
  (∀ k v, Record_Set ascii_only_CaseRanges (normKey ascii_only_CaseRanges k) v r
          = Record_Set ascii_only_CaseRanges k v r).
Proof.
  intros r0 ops.
  destruct ascii_only_CaseRanges_sane as [T1 T2].
  assert (H1 : NewRecord ascii_only_CaseRanges (runes "Star") (runes " Sun ") = Some r0)
    by (vm_compute; reflexivity).
  split; [exact T1|]. split; [exact T2|]. split; [exact H1|].
  exact (Keys_are_the_keys_with_a_value ascii_only_CaseRanges T1 T2
           (runes "Star") (runes " Sun ") r0 ops H1).
Defined.

Lemma comment_lines_are_skipped_witness :
  let rec := mkRecord (runes "Titan") (runes "moon") ∅ in
  let s := NewScanner ([ch_TAB] ++ ch_SHARP :: sample_comment ++
                       ch_LF :: sample_after_comment) io_EOF in
  let s0 := NewScanner ([ch_TAB] ++ ch_SHARP :: sample_comment) io_EOF in
  Forall (λ c, unicode_IsSpace c = true ∧ c ≠ ch_CR) [ch_TAB] ∧
  (ch_LF ∉ sample_comment) ∧
  (∃ s', moved s s' sample_after_comment (count_LF [ch_TAB] + 1) ∧
         parseKey s = parseKey s' ∧
         parseRecord_fields ascii_only_CaseRanges (fuel_of s) rec s =
         parseRecord_fields ascii_only_CaseRanges (fuel_of s') rec s') ∧
  (∃ s', pending s' = [] ∧
         parseRecord_fields ascii_only_CaseRanges (fuel_of s0) rec s0 = (rec, s')).
Proof.
  intros rec s s0.
  assert (H1 : Forall (λ c, unicode_IsSpace c = true ∧ c ≠ ch_CR) [ch_TAB])
    by forall_runes.
  assert (H2 : ch_LF ∉ sample_comment) by not_in_runes.
  split; [exact H1|]. split; [exact H2|]. split.
  - exact (proj1 (comment_lines_are_skipped ascii_only_CaseRanges [ch_TAB]
                    sample_comment rec s H1 H2) sample_after_comment eq_refl).
  - exact (proj2 (comment_lines_are_skipped ascii_only_CaseRanges [ch_TAB]
                    sample_comment rec s0 H1 H2) eq_refl).
Defined.

Lemma line_without_colon_is_dropped_witness :
  let rec := mkRecord (runes "Titan") (runes "moon") ∅ in
  let c := 106 in
  let l := runes "ust some words" in
  let s := NewScanner ([ch_TAB] ++ (c :: l) ++ ch_LF :: sample_after_comment) io_EOF in
  Forall (λ c, unicode_IsSpace c = true ∧ c ≠ ch_CR) [ch_TAB] ∧
  solid c ∧ c ≠ ch_SHARP ∧ c ≠ ch_AT ∧
  Forall (λ c, inline c ∧ c ≠ ch_COLON) (c :: l) ∧
  ∃ s', parseKey s = ([], ch_LF, None, s') ∧
        moved s s' sample_after_comment (count_LF [ch_TAB] + 1) ∧
        parseRecord_fields ascii_only_CaseRanges (fuel_of s) rec s =
        parseRecord_fields ascii_only_CaseRanges (fuel_of s') rec s'.
Proof.
  intros rec c l s.
  assert (H1 : Forall (λ c, unicode_IsSpace c = true ∧ c ≠ ch_CR) [ch_TAB])
    by forall_runes.
  assert (H2 : solid c) by reflexivity.
  assert (H3 : c ≠ ch_SHARP) by (intros H; discriminate H).
  assert (H4 : c ≠ ch_AT) by (intros H; discriminate H).
  assert (H5 : Forall (λ c, inline c ∧ c ≠ ch_COLON) (c :: l)).
  { unfold c, l. forall_runes. }
  split; [exact H1|]. split; [exact H2|]. split; [exact H3|]. split; [exact H4|].
  split; [exact H5|].
  exact (line_without_colon_is_dropped ascii_only_CaseRanges [ch_TAB] l
           sample_after_comment c rec s H1 H2 H3 H4 H5 eq_refl).
Defined.

Lemma parseKey_joins_the_words_witness :
  let kt := runes " moon  count " in
  let rest := runes " 3" ++ [ch_LF] in
  let s := NewScanner (kt ++ ch_COLON :: rest) io_EOF in
  Forall (λ c, inline c ∧ c ≠ ch_COLON) kt ∧
  head (trimLeft kt) ≠ Some ch_SHARP ∧ head (trimLeft kt) ≠ Some ch_AT ∧
  strings_Join (strings_Fields kt) [ch_MINUS] = runes "moon-count" ∧
  ∃ s', parseKey s =
          (strings_Join (strings_Fields kt) [ch_MINUS], ch_COLON, None, s') ∧
        moved s s' rest 0 ∧
        ∀ v r, Record_Set ascii_only_CaseRanges
                 (strings_Join (strings_Fields kt) [ch_MINUS]) v r =
               Record_Set ascii_only_CaseRanges kt v r.
Proof.
  intros kt rest s.
  assert (H1 : Forall (λ c, inline c ∧ c ≠ ch_COLON) kt).
  { unfold kt. forall_runes. }
  assert (H2 : head (trimLeft kt) ≠ Some ch_SHARP).
  { intros H. vm_compute in H. discriminate H. }
  assert (H3 : head (trimLeft kt) ≠ Some ch_AT).
  { intros H. vm_compute in H. discriminate H. }
  assert (H4 : strings_Join (strings_Fields kt) [ch_MINUS] = runes "moon-count")
    by (vm_compute; reflexivity).
  split; [exact H1|]. split; [exact H2|]. split; [exact H3|]. split; [exact H4|].
  exact (parseKey_joins_the_words ascii_only_CaseRanges kt rest s H1 H2 H3 eq_refl).
Defined.

Lemma unquoted_field_witness :
  let rec := mkRecord (runes "Titan") (runes "moon") ∅ in
  let key := runes "mass" in
  let c := 48 in
  let v := runes ".0225 " ++ [ch_CR] in
  let s := NewScanner ([ch_TAB] ++ key ++ ch_COLON :: [ch_TAB] ++ (c :: v) ++ ch_LF :: [])
             io_EOF in
  let s0 := NewScanner ([ch_TAB] ++ key ++ ch_COLON :: [ch_TAB] ++ c :: v) io_EOF in
  Forall (λ c, unicode_IsSpace c = true ∧ c ≠ ch_CR) [ch_TAB] ∧
  plain_key key ∧ Forall blank [ch_TAB] ∧
  solid c ∧ c ≠ ch_QUOTE ∧ (ch_LF ∉ v) ∧
  strings_TrimSpace (c :: v) = runes "0.0225" ∧
  (∃ s', moved s s' [] (count_LF [ch_TAB]) ∧
         parseRecord_fields ascii_only_CaseRanges (fuel_of s) rec s =
         parseRecord_fields ascii_only_CaseRanges (fuel_of s')
           (Record_Set ascii_only_CaseRanges key (c :: v) rec) s' ∧
         Record_Get ascii_only_CaseRanges key
           (Record_Set ascii_only_CaseRanges key (c :: v) rec)
           = strings_TrimSpace (c :: v) ∧
         strings_TrimSpace (c :: v) ≠ []) ∧
  (∃ s', pending s' = [] ∧
         parseRecord_fields ascii_only_CaseRanges (fuel_of s0) rec s0 = (rec, s')).
Proof.
  intros rec key c v s s0.
  assert (H1 : Forall (λ c, unicode_IsSpace c = true ∧ c ≠ ch_CR) [ch_TAB])
    by forall_runes.
  assert (H2 : plain_key key).
  { unfold key. split; [forall_runes | eval_runes; by vm_compute]. }
  assert (H3 : Forall blank [ch_TAB]) by forall_runes.
  assert (H4 : solid c) by reflexivity.
  assert (H5 : c ≠ ch_QUOTE) by (intros H; discriminate H).
  assert (H6 : ch_LF ∉ v) by not_in_runes.
  assert (H7 : strings_TrimSpace (c :: v) = runes "0.0225") by (vm_compute; reflexivity).
  split; [exact H1|]. split; [exact H2|]. split; [exact H3|]. split; [exact H4|].
  split; [exact H5|]. split; [exact H6|]. split; [exact H7|]. split.
  - exact (proj1 (unquoted_field ascii_only_CaseRanges [ch_TAB] key [ch_TAB] v c rec s
                    H1 H2 H3 H4 H5 H6) [] eq_refl).
  - exact (proj2 (unquoted_field ascii_only_CaseRanges [ch_TAB] key [ch_TAB] v c rec s0
                    H1 H2 H3 H4 H5 H6) eq_refl).
Defined.

Lemma Scan_false_is_final_witness :
  let s := NewScanner (runes "# no record" ++ [ch_LF] ++ runes "@star") (io_Fault 5) in
  let s' := (Scanner_Scan ascii_only_CaseRanges s).2 in
  Scanner_Scan ascii_only_CaseRanges s = (false, s') ∧
  s_closed s' = true ∧ s_rec s' = s_rec s ∧
  Scanner_Scan ascii_only_CaseRanges s' = (false, s') ∧
  pending s' = [] ∧
  Scanner_Err s' =
    (if is_EOF (errors_Cause (rd_err (s_r s))) then Scanner_Err s
     else Some (errors_Wrapf (rd_err (s_r s)) "reclist: scanner: line %d" [s_line s'])) ∧
  Scanner_Err s' = Some (errors_Wrapf (io_Fault 5) "reclist: scanner: line %d" [2]).
Proof.
  intros s s'.
  assert (E : Scanner_Scan ascii_only_CaseRanges s = (false, s')).
  { apply (pair_fst_eq (Scanner_Scan ascii_only_CaseRanges s) false).
    vm_compute. reflexivity. }
  assert (V : Scanner_Err s'
              = Some (errors_Wrapf (io_Fault 5) "reclist: scanner: line %d" [2]))
    by (vm_compute; reflexivity).
  pose proof (Scan_false_is_final ascii_only_CaseRanges s s' E) as (H1 & H2 & H3 & H4).
  split; [exact E|]. split; [exact H1|]. split; [exact H2|]. split; [exact H3|].
  split; [exact (proj1 (H4 eq_refl))|]. split; [exact (proj2 (H4 eq_refl))|].
  exact V.
Defined.

Lemma writer_error_is_sticky_witness :
  let w := mkWriter (runes "@star=Sun") (Some (io_Fault 1)) in
  w_err w = Some (io_Fault 1) ∧
  (∀ key value,
     writeField key value w = (Some (errors_Wrap (io_Fault 1) "reclist: writer"), w) ∧
     writeQuoted key value w = (Some (errors_Wrap (io_Fault 1) "reclist: writer"), w)) ∧
  Writer_Write ascii_only_CaseRanges sample_record w =
    (if bool_decide (Record_Keys sample_record = [] ∨ Record_ID sample_record = [] ∨
                     Record_Type sample_record = [])
     then None else Some (errors_Wrap (io_Fault 1) "reclist: writer"), w) ∧
  Writer_Err (Writer_Write ascii_only_CaseRanges sample_record w).2
    = Some (errors_Wrap (io_Fault 1) "reclist: writer") ∧
  Writer_Err (Writer_Flush w) = Some (errors_Wrap (io_Fault 1) "reclist: writer").
Proof.
  intros w. split; [reflexivity|].
  exact (writer_error_is_sticky ascii_only_CaseRanges sample_record w (io_Fault 1) eq_refl).
Defined.

Lemma Write_appends_the_record_text_witness :
  let w := mkWriter (runes "# stars" ++ [ch_LF]) None in
  w_err w = None ∧
  let text := w_out (Writer_Write ascii_only_CaseRanges sample_record NewWriter).2 in
  Writer_Write ascii_only_CaseRanges sample_record w
    = (None, mkWriter (w_out w ++ text) None) ∧
  (text = [] ↔ Record_Keys sample_record = [] ∨ Record_ID sample_record = [] ∨
              Record_Type sample_record = []) ∧
  (text ≠ [] →
   ∃ t, text = [ch_AT] ++ Record_Type sample_record ++ [ch_EQUAL] ++
               Record_ID sample_record ++ [ch_LF] ++ t
        ∧ last text = Some ch_LF).
Proof.
  intros w. split; [reflexivity|].
  exact (Write_appends_the_record_text ascii_only_CaseRanges sample_record w eq_refl).
Defined.

Lemma quoted_form_is_stable_witness :
  let key := runes "descrip" in
  let v := runes "hot  plasma" ++ [ch_LF] ++ runes " sphere" in
  let s := NewScanner (quoted_text v true false false ++ ch_QUOTE :: [ch_LF]) io_EOF in
  w_err NewWriter = None ∧
  pending s = quoted_text v true false false ++ ch_QUOTE :: [ch_LF] ∧
  unterminated (quoted_text v true false false) = true ∧
  ∃ v' s', quoteValue s = (v', None, s') ∧ pending s' = [ch_LF] ∧
           writeQuoted key v' NewWriter = writeQuoted key v NewWriter ∧
           quoted_text v' true false false = quoted_text v true false false.
Proof.
  intros key v s. split; [reflexivity|]. split; [reflexivity|].
  exact (quoted_form_is_stable key v [ch_LF] NewWriter s eq_refl eq_refl).
Defined.

Lemma sample_file_portable : Forall (portable ascii_only_CaseRanges) sample_file.
Proof.
  assert (N : ∀ k, k = runes "star" ∨ k = runes "descrip" ∨ k = runes "mass" ∨
                   k = runes "moon" ∨ k = runes "parent" →
                   normal_name ascii_only_CaseRanges k).
  { intros k [-> | [-> | [-> | [-> | ->]]]]; (split; [by vm_compute|]);
      (split; [forall_runes | by vm_compute]). }
  assert (K : ∀ k, k = runes "descrip" ∨ k = runes "mass" ∨ k = runes "parent" →
                   scannable_key ascii_only_CaseRanges k).
  { intros k Hk. split; [apply N; tauto|].
    destruct Hk as [-> | [-> | ->]]; (split; [not_in_runes | by vm_compute]). }
  apply Forall_cons_2; [|apply Forall_cons_2; [|apply Forall_nil_2]].
  - split; [apply N; by left|]. split; [not_in_runes|].
    split; [by vm_compute|]. split; [vm_compute; reflexivity|]. split.
    { intros H%(f_equal (λ m : gmap (list Z) (list Z), m !! runes "mass")).
      vm_compute in H. discriminate H. }
    intros k v. unfold sample_record. cbn [rec_data].
    rewrite lookup_insert. case_decide as Hk.
    { intros [= <-]. subst k. split; [apply K; by left | by vm_compute]. }
    rewrite lookup_insert. case_decide as Hk'.
    { intros [= <-]. subst k. split; [apply K; by right; left | by vm_compute]. }
    by rewrite lookup_empty.
  - split; [apply N; by right; right; right; left|]. split; [not_in_runes|].
    split; [by vm_compute|]. split; [vm_compute; reflexivity|]. split.
    { intros H%(f_equal (λ m : gmap (list Z) (list Z), m !! runes "parent")).
      vm_compute in H. discriminate H. }
    intros k v. unfold sample_moon. cbn [rec_data].
    rewrite lookup_insert. case_decide as Hk.
    { intros [= <-]. subst k. split; [apply K; by right; right | by vm_compute]. }
    by rewrite lookup_empty.
Qed.

Lemma written_file_is_read_back_witness :
  Forall (portable ascii_only_CaseRanges) sample_file ∧
  errors_Cause io_EOF = io_EOF ∧
  let w := Write_each ascii_only_CaseRanges sample_file NewWriter in
  Writer_Err w = None ∧
  ∃ s', Scan_yields ascii_only_CaseRanges (NewScanner (w_out w) io_EOF)
          (read_back_record <$> sample_file) s' ∧
        Scanner_Err s' = None ∧ s_closed s' = true.
Proof.
  split; [exact sample_file_portable|]. split; [reflexivity|].
  exact (written_file_is_read_back ascii_only_CaseRanges sample_file io_EOF
           sample_file_portable eq_refl).
Defined.

Lemma second_round_trip_is_exact_witness :
  Forall (portable ascii_only_CaseRanges) sample_file ∧
  errors_Cause io_EOF = io_EOF ∧
  ∃ recs1 s1 s2,
    Scan_yields ascii_only_CaseRanges
      (NewScanner (w_out (Write_each ascii_only_CaseRanges sample_file NewWriter)) io_EOF)
      recs1 s1 ∧
    Scan_yields ascii_only_CaseRanges
      (NewScanner (w_out (Write_each ascii_only_CaseRanges recs1 NewWriter)) io_EOF)
      recs1 s2 ∧
    Scanner_Err s1 = None ∧ Scanner_Err s2 = None ∧
    length recs1 = length sample_file ∧
    ((∀ rec k v, rec ∈ sample_file → rec_data rec !! k = Some v → read_back v = v) →
     recs1 = sample_file).
Proof.
  split; [exact sample_file_portable|]. split; [reflexivity|].
  exact (second_round_trip_is_exact ascii_only_CaseRanges sample_file io_EOF
           sample_file_portable eq_refl).
Defined.

Lemma header_line_is_NewRecord_witness :
  let rest := sample_after_comment in
  let s := NewScanner ([ch_SP] ++ [ch_AT] ++ sample_header_type ++ [ch_EQUAL] ++
                       sample_header_ID ++ ch_LF :: rest) io_EOF in
  forallb unicode_IsSpace [ch_SP] = true ∧ (ch_LF ∉ [ch_SP]) ∧
  (ch_EQUAL ∉ sample_header_type) ∧ (ch_LF ∉ sample_header_type) ∧
  (ch_LF ∉ sample_header_ID) ∧
  NewRecord ascii_only_CaseRanges sample_header_type sample_header_ID
    = Some (mkRecord (runes "The = Sun") (runes "star") ∅) ∧
  let s1 := set_r (incr_line s) (mkReader rest None (rd_err (s_r s))) in
  s_line s1 = s_line s + 1 ∧ pending s1 = rest ∧
  parseRecord_header ascii_only_CaseRanges (fuel_of s) s =
    match NewRecord ascii_only_CaseRanges sample_header_type sample_header_ID with
    | Some rec => (inl rec, s1)
    | None => parseRecord_header ascii_only_CaseRanges (fuel_of s1) s1
    end.
Proof.
  intros rest s.
  assert (H1 : forallb unicode_IsSpace [ch_SP] = true) by reflexivity.
  assert (H2 : ch_LF ∉ [ch_SP]) by not_in_runes.
  assert (H3 : ch_EQUAL ∉ sample_header_type) by not_in_runes.
  assert (H4 : ch_LF ∉ sample_header_type) by not_in_runes.
  assert (H5 : ch_LF ∉ sample_header_ID) by not_in_runes.
  assert (H6 : NewRecord ascii_only_CaseRanges sample_header_type sample_header_ID
               = Some (mkRecord (runes "The = Sun") (runes "star") ∅))
    by (vm_compute; reflexivity).
  split; [exact H1|]. split; [exact H2|]. split; [exact H3|]. split; [exact H4|].
  split; [exact H5|]. split; [exact H6|].
  exact (header_line_is_NewRecord ascii_only_CaseRanges [ch_SP] sample_header_type
           sample_header_ID rest s H1 H2 H3 H4 H5 eq_refl).
Defined.

Lemma backslash_escapes_any_rune_witness :
  let a := runes "say" in
  let b := runes "hi" in
  let s := NewScanner (a ++ ch_BACKSLASH :: ch_QUOTE :: b ++ ch_QUOTE :: [ch_LF]) io_EOF in
  Forall ordinary a ∧ Forall ordinary b ∧ ch_QUOTE ≠ ch_CR ∧
  ∃ s', quoteValue s = (a ++ ch_QUOTE :: b, None, s') ∧ pending s' = [ch_LF] ∧
        same_frame s s'.
Proof.
  intros a b s.
  assert (H1 : Forall ordinary a) by (unfold a; forall_runes).
  assert (H2 : Forall ordinary b) by (unfold b; forall_runes).
  assert (H3 : ch_QUOTE ≠ ch_CR) by (intros H; discriminate H).
  split; [exact H1|]. split; [exact H2|]. split; [exact H3|].
  exact (backslash_escapes_any_rune a b [ch_LF] ch_QUOTE s H1 H2 H3 eq_refl).
Defined.

Lemma Scan_reports_built_records_witness :
  let s := NewScanner sample_two_headers io_EOF in
  let s' := (Scanner_Scan ascii_only_CaseRanges s).2 in
  (∀ c, unicode_ToLower ascii_only_CaseRanges (unicode_ToLower ascii_only_CaseRanges c)
        = unicode_ToLower ascii_only_CaseRanges c) ∧
  (∀ c, unicode_IsSpace (unicode_ToLower ascii_only_CaseRanges c) = unicode_IsSpace c) ∧
  Scanner_Scan ascii_only_CaseRanges s = (true, s') ∧
  ∃ typ ID r0 ops rec,
    NewRecord ascii_only_CaseRanges typ ID = Some r0 ∧
    rec = Record_Sets ascii_only_CaseRanges ops r0 ∧
    s_rec s' = Some rec ∧ Record_Keys rec ≠ [] ∧
    normal_name ascii_only_CaseRanges (Record_Type rec) ∧
    strings_Join (strings_Fields (Record_ID rec)) [ch_SP] = Record_ID rec ∧
    ∀ k, k ∈ Record_Keys rec →
         normal_name ascii_only_CaseRanges k ∧
         Record_Get ascii_only_CaseRanges k rec ≠ [] ∧
         strings_TrimSpace (Record_Get ascii_only_CaseRanges k rec)
           = Record_Get ascii_only_CaseRanges k rec.
Proof.
  intros s s'.
  destruct ascii_only_CaseRanges_sane as [T1 T2].
  assert (E : Scanner_Scan ascii_only_CaseRanges s = (true, s')).
  { apply (pair_fst_eq (Scanner_Scan ascii_only_CaseRanges s) true).
    vm_compute. reflexivity. }
  split; [exact T1|]. split; [exact T2|]. split; [exact E|].
  exact (Scan_reports_built_records ascii_only_CaseRanges T1 T2 s s' E).
Defined.

Lemma skip_reads_the_line_witness :
  let l := sample_comment ++ [ch_CR] in
  let s := NewScanner (l ++ ch_LF :: sample_after_comment) io_EOF in
  let s0 := NewScanner l (io_Fault 3) in
  (ch_LF ∉ l) ∧
  (∃ s', skip ch_LF s = (None, s') ∧ moved s s' sample_after_comment 0) ∧
  (∃ s', skip ch_LF s0 = (Some (rd_err (s_r s0)), s') ∧ moved s0 s' [] 0).
Proof.
  intros l s s0.
  assert (H1 : ch_LF ∉ l) by not_in_runes.
  split; [exact H1|]. split.
  - exact (proj1 (skip_reads_the_line l s H1) sample_after_comment eq_refl).
  - exact (proj2 (skip_reads_the_line l s0 H1) eq_refl).
Defined.

Lemma Scan_true_advances_witness :
  let s := NewScanner sample_two_headers io_EOF in
  let s' := (Scanner_Scan ascii_only_CaseRanges s).2 in
  Scanner_Scan ascii_only_CaseRanges s = (true, s') ∧
  (length (pending s') < length (pending s))%nat ∧
  s_closed s = false ∧ s_closed s' = false ∧ Scanner_Err s' = Scanner_Err s ∧
  ∃ rec, Scanner_Record s' = Some (rec, set_rec s' None) ∧
         Record_Type rec ≠ [] ∧ Record_ID rec ≠ [] ∧
         pending (set_rec s' None) = pending s'.
Proof.
  intros s s'.
  assert (E : Scanner_Scan ascii_only_CaseRanges s = (true, s')).
  { apply (pair_fst_eq (Scanner_Scan ascii_only_CaseRanges s) true).
    vm_compute. reflexivity. }
  split; [exact E|].
  exact (Scan_true_advances ascii_only_CaseRanges s s' E).
Defined.

Lemma CRLF_files_are_read_alike_witness :
  let s := NewScanner sample_two_headers io_EOF in
  let s1 := (Scanner_Scan ascii_only_CaseRanges s).2 in
  let s2 := set_rec s1 None in
  let s3 := (Scanner_Scan ascii_only_CaseRanges s2).2 in
  (ch_CR ∉ sample_two_headers) ∧
  Scan_yields ascii_only_CaseRanges s [sample_moon] s3 ∧
  ∃ s2', Scan_yields ascii_only_CaseRanges
           (NewScanner (crlf sample_two_headers) io_EOF) [sample_moon] s2' ∧
         Scanner_Err s2' = Scanner_Err s3 ∧ s_line s2' = s_line s3 ∧
         s_closed s2' = s_closed s3.
Proof.
  intros s s1 s2 s3.
  assert (H1 : ch_CR ∉ sample_two_headers) by not_in_runes.
  assert (E1 : Scanner_Scan ascii_only_CaseRanges s = (true, s1)).
  { apply (pair_fst_eq (Scanner_Scan ascii_only_CaseRanges s) true).
    vm_compute. reflexivity. }
  assert (E2 : Scanner_Record s1 = Some (sample_moon, s2)).
  { vm_compute. reflexivity. }
  assert (E3 : Scanner_Scan ascii_only_CaseRanges s2 = (false, s3)).
  { apply (pair_fst_eq (Scanner_Scan ascii_only_CaseRanges s2) false).
    vm_compute. reflexivity. }
  assert (H2 : Scan_yields ascii_only_CaseRanges s [sample_moon] s3).
  { exists s1, s2. split; [exact E1|]. split; [exact E2 | exact E3]. }
  split; [exact H1|]. split; [exact H2|].
  exact (CRLF_files_are_read_alike ascii_only_CaseRanges sample_two_headers io_EOF
           [sample_moon] s3 H1 H2).
Defined.

Lemma record_is_copied_by_its_accessors_witness :
  let r0 := mkRecord (runes "Sun") (runes "star") ∅ in
  let ops := [(runes "Mass", runes " 333000 "); (runes "Moons", runes " ");
              (runes "radius", runes "109.3")] in
  (∀ c, unicode_ToLower ascii_only_CaseRanges (unicode_ToLower ascii_only_CaseRanges c)
        = unicode_ToLower ascii_only_CaseRanges c) ∧
  (∀ c, unicode_IsSpace (unicode_ToLower ascii_only_CaseRanges c) = unicode_IsSpace c) ∧
  NewRecord ascii_only_CaseRanges (runes "Star") (runes " Sun ") = Some r0 ∧
  let r := Record_Sets ascii_only_CaseRanges ops r0 in
  ∃ c0, NewRecord ascii_only_CaseRanges (Record_Type r) (Record_ID r) = Some c0 ∧
        Record_Keys c0 = [] ∧
        foldl (λ a k, Record_Set ascii_only_CaseRanges k
                        (Record_Get ascii_only_CaseRanges k r) a)
              c0 (Record_Keys r) = r.
Proof.
  intros r0 ops.
  destruct ascii_only_CaseRanges_sane as [T1 T2].
  assert (H1 : NewRecord ascii_only_CaseRanges (runes "Star") (runes " Sun ") = Some r0)
    by (vm_compute; reflexivity).
  split; [exact T1|]. split; [exact T2|]. split; [exact H1|].
  exact (record_is_copied_by_its_accessors ascii_only_CaseRanges T1 T2
           (runes "Star") (runes " Sun ") r0 ops H1).
Defined.

Lemma at_sign_ends_the_record_witness :
  let rec := sample_moon in
  let t := runes "no header" ++ ch_LF :: sample_after_comment in
  let s := NewScanner ([ch_LF; ch_TAB] ++ ch_AT :: t) io_EOF in
  Forall (λ c, unicode_IsSpace c = true ∧ c ≠ ch_CR) [ch_LF; ch_TAB] ∧
  header_of ascii_only_CaseRanges (ch_AT :: runes "no header" ++ [ch_LF]) = None ∧
  ∃ s', parseKey s = ([], ch_AT, None, s') ∧
        moved s s' (ch_AT :: t) (count_LF [ch_LF; ch_TAB]) ∧
        parseRecord_fields ascii_only_CaseRanges (fuel_of s) rec s = (rec, s') ∧
        ∀ line rest, t = line ++ ch_LF :: rest → ch_LF ∉ line →
                     header_of ascii_only_CaseRanges (ch_AT :: line ++ [ch_LF]) = None →
                     parseRecord ascii_only_CaseRanges s' =
                     parseRecord ascii_only_CaseRanges
                       (set_r (incr_line s') (mkReader rest None (rd_err (s_r s')))).
Proof.
  intros rec t s.
  assert (H1 : Forall (λ c, unicode_IsSpace c = true ∧ c ≠ ch_CR) [ch_LF; ch_TAB])
    by forall_runes.
  assert (H2 : header_of ascii_only_CaseRanges (ch_AT :: runes "no header" ++ [ch_LF])
               = None) by (vm_compute; reflexivity).
  split; [exact H1|]. split; [exact H2|].
  exact (at_sign_ends_the_record ascii_only_CaseRanges [ch_LF; ch_TAB] t rec s H1 eq_refl).
Defined.

Lemma lines_before_a_header_are_skipped_witness :
  let line := [ch_TAB] ++ runes "parent: Saturn" in
  let rest := runes "@moon=Titan" ++ [ch_LF] in
  let s := NewScanner (line ++ ch_LF :: rest) io_EOF in
  s_closed s = false ∧ (ch_LF ∉ line) ∧
  head (strings_TrimSpace (line ++ [ch_LF])) ≠ Some ch_AT ∧
  let s1 := set_r (incr_line s) (mkReader rest None (rd_err (s_r s))) in
  s_line s1 = s_line s + 1 ∧ pending s1 = rest ∧
  parseRecord ascii_only_CaseRanges s = parseRecord ascii_only_CaseRanges s1 ∧
  Scanner_Scan ascii_only_CaseRanges s = Scanner_Scan ascii_only_CaseRanges s1.
Proof.
  intros line rest s.
  assert (H1 : ch_LF ∉ line) by not_in_runes.
  assert (H2 : head (strings_TrimSpace (line ++ [ch_LF])) ≠ Some ch_AT).
  { intros H. vm_compute in H. discriminate H. }
  split; [reflexivity|]. split; [exact H1|]. split; [exact H2|].
  exact (lines_before_a_header_are_skipped ascii_only_CaseRanges line rest s
           eq_refl H1 eq_refl H2).
Defined.

Lemma quoted_value_is_trimmed_witness :
  let ws1 := [ch_SP; ch_LF; ch_TAB] in
  let a := runes "Saturn" in
  let ws2 := [ch_SP; ch_LF] in
  let s := NewScanner (ws1 ++ a ++ ws2 ++ ch_QUOTE :: [ch_LF]) io_EOF in
  Forall (λ c, unicode_IsSpace c = true ∧ c ≠ ch_CR) ws1 ∧
  Forall ordinary a ∧
  Forall (λ c, unicode_IsSpace c = true ∧ c ≠ ch_CR) ws2 ∧
  ∃ s', quoteValue s = (a, None, s') ∧ pending s' = [ch_LF] ∧ same_frame s s'.
Proof.
  intros ws1 a ws2 s.
  assert (H1 : Forall (λ c, unicode_IsSpace c = true ∧ c ≠ ch_CR) ws1)
    by (unfold ws1; forall_runes).
  assert (H2 : Forall ordinary a) by (unfold a; forall_runes).
  assert (H3 : Forall (λ c, unicode_IsSpace c = true ∧ c ≠ ch_CR) ws2)
    by (unfold ws2; forall_runes).
  split; [exact H1|]. split; [exact H2|]. split; [exact H3|].
  exact (quoted_value_is_trimmed ws1 a ws2 [ch_LF] s H1 H2 H3 eq_refl).
Defined.

Lemma Write_writes_every_key_witness :
  let r0 := mkRecord (runes "Sun") (runes "star") ∅ in
  let ops := [(runes "Mass", runes " 333000 "); (runes "Moons", runes " ");
              (runes "radius", runes "109.3")] in
  (∀ c, unicode_ToLower ascii_only_CaseRanges (unicode_ToLower ascii_only_CaseRanges c)
        = unicode_ToLower ascii_only_CaseRanges c) ∧
  (∀ c, unicode_IsSpace (unicode_ToLower ascii_only_CaseRanges c) = unicode_IsSpace c) ∧
  NewRecord ascii_only_CaseRanges (runes "Star") (runes " Sun ") = Some r0 ∧
  w_err NewWriter = None ∧
  let r := Record_Sets ascii_only_CaseRanges ops r0 in
  (∀ k, k ∈ Record_Keys r → Record_Get ascii_only_CaseRanges k r ≠ []) ∧
  Writer_Write ascii_only_CaseRanges r NewWriter =
    (None,
     mkWriter
       (w_out NewWriter ++
        if bool_decide (Record_Keys r = []) then []
        else [ch_AT] ++ Record_Type r ++ [ch_EQUAL] ++ Record_ID r ++ [ch_LF] ++
             concat ((λ k, field_text k (Record_Get ascii_only_CaseRanges k r))
                       <$> Record_Keys r))
       None).
Proof.
  intros r0 ops.
  destruct ascii_only_CaseRanges_sane as [T1 T2].
  assert (H1 : NewRecord ascii_only_CaseRanges (runes "Star") (runes " Sun ") = Some r0)
    by (vm_compute; reflexivity).
  split; [exact T1|]. split; [exact T2|]. split; [exact H1|]. split; [reflexivity|].
  exact (Write_writes_every_key ascii_only_CaseRanges T1 T2
           (runes "Star") (runes " Sun ") r0 ops NewWriter H1 eq_refl).
Defined.
